(** * go-deque: a circular double-ended queue backed by a slice

    A shallow embedding of [deque.go] and the properties of its
    buffer management: circular indexing of head and tail, growth by
    doubling, the shrink policies and the resize routine that linearises
    a wrapped buffer.

    Go's [int] is modelled as a 64-bit two's complement integer carried
    in [Z], with the wrap-around of every arithmetic operation written
    out.  A slice whose length equals its capacity (which is how the
    deque keeps [d.dat]) is a [list]; indexing, slicing and [make] are
    partial and return [None] where Go panics, and so does an operation
    whose doubling loop in [grow] would never leave.

    The deque shares its array with its caller: [WrapSlice] adopts the
    caller's, and [ToSlice] returns a slice of the deque's own.  A
    slice handed to [Push] or [Unshift] is therefore given by where
    each of its elements is stored, and the loop of the call reads an
    element that lies in the deque's array as the turns before have
    left it. *)

From Stdlib Require Import ZArith Lia.
From stdpp Require Import base option list.

Local Open Scope Z_scope.

(** ** Go's [int] *)

Module GoInt.

Definition min_int : Z := - 2 ^ 63.
Definition max_int : Z := 2 ^ 63 - 1.

(** Reduction of a mathematical integer to its 64-bit signed value. *)
Definition wrap (z : Z) : Z := (z + 2 ^ 63) mod 2 ^ 64 - 2 ^ 63.

Definition add (a b : Z) : Z := wrap (a + b).
Definition sub (a b : Z) : Z := wrap (a - b).
Definition mul (a b : Z) : Z := wrap (a * b).

Definition in_range (z : Z) : Prop := min_int <= z <= max_int.

End GoInt.

(** ** Slices *)

Section Slices.

Context {T : Type}.
(** The zero value of the element type. *)
Variable zero : T.

(** [cap(s)] for a slice kept at full length. *)
Definition cap_of (s : list T) : Z := Z.of_nat (length s).

(** [make([]T, size)]: panics on a negative size. *)
Definition make (size : Z) : option (list T) :=
  if size <? 0 then None else Some (replicate (Z.to_nat size) zero).

(** [s[i]] as an expression: panics out of range. *)
Definition index (s : list T) (i : Z) : option T :=
  if i <? 0 then None else s !! Z.to_nat i.

(** [s[i] = v]: panics out of range. *)
Definition store (s : list T) (i : Z) (v : T) : option (list T) :=
  if (0 <=? i) && (i <? cap_of s)
  then Some (<[Z.to_nat i := v]> s) else None.

(** [s[lo:hi]]: panics unless [0 <= lo <= hi <= cap(s)]. *)
Definition slice (s : list T) (lo hi : Z) : option (list T) :=
  if (0 <=? lo) && (lo <=? hi) && (hi <=? cap_of s)
  then Some (take (Z.to_nat (hi - lo)) (drop (Z.to_nat lo) s))
  else None.

(** [copy(dst, src)]: copies [min(len(dst), len(src))] elements and
    returns the destination after the copy with the count. *)
Definition copy (dst src : list T) : list T * Z :=
  let n := Nat.min (length dst) (length src) in
  (take n src ++ drop n dst, Z.of_nat n).

End Slices.

(** A slice handed in by a caller: its [len] visible elements and the
    spare elements of the backing array up to its capacity. *)
Record Slice (T : Type) := mkSlice { visible : list T; spare : list T }.
Arguments mkSlice {T} _ _.
Arguments visible {T} _.
Arguments spare {T} _.

(** ** The slice handed to [Push] and [Unshift]

    Go passes the slice of a call [d.Push(s...)] as it is, and the loop
    of [Push] reads [s[i]] at its [i]-th turn, not before.  Seen from
    the deque, an element of [s] is stored either in an array the deque
    does not write, where it keeps its value [x] through the call
    ([Apart x]), or in the array behind [d.dat], at index [i]
    ([Within i]), where an earlier turn of the loop may have written.
    A slice returned by [ToSlice], or cut from the array given to
    [WrapSlice], has elements of the second kind for as long as the
    deque keeps that array.  The call [d.Push(x1, ..., xn)] makes an
    array of its own for its values: that is [values], and a list of
    values written where a slice is expected stands for it. *)
Inductive place (T : Type) : Type :=
| Apart (x : T)
| Within (i : nat).
Arguments Apart {T} _.
Arguments Within {T} _.

Record variadic (T : Type) := Variadic { places : list (place T) }.
Arguments Variadic {T} _.
Arguments places {T} _.

Definition values {T : Type} (vs : list T) : variadic T :=
  Variadic (Apart <$> vs).
Coercion values : list >-> variadic.

(** The slice [d.dat[lo : lo+n]], which shares the deque's array. *)
Definition window {T : Type} (lo n : nat) : variadic T :=
  Variadic (Within <$> seq lo n).

(** ** Circular spans

    The logical content of a circular buffer: the [n] slots of [l]
    met when walking forward from index [h], wrapping at the end. *)

Section Span.

Context {T : Type}.
Local Open Scope nat_scope.

Definition ring (h n : nat) (l : list T) : list T :=
  take n (drop h l ++ take h l).

(** The index in a buffer of [c] slots of the [i]-th logical element. *)
Definition phys (h i c : nat) : nat :=
  if decide (h + i < c) then h + i else h + i - c.

(** The circular predecessor and successor of an index. *)
Definition before (h c : nat) : nat := if decide (h = 0) then c - 1 else h - 1.
Definition after (h c : nat) : nat := if decide (S h = c) then 0 else S h.

End Span.

(** ** The deque *)

Module Deque.

Definition DefaultSize : Z := 32.

Definition ShrinkNever : Z := 0.
Definition ShrinkIfEmpty : Z := 1.
Definition ShrinkAt20Pct : Z := 2.

Record t (T : Type) := mk {
  Minsize : Z; Shrink : Z;
  head : Z; tail : Z; len : Z;
  dat : list T
}.
Arguments mk {T} _ _ _ _ _ _.
Arguments Minsize {T} _.
Arguments Shrink {T} _.
Arguments head {T} _.
Arguments tail {T} _.
Arguments len {T} _.
Arguments dat {T} _.

(** The number of doublings after which the loop of [grow] can no
    longer leave: 64 doublings of a 64-bit integer give 0. *)
Definition grow_fuel : nat := 65.

Section Ops.

Context {T : Type}.
Variable zero : T.

Abbreviation Deque := (t T).

(** Field assignments. *)
Definition with_Minsize (x : Z) (d : Deque) : Deque :=
  mk x (Shrink d) (head d) (tail d) (len d) (dat d).
Definition with_head (x : Z) (d : Deque) : Deque :=
  mk (Minsize d) (Shrink d) x (tail d) (len d) (dat d).
Definition with_tail (x : Z) (d : Deque) : Deque :=
  mk (Minsize d) (Shrink d) (head d) x (len d) (dat d).
Definition with_len (x : Z) (d : Deque) : Deque :=
  mk (Minsize d) (Shrink d) (head d) (tail d) x (dat d).
Definition with_dat (x : list T) (d : Deque) : Deque :=
  mk (Minsize d) (Shrink d) (head d) (tail d) (len d) x.

(** The zero-valued deque with its two settable fields. *)
Definition new (minsize shrink : Z) : Deque := mk minsize shrink 0 0 0 [].

Definition Len (d : Deque) : Z := len d.
Definition Cap (d : Deque) : Z := cap_of (dat d).

Definition resize (size : Z) (d : Deque) : option Deque :=
  tmp ← make zero size;
  tmp ← (if 0 <? len d then
           let end_ := Cap d in
           let end_ := if len d <? GoInt.sub end_ (head d)
                       then GoInt.add (head d) (len d) else end_ in
           src ← slice (dat d) (head d) end_;
           let '(tmp, count) := copy tmp src in
           if count <? len d then
             dst ← slice tmp count (cap_of tmp);
             src ← slice (dat d) 0 (GoInt.sub (len d) count);
             Some (take (Z.to_nat count) tmp ++ (copy dst src).1)
           else Some tmp
         else Some tmp);
  let d := with_dat tmp d in
  let d := with_head 0 d in
  let d := with_tail (len d) d in
  let d := if tail d =? 0 then with_tail size d else d in
  Some (with_tail (GoInt.sub (tail d) 1) d).

(** The loop [for size < need { size *= 2 }]. *)
Fixpoint grow_loop (fuel : nat) (size need : Z) : option Z :=
  match fuel with
  | O => None
  | S fuel =>
      if size <? need then grow_loop fuel (GoInt.mul size 2) need
      else Some size
  end.

Definition grow (add : Z) (d : Deque) : option Deque :=
  if Cap d <? GoInt.add (len d) add then
    let d := if Minsize d <=? 0 then with_Minsize DefaultSize d else d in
    let size := Cap d in
    let size := if size =? 0 then Minsize d else size in
    size ← grow_loop grow_fuel size (GoInt.add (len d) add);
    resize size d
  else Some d.

Definition shrink (d : Deque) : option Deque :=
  if Shrink d =? ShrinkNever then Some d
  else if (Minsize d <? len d) || (Cap d =? Minsize d) then Some d
  else if (Shrink d =? ShrinkAt20Pct) && (Cap d <? GoInt.mul (len d) 5)
  then Some d
  else if (Shrink d =? ShrinkIfEmpty) && (0 <? len d) then Some d
  else resize (Minsize d) d.

Definition push (v : T) (d : Deque) : option Deque :=
  let d := with_len (GoInt.add (len d) 1) d in
  let d := with_tail (GoInt.add (tail d) 1) d in
  let d := if tail d =? Cap d then with_tail 0 d else d in
  s ← store (dat d) (tail d) v;
  Some (with_dat s d).

Definition unshift (v : T) (d : Deque) : option Deque :=
  let d := with_len (GoInt.add (len d) 1) d in
  let d := if head d =? 0 then with_head (Cap d) d else d in
  let d := with_head (GoInt.sub (head d) 1) d in
  s ← store (dat d) (head d) v;
  Some (with_dat s d).

(** [v[i]], read while the array behind [d.dat] holds [a]. *)
Definition fetch (a : list T) (p : place T) : option T :=
  match p with
  | Apart x => Some x
  | Within i => a !! i
  end.

(** [for _, x := range v { f(x) }]: each turn reads its element from
    the array as the turns before it have left it. *)
Fixpoint for_range (f : T → Deque → option Deque) (v : list (place T))
    (d : Deque) : option Deque :=
  match v with
  | [] => Some d
  | p :: v => x ← fetch (dat d) p; d ← f x d; for_range f v d
  end.

(** [grow] leaves [d.dat] where it is unless it calls [resize], which
    puts the deque in a new array made by [make] and only reads the old
    one.  This is the test [need > cap(d.dat)] of [grow]. *)
Definition reallocates (add : Z) (d : Deque) : bool :=
  Cap d <? GoInt.add (len d) add.

(** The elements of [v] once the deque has left the array [a]: those
    that were in [a] stay there, out of the deque's reach, with the
    values [a] holds. *)
Definition detach (a : list T) (v : list (place T))
    : option (list (place T)) :=
  vs ← mapM (fetch a) v; Some (Apart <$> vs).

(** [d.grow(len(v))], then the loop.  The slice [v] is the one the
    caller passed: where [grow] has reallocated, it is still in the
    array the deque has left. *)
Definition Push (v : variadic T) (d : Deque) : option Deque :=
  let add := Z.of_nat (length (places v)) in
  d' ← grow add d;
  ps ← (if reallocates add d then detach (dat d) (places v)
        else Some (places v));
  for_range push ps d'.

Definition Unshift (v : variadic T) (d : Deque) : option Deque :=
  let add := Z.of_nat (length (places v)) in
  d' ← grow add d;
  ps ← (if reallocates add d then detach (dat d) (places v)
        else Some (places v));
  for_range unshift ps d'.

(** The values the slice [v] holds when the call is made. *)
Definition held (v : variadic T) (d : Deque) : option (list T) :=
  mapM (fetch (dat d)) (places v).

(** Slot [i] of the buffer holds an element of the deque: it is one
    of the [len] slots from [head] on, wrapping at the end. *)
Definition occupied (d : Deque) (i : nat) : bool :=
  let i := Z.of_nat i in
  (i <? Cap d)
  && (if head d + len d <=? Cap d
      then (head d <=? i) && (i <? head d + len d)
      else (head d <=? i) || (i <? head d + len d - Cap d)).

(** An element no [push] or [unshift] writes: it is stored apart, or
    in a slot that holds an element of the deque. *)
Definition kept (d : Deque) (p : place T) : bool :=
  match p with
  | Apart _ => true
  | Within i => occupied d i
  end.

(** The slice [v] keeps its values through a call of [Push] or
    [Unshift]: the call moves the deque to a new array before it
    writes, or every element of [v] is kept. *)
Definition stable (v : variadic T) (d : Deque) : Prop :=
  reallocates (Z.of_nat (length (places v))) d = true
  ∨ forallb (kept d) (places v) = true.

Definition Pop (d : Deque) : option (Deque * (T * bool)) :=
  if 0 <? len d then
    let d := with_len (GoInt.sub (len d) 1) d in
    v ← index (dat d) (tail d);
    let d := if tail d =? 0 then with_tail (Cap d) d else d in
    let d := with_tail (GoInt.sub (tail d) 1) d in
    d ← shrink d;
    Some (d, (v, true))
  else Some (d, (zero, false)).

Definition Shift (d : Deque) : option (Deque * (T * bool)) :=
  if 0 <? len d then
    let d := with_len (GoInt.sub (len d) 1) d in
    v ← index (dat d) (head d);
    let d := with_head (GoInt.add (head d) 1) d in
    let d := if head d =? Cap d then with_head 0 d else d in
    d ← shrink d;
    Some (d, (v, true))
  else Some (d, (zero, false)).

Definition Peek (d : Deque) : option (Deque * (T * bool)) :=
  if 0 <? len d then
    v ← index (dat d) (tail d);
    Some (d, (v, true))
  else Some (d, (zero, false)).

Definition PeekShift (d : Deque) : option (Deque * (T * bool)) :=
  if 0 <? len d then
    v ← index (dat d) (head d);
    Some (d, (v, true))
  else Some (d, (zero, false)).

Definition ToSlice (d : Deque) : option (Deque * list T) :=
  if len d =? 0 then Some (d, [])
  else
    d ← (if negb (head d =? 0) then resize (Cap d) d else Some d);
    s ← slice (dat d) 0 (len d);
    Some (d, s).

Definition WrapSlice (s : Slice T) (d : Deque) : Deque :=
  let d := with_dat (visible s ++ spare s) d in
  let d := with_len (Z.of_nat (length (visible s))) d in
  let d := with_head 0 d in
  let d := with_tail (len d) d in
  let d := if tail d =? 0 then with_tail (Cap d) d else d in
  with_tail (GoInt.sub (tail d) 1) d.

(** *** Sequences of calls *)

(** [n] successive calls of a removing or peeking operation, with
    the results in call order. *)
Fixpoint calls (f : Deque → option (Deque * (T * bool))) (n : nat)
    (d : Deque) : option (Deque * list (T * bool)) :=
  match n with
  | O => Some (d, [])
  | S n =>
      '(d, r) ← f d;
      '(d, rs) ← calls f n d;
      Some (d, r :: rs)
  end.

(** The public operations, and the state after a sequence of them.
    [OpPush] and [OpUnshift] are the calls whose values are in storage
    of their own: listed in the call, or in a slice that shares no
    array with the deque. *)
Inductive op : Type :=
| OpPush (v : list T)
| OpUnshift (v : list T)
| OpPop
| OpShift
| OpPeek
| OpPeekShift
| OpLen
| OpCap
| OpToSlice
| OpWrapSlice (s : Slice T).

Definition step (o : op) (d : Deque) : option Deque :=
  match o with
  | OpPush v => Push (values v) d
  | OpUnshift v => Unshift (values v) d
  | OpPop => fst <$> Pop d
  | OpShift => fst <$> Shift d
  | OpPeek => fst <$> Peek d
  | OpPeekShift => fst <$> PeekShift d
  | OpLen => Some d
  | OpCap => Some d
  | OpToSlice => fst <$> ToSlice d
  | OpWrapSlice s => Some (WrapSlice s d)
  end.

Fixpoint run (os : list op) (d : Deque) : option Deque :=
  match os with
  | [] => Some d
  | o :: os => d ← step o d; run os d
  end.

(** The number of elements an operation hands to the deque, and the
    capacities of the buffers a sequence of operations adopts. *)
Definition volume (o : op) : Z :=
  match o with
  | OpPush v | OpUnshift v => Z.of_nat (length v)
  | OpWrapSlice s => Z.of_nat (length (visible s ++ spare s))
  | _ => 0
  end.

Fixpoint total_volume (os : list op) : Z :=
  match os with
  | [] => 0
  | o :: os => volume o + total_volume os
  end.

Fixpoint adopted (os : list op) : list Z :=
  match os with
  | [] => []
  | OpWrapSlice s :: os => cap_of (visible s ++ spare s) :: adopted os
  | _ :: os => adopted os
  end.

(** *** Observable behaviour *)

(** What a call returns to its caller. *)
Inductive result : Type :=
| RNone
| RValue (v : T) (ok : bool)
| RInt (n : Z)
| RSlice (s : list T).

(** An operation with the value it returns. *)
Definition exec (o : op) (d : Deque) : option (Deque * result) :=
  match o with
  | OpPush v => d ← Push (values v) d; Some (d, RNone)
  | OpUnshift v => d ← Unshift (values v) d; Some (d, RNone)
  | OpPop => '(d, (v, ok)) ← Pop d; Some (d, RValue v ok)
  | OpShift => '(d, (v, ok)) ← Shift d; Some (d, RValue v ok)
  | OpPeek => '(d, (v, ok)) ← Peek d; Some (d, RValue v ok)
  | OpPeekShift => '(d, (v, ok)) ← PeekShift d; Some (d, RValue v ok)
  | OpLen => Some (d, RInt (Len d))
  | OpCap => Some (d, RInt (Cap d))
  | OpToSlice => '(d, s) ← ToSlice d; Some (d, RSlice s)
  | OpWrapSlice s => Some (WrapSlice s d, RNone)
  end.

Fixpoint trace (os : list op) (d : Deque) : option (Deque * list result) :=
  match os with
  | [] => Some (d, [])
  | o :: os =>
      '(d, r) ← exec o d;
      '(d, rs) ← trace os d;
      Some (d, r :: rs)
  end.

(** The reference model: a double-ended queue as a plain list, head
    first.  It has no capacity, so it predicts no result for [Cap]. *)
Definition model_value (o : option T) : result :=
  match o with
  | Some v => RValue v true
  | None => RValue zero false
  end.

Definition model_exec (o : op) (l : list T) : list T * option result :=
  match o with
  | OpPush v => (l ++ v, Some RNone)
  | OpUnshift v => (reverse v ++ l, Some RNone)
  | OpPop => (take (length l - 1) l, Some (model_value (last l)))
  | OpShift => (drop 1 l, Some (model_value (hd_error l)))
  | OpPeek => (l, Some (model_value (last l)))
  | OpPeekShift => (l, Some (model_value (hd_error l)))
  | OpLen => (l, Some (RInt (Z.of_nat (length l))))
  | OpCap => (l, None)
  | OpToSlice => (l, Some (RSlice l))
  | OpWrapSlice s => (visible s, Some RNone)
  end.

Fixpoint model_trace (os : list op) (l : list T)
    : list T * list (option result) :=
  match os with
  | [] => (l, [])
  | o :: os =>
      let '(l, r) := model_exec o l in
      let '(l, rs) := model_trace os l in
      (l, r :: rs)
  end.

(** A result agrees with the model where the model predicts one. *)
Definition agrees (r : result) (m : option result) : Prop :=
  match m with
  | Some r' => r = r'
  | None => True
  end.

(** *** Abstraction and representation invariant *)

(** The logical content, from head to tail. *)
Definition contents (d : Deque) : list T :=
  ring (Z.to_nat (head d)) (Z.to_nat (len d)) (dat d).

(** Where the tail cursor stands for a head, a length and a capacity:
    [len - 1] slots after the head, circularly. *)
Definition tail_of (h n c : Z) : Z :=
  let t := h + n - 1 in
  if t <? 0 then c - 1 else if t <? c then t else t - c.

(** The value [Minsize] takes the first time [grow] allocates. *)
Definition effective_minsize (m : Z) : Z :=
  if m <=? 0 then DefaultSize else m.

(** States the operations keep the deque in.  The capacity and
    [Minsize] are those of a Go program: they fit an [int]. *)
Record wf (d : Deque) : Prop := {
  wf_cap : Cap d <= GoInt.max_int;
  wf_min : Minsize d <= GoInt.max_int;
  wf_len : 0 <= len d <= Cap d;
  wf_head : 0 < Cap d → 0 <= head d < Cap d;
  wf_tail : 0 < Cap d → tail d = tail_of (head d) (len d) (Cap d)
}.

End Ops.

Arguments op : clear implicits.
Arguments result : clear implicits.

End Deque.

(** ** Example states *)

(** A deque whose occupied run wraps: the buffer 5 6 7 8 adopted, two
    elements shifted and 9 pushed. *)
Definition wrapped_example : Deque.t Z := Deque.mk 0 0 2 0 3 [9; 6; 7; 8].

(** An empty deque over an adopted buffer of capacity 4. *)
Definition empty_example : Deque.t Z :=
  Deque.WrapSlice (mkSlice [] [1; 2; 3; 4]) (Deque.new 2 Deque.ShrinkIfEmpty).

(** A one-element deque over an adopted buffer, by [Minsize]. *)
Definition single_example (minsize : Z) : Deque.t Z :=
  Deque.WrapSlice (mkSlice [7] []) (Deque.new minsize Deque.ShrinkIfEmpty).

(** An empty deque over the adopted array 1 2 3, as after
    [buf := []int{1, 2, 3}; d.WrapSlice(buf[:0])]. *)
Definition adopted_example : Deque.t Z :=
  Deque.WrapSlice (mkSlice [] [1; 2; 3]) (Deque.new 0 Deque.ShrinkNever).

(** A deque with [Minsize] 4 emptied from both ends, while the caller
    still holds the slice [s] that [ToSlice] returned:
    [d.Push(1, 2, 3); s := d.ToSlice(); d.Shift(); d.Pop(); d.Pop()]. *)
Definition drained_example : Deque.t Z := Deque.mk 4 0 1 0 0 [1; 2; 3; 0].

(** A deque with [Minsize] 2 under [ShrinkAt20Pct] that holds two
    elements in a buffer of capacity 8, as after
    [d.Push(1, 2, 3, 4, 5); d.Pop(); d.Pop(); d.Pop()]. *)
Definition sparse_example : Deque.t Z :=
  Deque.mk 2 Deque.ShrinkAt20Pct 0 1 2 [1; 2; 3; 4; 5; 0; 0; 0].

(** ** Tactics *)

(** Case analysis on the integer comparisons of a goal. *)
Ltac zcases :=
  repeat match goal with
    | |- context [?a <? ?b] => destruct (Z.ltb_spec a b)
    | |- context [?a <=? ?b] => destruct (Z.leb_spec a b)
    | |- context [?a =? ?b] => destruct (Z.eqb_spec a b)
    | |- context [decide ?P] => destruct (decide P)
    end.

Ltac int_range :=
  unfold GoInt.in_range, GoInt.min_int, GoInt.max_int in *; lia.

(** Well-formedness of a concrete deque, by evaluation. *)
Ltac wf_by_evaluation :=
  constructor; vm_compute; repeat split; intros;
  first [discriminate | reflexivity].

(** ** Arithmetic inside the 64-bit range *)

Lemma wrap_small (z : Z) : GoInt.in_range z → GoInt.wrap z = z.
Proof.
  unfold GoInt.in_range, GoInt.wrap, GoInt.min_int, GoInt.max_int.
  intros Hz. rewrite Z.mod_small; lia.
Qed.

Lemma wrap_in_range (z : Z) : GoInt.in_range (GoInt.wrap z).
Proof.
  unfold GoInt.in_range, GoInt.wrap, GoInt.min_int, GoInt.max_int.
  pose proof (Z.mod_pos_bound (z + 2 ^ 63) (2 ^ 64)). lia.
Qed.

Lemma wrap_double (z : Z) : GoInt.wrap (GoInt.wrap z * 2) = GoInt.wrap (z * 2).
Proof.
  unfold GoInt.wrap. f_equal.
  replace (((z + 2 ^ 63) mod 2 ^ 64 - 2 ^ 63) * 2 + 2 ^ 63)
    with (((z + 2 ^ 63) mod 2 ^ 64) * 2 + (2 ^ 63 - 2 ^ 64)) by lia.
  replace (z * 2 + 2 ^ 63) with ((z + 2 ^ 63) * 2 + (2 ^ 63 - 2 ^ 64)) by lia.
  rewrite (Z.add_mod (_ * 2)) by lia.
  rewrite (Z.add_mod ((z + 2 ^ 63) * 2)) by lia.
  f_equal. f_equal.
  rewrite Z.mul_mod_idemp_l by lia. done.
Qed.

(** ** The circular span of a buffer *)

Section Ring.
Context {T : Type}.
Implicit Types (l : list T) (h n i c : nat).
Local Open Scope nat_scope.


Lemma ring_length h n l : h ≤ length l → n ≤ length l → length (ring h n l) = n.
Proof.
  intros Hh Hn. unfold ring.
  rewrite length_take, length_app, length_drop, length_take. lia.
Qed.

Lemma ring_lookup h n l i :
  h ≤ length l → n ≤ length l → i < n →
  ring h n l !! i = l !! phys h i (length l).
Proof.
  intros Hh Hn Hi. unfold ring, phys.
  rewrite lookup_take_lt by done.
  rewrite lookup_app, length_drop.
  case_decide.
  - rewrite lookup_drop.
    assert (Hlt : h + i < length l) by lia.
    destruct (lookup_lt_is_Some_2 l _ Hlt) as [x Hx]. by rewrite Hx.
  - replace (drop h l !! i) with (@None T) by (symmetry; apply lookup_ge_None_2; rewrite length_drop; lia).
    rewrite lookup_take_lt by lia. f_equal; lia.
Qed.

Lemma list_eq_upto (l1 l2 : list T) :
  length l1 = length l2 →
  (∀ i, i < length l1 → l1 !! i = l2 !! i) → l1 = l2.
Proof.
  intros Hlen Hi. apply list_eq. intros i.
  destruct (decide (i < length l1)) as [Hlt|Hge]; [by apply Hi|].
  rewrite !lookup_ge_None_2; [done|lia..].
Qed.

Lemma ring_snoc h n l v :
  h < length l → n < length l →
  ring h (S n) (<[phys h n (length l) := v]> l) = ring h n l ++ [v].
Proof.
  intros Hh Hn. apply list_eq_upto.
  - rewrite length_app, !ring_length; rewrite ?length_insert; simpl; lia.
  - rewrite ring_length by (rewrite length_insert; lia).
    intros i Hi. rewrite ring_lookup by (rewrite ?length_insert; lia).
    rewrite length_insert.
    destruct (decide (i = n)) as [->|Hne].
    + rewrite list_lookup_insert_eq by (unfold phys; case_decide; lia).
      rewrite lookup_app_r by (rewrite ring_length; lia).
      rewrite ring_length by lia. by rewrite Nat.sub_diag.
    + rewrite list_lookup_insert_ne by (unfold phys; repeat case_decide; lia).
      rewrite lookup_app_l by (rewrite ring_length; lia).
      by rewrite ring_lookup by lia.
Qed.

Lemma ring_cons h n l v :
  h < length l → n < length l →
  ring (before h (length l)) (S n) (<[before h (length l) := v]> l) = v :: ring h n l.
Proof.
  intros Hh Hn.
  assert (Hb : before h (length l) < length l) by (unfold before; case_decide; lia).
  apply list_eq_upto.
  - simpl. rewrite !ring_length; rewrite ?length_insert; lia.
  - rewrite ring_length by (rewrite length_insert; lia).
    intros i Hi. rewrite ring_lookup by (rewrite ?length_insert; lia).
    rewrite length_insert.
    destruct i as [|i].
    + simpl. replace (phys _ 0 _) with (before h (length l)) by (unfold phys; case_decide; lia).
      by rewrite list_lookup_insert_eq.
    + simpl. rewrite list_lookup_insert_ne by (unfold phys, before in *; repeat case_decide; lia).
      rewrite ring_lookup by lia. f_equal.
      unfold phys, before; repeat case_decide; lia.
Qed.

Lemma ring_unsnoc h n l v :
  h < length l → n < length l →
  l !! phys h n (length l) = Some v →
  ring h (S n) l = ring h n l ++ [v].
Proof.
  intros Hh Hn Hv. rewrite <- (ring_snoc h n l v) by done.
  by rewrite list_insert_id.
Qed.

Lemma ring_uncons h n l v :
  h < length l → n < length l →
  l !! h = Some v →
  ring h (S n) l = v :: ring (after h (length l)) n l.
Proof.
  intros Hh Hn Hv.
  assert (Ha : after h (length l) < length l) by (unfold after; case_decide; lia).
  rewrite <- (ring_cons (after h (length l)) n l v) by done.
  replace (before (after h (length l)) (length l)) with h
    by (unfold before, after; repeat case_decide; lia).
  by rewrite list_insert_id.
Qed.

Lemma ring_prefix n (k pad : list T) : n = length k → ring 0 n (k ++ pad) = k.
Proof.
  intros ->. unfold ring. rewrite drop_0. simpl. rewrite app_nil_r.
  by rewrite take_app_length.
Qed.

Lemma ring_nil h l : ring h 0 l = [].
Proof. done. Qed.
End Ring.

(** ** The operations on well-formed deques *)

Section DequeFacts.

Import Deque.
Context {T : Type}.
Variable zero : T.
Implicit Types (d : Deque.t T) (v : T).

Lemma ring_flat (h n : nat) (l : list T) :
  (n ≤ length l - h)%nat → ring h n l = take n (drop h l).
Proof.
  intros Hn. unfold ring. apply take_app_le. rewrite length_drop. lia.
Qed.

Lemma ring_wrapped (h n : nat) (l : list T) :
  (h ≤ length l)%nat → (length l - h ≤ n)%nat → (n ≤ length l)%nat →
  ring h n l = drop h l ++ take (n - (length l - h)) l.
Proof.
  intros Hh Hn Hc. unfold ring.
  rewrite take_app_ge by (rewrite length_drop; lia).
  rewrite length_drop, take_take. do 2 f_equal. lia.
Qed.

Lemma contents_length d : wf d → Z.of_nat (length (contents d)) = len d.
Proof.
  intros [Hc Hm Hl Hh Ht]. unfold contents, Cap, cap_of in *.
  destruct (decide (len d = 0)) as [->|Hne]; [done|].
  rewrite ring_length; lia.
Qed.

Lemma slice_Some (s : list T) lo hi :
  0 <= lo → lo <= hi → hi <= cap_of s →
  slice s lo hi = Some (take (Z.to_nat (hi - lo)) (drop (Z.to_nat lo) s)).
Proof.
  intros H1 H2 H3. unfold slice.
  rewrite (proj2 (Z.leb_le 0 lo)), (proj2 (Z.leb_le lo hi)),
    (proj2 (Z.leb_le hi _)); done.
Qed.

Lemma resize_spec d size :
  wf d → len d <= size <= GoInt.max_int →
  resize zero size d =
    Some (mk (Minsize d) (Shrink d) 0 (tail_of 0 (len d) size) (len d)
            (contents d ++ replicate (Z.to_nat (size - len d)) zero)).
Proof.
  intros [Hc Hm Hl Hh Ht] Hs.
  unfold resize, make, contents, Cap, cap_of in *.
  unfold GoInt.max_int in *.
  destruct d as [ms sh hd tl n l]; simpl in *.
  rewrite (proj2 (Z.ltb_ge size 0)) by lia. simpl.
  destruct (Z.ltb_spec 0 n) as [Hpos|Hz].
  - specialize (Hh ltac:(lia)). clear Ht.
    unfold GoInt.sub, GoInt.add.
    assert (∃ h : nat, hd = Z.of_nat h) as [h ->] by (exists (Z.to_nat hd); lia).
    assert (∃ k : nat, n = Z.of_nat k) as [k ->] by (exists (Z.to_nat n); lia).
    assert (∃ s : nat, size = Z.of_nat s) as [s ->] by (exists (Z.to_nat size); lia).
    rewrite !Nat2Z.id.
    rewrite (wrap_small (_ - _)) by (unfold GoInt.in_range, GoInt.min_int, GoInt.max_int; lia).
    destruct (Z.ltb_spec (Z.of_nat k) (Z.of_nat (length l) - Z.of_nat h)) as [Hflat|Hwrap].
    + rewrite wrap_small by (unfold GoInt.in_range, GoInt.min_int, GoInt.max_int; lia).
      rewrite slice_Some by (unfold cap_of; lia). simpl.
      replace (Z.to_nat (Z.of_nat h + Z.of_nat k - Z.of_nat h)) with k by lia.
      rewrite Nat2Z.id.
      rewrite !length_replicate, !length_take, !length_drop.
      replace (s `min` (k `min` (length l - h)))%nat with k by lia.
      rewrite (proj2 (Z.ltb_ge _ _)) by lia. simpl.
      unfold with_tail, with_head, with_dat, tail_of; simpl.
      rewrite (proj2 (Z.eqb_neq _ 0)) by lia. simpl.
      rewrite wrap_small by (unfold GoInt.in_range, GoInt.min_int, GoInt.max_int; lia).
      rewrite (proj2 (Z.ltb_ge _ 0)) by lia.
      rewrite (proj2 (Z.ltb_lt _ _)) by lia.
      do 2 f_equal.
      rewrite take_take, Nat.min_id, drop_replicate, ring_flat by lia.
      do 2 f_equal. lia.
    + rewrite slice_Some by (unfold cap_of; lia). simpl.
      replace (Z.to_nat (Z.of_nat (length l) - Z.of_nat h)) with (length l - h)%nat by lia.
      rewrite Nat2Z.id.
      rewrite !length_replicate, !length_take, !length_drop.
      replace (s `min` ((length l - h) `min` (length l - h)))%nat with (length l - h)%nat by lia.
      rewrite take_idemp, (take_ge (drop h l)) by (rewrite length_drop; lia).
      rewrite drop_replicate.
      destruct (Z.ltb_spec (Z.of_nat (length l - h)) (Z.of_nat k)) as [Hmore|Hexact].
      * rewrite (slice_Some (_ ++ _))
          by (unfold cap_of; rewrite ?length_app, ?length_drop, ?length_replicate; lia).
        simpl.
        rewrite wrap_small by (unfold GoInt.in_range, GoInt.min_int, GoInt.max_int; lia).
        rewrite slice_Some by (unfold cap_of; lia). simpl.
        change (Z.to_nat 0) with 0%nat. rewrite drop_0.
        rewrite !length_app, !length_drop, !length_replicate.
        replace (Z.to_nat (Z.of_nat k - Z.of_nat (length l - h) - 0))
          with (k - (length l - h))%nat by lia.
        replace (Z.to_nat (Z.of_nat (length l - h + (s - (length l - h)))
                           - Z.of_nat (length l - h)))
          with (s - (length l - h))%nat by lia.
        rewrite !Nat2Z.id.
        rewrite take_app_length' by (rewrite length_drop; lia).
        rewrite drop_app_length' by (rewrite length_drop; lia).
        rewrite (take_ge (replicate _ _)) by (rewrite length_replicate; lia).
        rewrite length_replicate, length_take.
        replace ((s - (length l - h)) `min` ((k - (length l - h)) `min` length l))%nat
          with (k - (length l - h))%nat by lia.
        rewrite take_idemp, drop_replicate.
        unfold with_tail, with_head, with_dat, tail_of; simpl.
        rewrite (proj2 (Z.eqb_neq _ 0)) by lia. simpl.
        rewrite wrap_small by (unfold GoInt.in_range, GoInt.min_int, GoInt.max_int; lia).
        rewrite (proj2 (Z.ltb_ge _ 0)) by lia.
        rewrite (proj2 (Z.ltb_lt _ _)) by lia.
        do 2 f_equal.
        rewrite ring_wrapped by lia. rewrite <- app_assoc.
        do 3 f_equal. lia.
      * simpl. unfold with_tail, with_head, with_dat, tail_of; simpl.
        rewrite (proj2 (Z.eqb_neq _ 0)) by lia. simpl.
        rewrite wrap_small by (unfold GoInt.in_range, GoInt.min_int, GoInt.max_int; lia).
        rewrite (proj2 (Z.ltb_ge _ 0)) by lia.
        rewrite (proj2 (Z.ltb_lt _ _)) by lia.
        do 2 f_equal.
        rewrite ring_wrapped by lia.
        replace (k - (length l - h))%nat with 0%nat by lia.
        rewrite take_0, app_nil_r. do 2 f_equal. lia.
  - assert (n = 0) as -> by lia. simpl.
    unfold with_tail, with_head, with_dat, tail_of, GoInt.sub; simpl.
    rewrite wrap_small by (unfold GoInt.in_range, GoInt.min_int, GoInt.max_int; lia).
    do 3 f_equal. lia.
Qed.

(** Everything [resize] promises, on a well-formed deque given a size
    that holds its content. *)
Lemma resize_wf d size :
  wf d → len d <= size <= GoInt.max_int →
  ∃ d', resize zero size d = Some d' ∧ wf d' ∧
        contents d' = contents d ∧ Cap d' = size ∧ head d' = 0 ∧
        len d' = len d ∧ Minsize d' = Minsize d ∧ Shrink d' = Shrink d.
Proof.
  intros Hwf Hs. eexists. split; [by apply resize_spec|].
  pose proof (contents_length d Hwf) as Hlen.
  destruct Hwf as [Hc Hm Hl Hh Ht].
  assert (Hcap : Z.of_nat (length (contents d ++
            replicate (Z.to_nat (size - len d)) zero)) = size)
    by (rewrite length_app, length_replicate; lia).
  split_and!; try done.
  - constructor; unfold Cap, cap_of in *; simpl; rewrite ?Hcap; try lia.
  - unfold contents at 1; simpl. apply ring_prefix. lia.
Qed.

(** *** Growth *)

(** With [need] at most [2^62] no doubling overflows, and the loop
    stops at the first doubling of [size] that reaches [need]. *)
Lemma grow_loop_doubles fuel size need :
  0 < size → need <= 2 ^ 62 → need <= size * 2 ^ Z.of_nat fuel →
  ∃ k : nat,
    grow_loop (S fuel) size need = Some (size * 2 ^ Z.of_nat k) ∧
    need <= size * 2 ^ Z.of_nat k ∧
    (k = 0%nat ∨ size * 2 ^ Z.of_nat k < 2 * need).
Proof.
  revert size. induction fuel as [|fuel IH]; intros size Hpos Hneed Hfuel.
  - exists 0%nat. change (2 ^ Z.of_nat 0) with 1 in *.
    replace (size * 1) with size in * by lia. cbn [grow_loop].
    rewrite (proj2 (Z.ltb_ge _ _)) by lia. split_and!; [done|lia|by left].
  - cbn [grow_loop]. destruct (Z.ltb_spec size need) as [Hlt|Hge].
    + unfold GoInt.mul.
      rewrite wrap_small
        by (unfold GoInt.in_range, GoInt.min_int, GoInt.max_int; lia).
      destruct (IH (size * 2)) as (k & Hk & Hle & Hmin); [lia|done|..].
      { rewrite Nat2Z.inj_succ, Z.pow_succ_r in Hfuel by lia. lia. }
      exists (S k). rewrite Nat2Z.inj_succ, Z.pow_succ_r by lia.
      replace (size * (2 * 2 ^ Z.of_nat k)) with (size * 2 * 2 ^ Z.of_nat k) by lia.
      split_and!; [done..|right].
      destruct Hmin as [->|Hmin]; [|done].
      change (2 ^ Z.of_nat 0) with 1. lia.
    + exists 0%nat. change (2 ^ Z.of_nat 0) with 1.
      replace (size * 1) with size by lia. split_and!; [done|lia|by left].
Qed.

Lemma grow_loop_spec size need :
  0 < size → need <= 2 ^ 62 →
  ∃ k : nat,
    grow_loop grow_fuel size need = Some (size * 2 ^ Z.of_nat k) ∧
    need <= size * 2 ^ Z.of_nat k ∧
    (k = 0%nat ∨ size * 2 ^ Z.of_nat k < 2 * need).
Proof.
  intros Hpos Hneed. apply grow_loop_doubles; [done..|].
  change (Z.of_nat 64) with 64.
  assert (2 ^ 62 <= 1 * 2 ^ 64) by done. nia.
Qed.

(** The fixed fuel loses nothing: after 64 doublings a 64-bit size
    is 0 and stays 0, so a loop that has not left after 65 tests never
    leaves, and more fuel gives the same answer. *)
Lemma grow_loop_split (j f : nat) size need :
  grow_loop (j + f) size need =
    match grow_loop j size need with
    | Some r => Some r
    | None => grow_loop f (Nat.iter j (λ s, GoInt.mul s 2) size) need
    end.
Proof.
  revert size. induction j as [|j IH]; intros size; [done|].
  cbn [Nat.add grow_loop]. destruct (size <? need); [|done].
  rewrite IH. destruct (grow_loop j _ need); [done|].
  by rewrite Nat.iter_succ_r.
Qed.

Lemma doublings_wrap (j : nat) size :
  Nat.iter (S j) (λ s, GoInt.mul s 2) size
  = GoInt.wrap (size * 2 ^ Z.of_nat (S j)).
Proof.
  induction j as [|j IH].
  - cbn [Nat.iter]. unfold GoInt.mul. f_equal.
  - rewrite Nat.iter_succ, IH. unfold GoInt.mul.
    rewrite wrap_double. f_equal.
    rewrite (Nat2Z.inj_succ (S j)), Z.pow_succ_r by lia. lia.
Qed.

Lemma doublings_64 size : Nat.iter 64 (λ s, GoInt.mul s 2) size = 0.
Proof.
  rewrite doublings_wrap. unfold GoInt.wrap.
  change (Z.of_nat 64) with 64.
  replace (size * 2 ^ 64 + 2 ^ 63) with (2 ^ 63 + size * 2 ^ 64) by lia.
  rewrite Z.mod_add by lia. reflexivity.
Qed.

Lemma grow_loop_stuck (f : nat) need :
  0 < need → grow_loop f 0 need = None.
Proof.
  intros Hneed. induction f as [|f IH]; [done|].
  cbn [grow_loop]. rewrite (proj2 (Z.ltb_lt 0 need)) by done.
  exact IH.
Qed.

Lemma grow_fuel_enough (n : nat) size need :
  (grow_fuel ≤ n)%nat →
  grow_loop n size need = grow_loop grow_fuel size need.
Proof.
  intros Hn. replace n with (64 + (1 + (n - 65)))%nat by (unfold grow_fuel in Hn; lia).
  change grow_fuel with (64 + 1)%nat.
  rewrite !grow_loop_split. destruct (grow_loop 64 size need); [done|].
  rewrite doublings_64. cbn [Nat.add grow_loop].
  destruct (Z.ltb_spec 0 need) as [Hpos|Hle]; [|done].
  change (GoInt.mul 0 2) with 0. by rewrite grow_loop_stuck.
Qed.

Lemma grow_spec d add :
  wf d → 0 <= add → len d + add <= 2 ^ 62 →
  ∃ d', grow zero add d = Some d' ∧ wf d' ∧
        contents d' = contents d ∧ len d' = len d ∧
        len d + add <= Cap d' ∧ Shrink d' = Shrink d ∧
        ((d' = d ∧ len d + add <= Cap d) ∨
         (Cap d < len d + add ∧
          Minsize d' = effective_minsize (Minsize d) ∧
          ∃ k : nat,
            Cap d' = (if Cap d =? 0 then Minsize d' else Cap d)
                     * 2 ^ Z.of_nat k)).
Proof.
  intros Hwf Hadd Hneed. unfold grow, GoInt.add.
  pose proof Hwf as [Hc Hm Hl Hh Ht].
  rewrite wrap_small
    by (unfold GoInt.in_range, GoInt.min_int, GoInt.max_int; lia).
  destruct (Z.ltb_spec (Cap d) (len d + add)) as [Hgrow|Hfits].
  - set (d1 := if Minsize d <=? 0 then with_Minsize DefaultSize d else d).
    assert (Hd1 : wf d1 ∧ contents d1 = contents d ∧ Cap d1 = Cap d ∧
                  len d1 = len d ∧ Shrink d1 = Shrink d ∧
                  Minsize d1 = effective_minsize (Minsize d) ∧
                  0 < Minsize d1).
    { unfold d1, effective_minsize.
      destruct (Z.leb_spec (Minsize d) 0); [|by split_and!; try lia].
      split_and!; done. }
    destruct Hd1 as (Hwf1 & Hcont1 & Hcap1 & Hlen1 & Hsh1 & Hmin1 & Hpos1).
    cbv zeta. rewrite Hlen1, Hcap1.
    rewrite wrap_small
      by (unfold GoInt.in_range, GoInt.min_int, GoInt.max_int; lia).
    set (size := if Cap d =? 0 then Minsize d1 else Cap d).
    assert (Hsize : 0 < size <= GoInt.max_int).
    { unfold size. destruct Hwf1.
      destruct (Z.eqb_spec (Cap d) 0); lia. }
    destruct (grow_loop_spec size (len d + add)) as (k & Hk & Hle & Hminimal);
      [lia|done|].
    rewrite Hk. cbn [mbind option_bind].
    destruct (resize_wf d1 (size * 2 ^ Z.of_nat k)) as
      (d' & Hres & Hwf' & Hcont' & Hcap' & Hhead' & Hlen' & Hmin' & Hsh');
      [done| |].
    { rewrite Hlen1. split; [lia|].
      destruct Hminimal as [->|Hlt];
        [change (2 ^ Z.of_nat 0) with 1|]; unfold GoInt.max_int in *; lia. }
    exists d'. split_and!; try congruence; try lia.
    right. split_and!; [done|congruence|].
    exists k. rewrite Hcap'. unfold size. by rewrite Hmin'.
  - exists d. split_and!; try done. by left.
Qed.

(** *** Cursor arithmetic *)

Lemma tail_of_range h n c :
  0 <= h < c → 0 <= n <= c → 0 <= tail_of h n c < c.
Proof. intros Hh Hn. unfold tail_of. cbv zeta. zcases; lia. Qed.

Lemma tail_of_succ h n c :
  0 <= h < c → 0 <= n < c →
  (if tail_of h n c + 1 =? c then 0 else tail_of h n c + 1)
  = tail_of h (n + 1) c.
Proof. intros Hh Hn. unfold tail_of. cbv zeta. zcases; lia. Qed.

Lemma tail_of_pred h n c :
  0 <= h < c → 0 < n <= c →
  (if tail_of h n c =? 0 then c else tail_of h n c) - 1
  = tail_of h (n - 1) c.
Proof. intros Hh Hn. unfold tail_of. cbv zeta. zcases; lia. Qed.

Lemma tail_of_phys (h n c : nat) :
  (h < c)%nat → (n < c)%nat →
  Z.to_nat (tail_of (Z.of_nat h) (Z.of_nat n + 1) (Z.of_nat c)) = phys h n c.
Proof. intros Hh Hn. unfold tail_of, phys. cbv zeta. zcases; lia. Qed.

Lemma tail_of_before h n c :
  0 <= h < c → 0 <= n < c →
  tail_of ((if h =? 0 then c else h) - 1) (n + 1) c = tail_of h n c.
Proof.
  intros Hh Hn. unfold tail_of. cbv zeta.
  destruct (Z.eqb_spec h 0); zcases; lia.
Qed.

Lemma tail_of_after h n c :
  0 <= h < c → 0 < n <= c →
  tail_of (if h + 1 =? c then 0 else h + 1) (n - 1) c = tail_of h n c.
Proof.
  intros Hh Hn. unfold tail_of. cbv zeta.
  destruct (Z.eqb_spec (h + 1) c); zcases; lia.
Qed.

Lemma before_of_nat (h c : nat) :
  (h < c)%nat →
  Z.to_nat ((if Z.of_nat h =? 0 then Z.of_nat c else Z.of_nat h) - 1)
  = before h c.
Proof. intros Hh. unfold before. zcases; lia. Qed.

Lemma after_of_nat (h c : nat) :
  (h < c)%nat →
  Z.to_nat (if Z.of_nat h + 1 =? Z.of_nat c then 0 else Z.of_nat h + 1)
  = after h c.
Proof. intros Hh. unfold after. zcases; lia. Qed.

(** *** Insertion *)

Lemma push_spec d v :
  wf d → len d < Cap d →
  ∃ d', push v d = Some d' ∧ wf d' ∧
        contents d' = contents d ++ [v] ∧
        len d' = len d + 1 ∧ Cap d' = Cap d ∧
        Minsize d' = Minsize d ∧ Shrink d' = Shrink d.
Proof.
  intros [Hc Hm Hl Hh Ht] Hroom.
  destruct d as [ms sh hd tl n l].
  unfold Cap, cap_of, contents in *; simpl in *.
  specialize (Hh ltac:(lia)); specialize (Ht ltac:(lia)).
  pose proof (tail_of_range hd n _ Hh ltac:(lia)) as Htl.
  pose proof (tail_of_range hd (n + 1) _ Hh ltac:(lia)) as Htl'.
  pose proof (tail_of_succ hd n _ Hh ltac:(lia)) as Hsucc.
  rewrite <- Ht in Htl, Hsucc.
  unfold push, store, GoInt.add, with_len, with_tail, with_dat, Cap, cap_of.
  simpl. rewrite !wrap_small by int_range.
  assert (Hrest :
            (if tl + 1 =? Z.of_nat (length l)
             then mk ms sh hd 0 (n + 1) l
             else mk ms sh hd (tl + 1) (n + 1) l)
            = mk ms sh hd (tail_of hd (n + 1) (Z.of_nat (length l))) (n + 1) l).
  { rewrite <- Hsucc. by destruct (tl + 1 =? Z.of_nat (length l)). }
  rewrite Hrest. simpl.
  rewrite (proj2 (Z.leb_le 0 _)), (proj2 (Z.ltb_lt _ _)) by lia. simpl.
  eexists. split; [done|]. split_and!; simpl; try done.
  - constructor; unfold Cap, cap_of; simpl; rewrite ?length_insert; try lia.
  - assert (∃ h : nat, hd = Z.of_nat h) as [h ->] by (exists (Z.to_nat hd); lia).
    assert (∃ k : nat, n = Z.of_nat k) as [k ->] by (exists (Z.to_nat n); lia).
    rewrite tail_of_phys by lia.
    replace (Z.to_nat (Z.of_nat k + 1)) with (S k) by lia.
    rewrite !Nat2Z.id. apply ring_snoc; lia.
  - unfold Cap, cap_of; simpl. by rewrite length_insert.
Qed.

Lemma unshift_spec d v :
  wf d → len d < Cap d →
  ∃ d', unshift v d = Some d' ∧ wf d' ∧
        contents d' = v :: contents d ∧
        len d' = len d + 1 ∧ Cap d' = Cap d ∧
        Minsize d' = Minsize d ∧ Shrink d' = Shrink d.
Proof.
  intros [Hc Hm Hl Hh Ht] Hroom.
  destruct d as [ms sh hd tl n l].
  unfold Cap, cap_of, contents in *; simpl in *.
  specialize (Hh ltac:(lia)); specialize (Ht ltac:(lia)).
  pose proof (tail_of_before hd n _ Hh ltac:(lia)) as Hbefore.
  unfold unshift, store, GoInt.add, GoInt.sub, with_len, with_head,
    with_dat, Cap, cap_of.
  simpl. rewrite wrap_small by int_range.
  assert (Hrest :
            (if hd =? 0
             then mk ms sh (Z.of_nat (length l)) tl (n + 1) l
             else mk ms sh hd tl (n + 1) l)
            = mk ms sh (if hd =? 0 then Z.of_nat (length l) else hd)
                tl (n + 1) l).
  { by destruct (hd =? 0). }
  rewrite Hrest. simpl.
  set (hd' := (if hd =? 0 then Z.of_nat (length l) else hd) - 1) in *.
  assert (Hhd' : 0 <= hd' < Z.of_nat (length l))
    by (unfold hd'; destruct (Z.eqb_spec hd 0); lia).
  rewrite wrap_small by int_range.
  rewrite (proj2 (Z.leb_le 0 _)), (proj2 (Z.ltb_lt _ _)) by lia. simpl.
  eexists. split; [done|]. split_and!; simpl; try done.
  - constructor; unfold Cap, cap_of; simpl; rewrite ?length_insert; try lia.
  - assert (∃ h : nat, hd = Z.of_nat h) as [h ->] by (exists (Z.to_nat hd); lia).
    assert (∃ k : nat, n = Z.of_nat k) as [k ->] by (exists (Z.to_nat n); lia).
    unfold hd'. rewrite before_of_nat by lia.
    replace (Z.to_nat (Z.of_nat k + 1)) with (S k) by lia.
    rewrite !Nat2Z.id. apply ring_cons; lia.
  - unfold Cap, cap_of; simpl. by rewrite length_insert.
Qed.

(** Where [push] writes: the slot after the tail, circularly. *)
Lemma push_writes d v :
  wf d → len d < Cap d →
  push v d =
    Some (mk (Minsize d) (Shrink d) (head d)
            (tail_of (head d) (len d + 1) (Cap d)) (len d + 1)
            (<[Z.to_nat (tail_of (head d) (len d + 1) (Cap d)) := v]>
               (dat d))).
Proof.
  intros [Hc Hm Hl Hh Ht] Hroom.
  destruct d as [ms sh hd tl n l].
  unfold Cap, cap_of in *; simpl in *.
  specialize (Hh ltac:(lia)); specialize (Ht ltac:(lia)).
  pose proof (tail_of_range hd n _ Hh ltac:(lia)) as Htl.
  pose proof (tail_of_range hd (n + 1) _ Hh ltac:(lia)) as Htl'.
  pose proof (tail_of_succ hd n _ Hh ltac:(lia)) as Hsucc.
  rewrite <- Ht in Htl, Hsucc.
  unfold push, store, GoInt.add, with_len, with_tail, with_dat, Cap, cap_of.
  simpl. rewrite !wrap_small by int_range.
  assert (Hrest :
            (if tl + 1 =? Z.of_nat (length l)
             then mk ms sh hd 0 (n + 1) l
             else mk ms sh hd (tl + 1) (n + 1) l)
            = mk ms sh hd (tail_of hd (n + 1) (Z.of_nat (length l))) (n + 1) l).
  { rewrite <- Hsucc. by destruct (tl + 1 =? Z.of_nat (length l)). }
  rewrite Hrest. simpl.
  by rewrite (proj2 (Z.leb_le 0 _)), (proj2 (Z.ltb_lt _ _)) by lia.
Qed.

(** Where [unshift] writes: the slot before the head, circularly. *)
Lemma unshift_writes d v :
  wf d → len d < Cap d →
  unshift v d =
    Some (mk (Minsize d) (Shrink d)
            ((if head d =? 0 then Cap d else head d) - 1)
            (tail d) (len d + 1)
            (<[Z.to_nat ((if head d =? 0 then Cap d else head d) - 1) := v]>
               (dat d))).
Proof.
  intros [Hc Hm Hl Hh Ht] Hroom.
  destruct d as [ms sh hd tl n l].
  unfold Cap, cap_of in *; simpl in *.
  specialize (Hh ltac:(lia)).
  unfold unshift, store, GoInt.add, GoInt.sub, with_len, with_head,
    with_dat, Cap, cap_of.
  simpl. rewrite wrap_small by int_range.
  assert (Hrest :
            (if hd =? 0
             then mk ms sh (Z.of_nat (length l)) tl (n + 1) l
             else mk ms sh hd tl (n + 1) l)
            = mk ms sh (if hd =? 0 then Z.of_nat (length l) else hd)
                tl (n + 1) l).
  { by destruct (hd =? 0). }
  rewrite Hrest. simpl.
  set (hd' := (if hd =? 0 then Z.of_nat (length l) else hd) - 1) in *.
  assert (Hhd' : 0 <= hd' < Z.of_nat (length l))
    by (unfold hd'; destruct (Z.eqb_spec hd 0); lia).
  rewrite wrap_small by int_range.
  by rewrite (proj2 (Z.leb_le 0 _)), (proj2 (Z.ltb_lt _ _)) by lia.
Qed.

(** Values in storage of their own are read as they were passed. *)
Lemma fetch_values (a : list T) (vs : list T) :
  mapM (fetch a) (Apart <$> vs) = Some vs.
Proof.
  induction vs as [|x vs IH]; [done|].
  cbn [fmap list_fmap mapM fetch]. cbn [fmap list_fmap] in IH.
  rewrite IH. done.
Qed.

Lemma detach_values (a : list T) (vs : list T) :
  detach a (Apart <$> vs) = Some (Apart <$> vs).
Proof. unfold detach. by rewrite fetch_values. Qed.

Lemma for_range_values (f : T → Deque.t T → option (Deque.t T)) x vs d :
  for_range f (Apart <$> (x :: vs)) d
  = (d' ← f x d; for_range f (Apart <$> vs) d').
Proof. done. Qed.

Lemma Push_values (vs : list T) d :
  Push zero vs d
  = (d' ← grow zero (Z.of_nat (length vs)) d;
     for_range push (Apart <$> vs) d').
Proof.
  unfold Push, values. cbn [places]. cbv zeta. rewrite length_fmap.
  destruct (grow zero _ d) as [d'|]; [|done]. cbn [mbind option_bind].
  destruct (reallocates _ d); [|done].
  by rewrite detach_values.
Qed.

Lemma Unshift_values (vs : list T) d :
  Unshift zero vs d
  = (d' ← grow zero (Z.of_nat (length vs)) d;
     for_range unshift (Apart <$> vs) d').
Proof.
  unfold Unshift, values. cbn [places]. cbv zeta. rewrite length_fmap.
  destruct (grow zero _ d) as [d'|]; [|done]. cbn [mbind option_bind].
  destruct (reallocates _ d); [|done].
  by rewrite detach_values.
Qed.

(** The loops of [Push] and [Unshift], once [grow] has made room. *)
Lemma for_range_push vs d :
  wf d → len d + Z.of_nat (length vs) <= Cap d →
  ∃ d', for_range push (Apart <$> vs) d = Some d' ∧ wf d' ∧
        contents d' = contents d ++ vs ∧
        len d' = len d + Z.of_nat (length vs) ∧ Cap d' = Cap d ∧
        Minsize d' = Minsize d ∧ Shrink d' = Shrink d.
Proof.
  revert d. induction vs as [|v vs IH]; intros d Hwf Hroom.
  - exists d. simpl. rewrite app_nil_r. split_and!; try done. lia.
  - simpl length in Hroom.
    destruct (push_spec d v Hwf ltac:(lia))
      as (d1 & Hpush & Hwf1 & Hcont1 & Hlen1 & Hcap1 & Hmin1 & Hsh1).
    destruct (IH d1 Hwf1 ltac:(lia))
      as (d' & Hloop & Hwf' & Hcont' & Hlen' & Hcap' & Hmin' & Hsh').
    exists d'. rewrite for_range_values, Hpush. cbn [mbind option_bind].
    split_and!; try done; try congruence.
    + by rewrite Hcont', Hcont1, <- app_assoc.
    + simpl length. lia.
Qed.

Lemma for_range_unshift vs d :
  wf d → len d + Z.of_nat (length vs) <= Cap d →
  ∃ d', for_range unshift (Apart <$> vs) d = Some d' ∧ wf d' ∧
        contents d' = reverse vs ++ contents d ∧
        len d' = len d + Z.of_nat (length vs) ∧ Cap d' = Cap d ∧
        Minsize d' = Minsize d ∧ Shrink d' = Shrink d.
Proof.
  revert d. induction vs as [|v vs IH]; intros d Hwf Hroom.
  - exists d. simpl. split_and!; try done. lia.
  - simpl length in Hroom.
    destruct (unshift_spec d v Hwf ltac:(lia))
      as (d1 & Hpush & Hwf1 & Hcont1 & Hlen1 & Hcap1 & Hmin1 & Hsh1).
    destruct (IH d1 Hwf1 ltac:(lia))
      as (d' & Hloop & Hwf' & Hcont' & Hlen' & Hcap' & Hmin' & Hsh').
    exists d'. rewrite for_range_values, Hpush. cbn [mbind option_bind].
    split_and!; try done; try congruence.
    + by rewrite Hcont', Hcont1, reverse_cons, <- app_assoc.
    + simpl length. lia.
Qed.

Lemma Push_spec d vs :
  wf d → len d + Z.of_nat (length vs) <= 2 ^ 62 →
  ∃ d', Push zero vs d = Some d' ∧ wf d' ∧
        contents d' = contents d ++ vs ∧
        len d' = len d + Z.of_nat (length vs) ∧
        Shrink d' = Shrink d ∧
        ((Cap d' = Cap d ∧ Minsize d' = Minsize d ∧
          len d + Z.of_nat (length vs) <= Cap d) ∨
         (Cap d < len d + Z.of_nat (length vs) ∧
          Minsize d' = effective_minsize (Minsize d) ∧
          ∃ k : nat,
            Cap d' = (if Cap d =? 0 then Minsize d' else Cap d)
                     * 2 ^ Z.of_nat k)).
Proof.
  intros Hwf Hneed.
  destruct (grow_spec d (Z.of_nat (length vs)) Hwf ltac:(lia) Hneed)
    as (d1 & Hgrow & Hwf1 & Hcont1 & Hlen1 & Hroom1 & Hsh1 & Hcap1).
  destruct (for_range_push vs d1 Hwf1 ltac:(lia))
    as (d' & Hloop & Hwf' & Hcont' & Hlen' & Hcap' & Hmin' & Hsh').
  exists d'. rewrite Push_values, Hgrow. cbn [mbind option_bind].
  split_and!; try done; try congruence.
  destruct Hcap1 as [[-> Hfit]|(Hlt & Hmin1 & k & Hk)].
  - left. by split_and!.
  - right. split_and!; [done|congruence|].
    exists k. by rewrite Hcap', Hmin'.
Qed.

Lemma Unshift_spec d vs :
  wf d → len d + Z.of_nat (length vs) <= 2 ^ 62 →
  ∃ d', Unshift zero vs d = Some d' ∧ wf d' ∧
        contents d' = reverse vs ++ contents d ∧
        len d' = len d + Z.of_nat (length vs) ∧
        Shrink d' = Shrink d ∧
        ((Cap d' = Cap d ∧ Minsize d' = Minsize d ∧
          len d + Z.of_nat (length vs) <= Cap d) ∨
         (Cap d < len d + Z.of_nat (length vs) ∧
          Minsize d' = effective_minsize (Minsize d) ∧
          ∃ k : nat,
            Cap d' = (if Cap d =? 0 then Minsize d' else Cap d)
                     * 2 ^ Z.of_nat k)).
Proof.
  intros Hwf Hneed.
  destruct (grow_spec d (Z.of_nat (length vs)) Hwf ltac:(lia) Hneed)
    as (d1 & Hgrow & Hwf1 & Hcont1 & Hlen1 & Hroom1 & Hsh1 & Hcap1).
  destruct (for_range_unshift vs d1 Hwf1 ltac:(lia))
    as (d' & Hloop & Hwf' & Hcont' & Hlen' & Hcap' & Hmin' & Hsh').
  exists d'. rewrite Unshift_values, Hgrow. cbn [mbind option_bind].
  split_and!; try done; try congruence.
  destruct Hcap1 as [[-> Hfit]|(Hlt & Hmin1 & k & Hk)].
  - left. by split_and!.
  - right. split_and!; [done|congruence|].
    exists k. by rewrite Hcap', Hmin'.
Qed.

(** [grow] when there is room: nothing happens. *)
Lemma grow_fits d add :
  wf d → 0 <= add → len d + add <= Cap d → grow zero add d = Some d.
Proof.
  intros [Hc Hm Hl Hh Ht] Hadd Hfits. unfold grow, GoInt.add.
  rewrite wrap_small by int_range.
  by rewrite (proj2 (Z.ltb_ge _ _)).
Qed.

(** *** Slices that share the buffer *)

(** [reallocates] is the test of [grow]: where it fails, [grow] returns
    the deque as it is, array included; where it holds, [grow] ends in
    [resize]. *)
Lemma grow_stays d add : reallocates add d = false → grow zero add d = Some d.
Proof. unfold grow, reallocates. by intros ->. Qed.

Lemma grow_moves d add :
  reallocates add d = true →
  grow zero add d
  = (let d := if Minsize d <=? 0 then with_Minsize DefaultSize d else d in
     size ← grow_loop grow_fuel (if Cap d =? 0 then Minsize d else Cap d)
              (GoInt.add (len d) add);
     resize zero size d).
Proof. unfold grow, reallocates. by intros ->. Qed.

Lemma held_values (vs : list T) d : held (values vs) d = Some vs.
Proof. unfold held, values. cbn [places]. apply fetch_values. Qed.

Lemma kept_values d (vs : list T) : forallb (kept d) (Apart <$> vs) = true.
Proof. induction vs as [|x vs IH]; [done|]. exact IH. Qed.

Lemma stable_values (vs : list T) d : stable (values vs) d.
Proof. right. unfold values. cbn [places]. apply kept_values. Qed.

Lemma held_length (v : variadic T) d vs :
  held v d = Some vs → length (places v) = length vs.
Proof. unfold held. intros H. by apply length_mapM in H. Qed.

(** A slot that holds an element is inside the buffer, and neither
    [push] nor [unshift] writes to it. *)
Lemma occupied_push d x d' i :
  wf d → len d < Cap d → push x d = Some d' → occupied d i = true →
  occupied d' i = true ∧ dat d' !! i = dat d !! i.
Proof.
  intros Hwf Hroom Hpush Hocc. pose proof Hwf as [Hc Hm Hl Hh Ht].
  specialize (Hh ltac:(lia)).
  rewrite push_writes in Hpush by done. injection Hpush as <-.
  pose proof (tail_of_range (head d) (len d + 1) _ Hh ltac:(lia)) as Htl.
  assert (Hne : Z.of_nat i ≠ tail_of (head d) (len d + 1) (Cap d)
                ∧ occupied
                    (mk (Minsize d) (Shrink d) (head d)
                       (tail_of (head d) (len d + 1) (Cap d)) (len d + 1)
                       (<[Z.to_nat (tail_of (head d) (len d + 1) (Cap d)) := x]>
                          (dat d))) i = true).
  { revert Hocc. unfold occupied, tail_of, Cap, cap_of in *. cbv zeta.
    cbn [head len dat]. rewrite length_insert.
    intros Hocc. split.
    - revert Hocc. zcases; simpl; intros; try discriminate; lia.
    - revert Hocc. zcases; simpl; intros; try discriminate; try done; lia. }
  destruct Hne as [Hne Hocc']. split; [exact Hocc'|].
  cbn [dat]. apply list_lookup_insert_ne. lia.
Qed.

Lemma occupied_unshift d x d' i :
  wf d → len d < Cap d → unshift x d = Some d' → occupied d i = true →
  occupied d' i = true ∧ dat d' !! i = dat d !! i.
Proof.
  intros Hwf Hroom Hpush Hocc. pose proof Hwf as [Hc Hm Hl Hh Ht].
  specialize (Hh ltac:(lia)).
  rewrite unshift_writes in Hpush by done. injection Hpush as <-.
  set (h' := (if head d =? 0 then Cap d else head d) - 1) in *.
  assert (Hh' : 0 <= h' < Cap d ∧ (head d = 0 → h' = Cap d - 1)
                ∧ (head d ≠ 0 → h' = head d - 1)).
  { unfold h'. destruct (Z.eqb_spec (head d) 0); lia. }
  clearbody h'.
  assert (Hne : Z.of_nat i ≠ h'
                ∧ occupied
                    (mk (Minsize d) (Shrink d) h' (tail d) (len d + 1)
                       (<[Z.to_nat h' := x]> (dat d))) i = true).
  { revert Hocc. unfold occupied, Cap, cap_of in *. cbv zeta.
    cbn [head len dat]. rewrite length_insert.
    intros Hocc. split.
    - revert Hocc. zcases; simpl; intros; try discriminate; lia.
    - revert Hocc. zcases; simpl; intros; try discriminate; try done; lia. }
  destruct Hne as [Hne Hocc']. split; [exact Hocc'|].
  cbn [dat]. apply list_lookup_insert_ne. lia.
Qed.

Lemma kept_step d d' :
  (∀ i, occupied d i = true →
        occupied d' i = true ∧ dat d' !! i = dat d !! i) →
  ∀ p y, fetch (dat d) p = Some y ∧ kept d p = true →
         fetch (dat d') p = Some y ∧ kept d' p = true.
Proof.
  intros Hocc [y'|i] y [Hfetch Hkept]; [done|].
  cbn [fetch kept] in *. destruct (Hocc i Hkept) as [Hocc' Hsame].
  by rewrite Hsame.
Qed.

(** A loop over kept elements reads the values the slice held when the
    loop started. *)
Lemma for_range_push_kept (v : list (place T)) vs d :
  wf d → len d + Z.of_nat (length v) <= Cap d →
  Forall2 (λ p y, fetch (dat d) p = Some y ∧ kept d p = true) v vs →
  for_range push v d = for_range push (Apart <$> vs) d.
Proof.
  intros Hwf Hroom Hv. revert d Hwf Hroom Hv.
  induction v as [|p v IH] in vs |- *; intros d Hwf Hroom Hv.
  - by apply Forall2_nil_inv_l in Hv as ->.
  - apply Forall2_cons_inv_l in Hv as (y & vs' & [Hfetch Hkept] & Hv & ->).
    cbn [length] in Hroom.
    destruct (push_spec d y Hwf ltac:(lia))
      as (d1 & Hpush & Hwf1 & _ & Hlen1 & Hcap1 & _).
    rewrite for_range_values. cbn [for_range].
    rewrite Hfetch. cbn [mbind option_bind]. rewrite Hpush.
    cbn [mbind option_bind]. apply IH; [done|lia|].
    eapply Forall2_impl; [exact Hv|].
    apply (kept_step d d1). intros i Hi.
    apply (occupied_push d y d1 i); [done|lia|done|done].
Qed.

Lemma for_range_unshift_kept (v : list (place T)) vs d :
  wf d → len d + Z.of_nat (length v) <= Cap d →
  Forall2 (λ p y, fetch (dat d) p = Some y ∧ kept d p = true) v vs →
  for_range unshift v d = for_range unshift (Apart <$> vs) d.
Proof.
  intros Hwf Hroom Hv. revert d Hwf Hroom Hv.
  induction v as [|p v IH] in vs |- *; intros d Hwf Hroom Hv.
  - by apply Forall2_nil_inv_l in Hv as ->.
  - apply Forall2_cons_inv_l in Hv as (y & vs' & [Hfetch Hkept] & Hv & ->).
    cbn [length] in Hroom.
    destruct (unshift_spec d y Hwf ltac:(lia))
      as (d1 & Hpush & Hwf1 & _ & Hlen1 & Hcap1 & _).
    rewrite for_range_values. cbn [for_range].
    rewrite Hfetch. cbn [mbind option_bind]. rewrite Hpush.
    cbn [mbind option_bind]. apply IH; [done|lia|].
    eapply Forall2_impl; [exact Hv|].
    apply (kept_step d d1). intros i Hi.
    apply (occupied_unshift d y d1 i); [done|lia|done|done].
Qed.

Lemma held_kept (v : list (place T)) vs d :
  mapM (fetch (dat d)) v = Some vs → forallb (kept d) v = true →
  Forall2 (λ p y, fetch (dat d) p = Some y ∧ kept d p = true) v vs.
Proof.
  intros Hheld Hkept. apply mapM_Some in Hheld.
  induction Hheld as [|p y v vs Hfetch _ IH]; [constructor|].
  cbn [forallb] in Hkept. apply andb_prop in Hkept as [Hp Hv].
  constructor; [done|by apply IH].
Qed.

(** A call with a stable slice is the call with the values the slice
    holds. *)
Lemma insert_stable (f : T → Deque.t T → option (Deque.t T))
    (v : variadic T) vs d :
  (∀ d0, wf d0 → len d0 + Z.of_nat (length (places v)) <= Cap d0 →
         Forall2 (λ p y, fetch (dat d0) p = Some y ∧ kept d0 p = true)
           (places v) vs →
         for_range f (places v) d0 = for_range f (Apart <$> vs) d0) →
  wf d → len d + Z.of_nat (length vs) <= GoInt.max_int →
  held v d = Some vs → stable v d →
  (d' ← grow zero (Z.of_nat (length (places v))) d;
   ps ← (if reallocates (Z.of_nat (length (places v))) d
         then detach (dat d) (places v) else Some (places v));
   for_range f ps d')
  = (d' ← grow zero (Z.of_nat (length vs)) d;
     for_range f (Apart <$> vs) d').
Proof.
  intros Hloop Hwf Hbound Hheld Hstable.
  pose proof (held_length v d vs Hheld) as Hlen. rewrite Hlen in *.
  destruct (reallocates (Z.of_nat (length vs)) d) eqn:Hmoved.
  - unfold detach. unfold held in Hheld. rewrite Hheld.
    destruct (grow zero _ d); done.
  - destruct Hstable as [Hstable|Hkept]; [congruence|].
    pose proof Hwf as [Hc Hm Hl Hh Ht].
    unfold reallocates, GoInt.add in Hmoved.
    rewrite wrap_small in Hmoved by int_range.
    apply Z.ltb_ge in Hmoved.
    rewrite grow_fits by (done || lia). cbn [mbind option_bind].
    apply Hloop; [done|lia|]. by apply held_kept.
Qed.

Lemma Push_stable (v : variadic T) vs d :
  wf d → len d + Z.of_nat (length vs) <= GoInt.max_int →
  held v d = Some vs → stable v d →
  Push zero v d = Push zero vs d.
Proof.
  intros Hwf Hbound Hheld Hstable. rewrite Push_values.
  unfold Push. cbv zeta. apply insert_stable; try done.
  intros d0 Hwf0 Hroom Hv. by apply for_range_push_kept.
Qed.

Lemma Unshift_stable (v : variadic T) vs d :
  wf d → len d + Z.of_nat (length vs) <= GoInt.max_int →
  held v d = Some vs → stable v d →
  Unshift zero v d = Unshift zero vs d.
Proof.
  intros Hwf Hbound Hheld Hstable. rewrite Unshift_values.
  unfold Unshift. cbv zeta. apply insert_stable; try done.
  intros d0 Hwf0 Hroom Hv. by apply for_range_unshift_kept.
Qed.

(** *** Removal *)

Lemma shrink_spec d :
  wf d →
  ∃ d', shrink zero d = Some d' ∧ wf d' ∧
        contents d' = contents d ∧ len d' = len d ∧
        Minsize d' = Minsize d ∧ Shrink d' = Shrink d ∧
        (d' = d ∨
         (Shrink d ≠ ShrinkNever ∧ len d <= Minsize d ∧
          Cap d ≠ Minsize d ∧ Cap d' = Minsize d ∧ head d' = 0)).
Proof.
  intros Hwf. unfold shrink.
  destruct (Z.eqb_spec (Shrink d) ShrinkNever) as [Hnever|Hpolicy].
  { exists d. split_and!; try done. by left. }
  destruct (Z.ltb_spec (Minsize d) (len d)) as [Hbig|Hsmall]; simpl.
  { exists d. split_and!; try done. by left. }
  destruct (Z.eqb_spec (Cap d) (Minsize d)) as [Hsame|Hdiff]; simpl.
  { exists d. split_and!; try done. by left. }
  destruct ((Shrink d =? ShrinkAt20Pct) && (Cap d <? GoInt.mul (len d) 5)).
  { exists d. split_and!; try done. by left. }
  destruct ((Shrink d =? ShrinkIfEmpty) && (0 <? len d)).
  { exists d. split_and!; try done. by left. }
  destruct (resize_wf d (Minsize d) Hwf)
    as (d' & Hres & Hwf' & Hcont' & Hcap' & Hhead' & Hlen' & Hmin' & Hsh').
  { destruct Hwf. lia. }
  exists d'. split_and!; try done. right. by split_and!.
Qed.

(** [Pop] up to its call of [shrink]: the value read at the tail and
    the state handed to [shrink]. *)
Lemma Pop_unfold d :
  wf d → 0 < len d →
  ∃ v, dat d !! Z.to_nat (tail d) = Some v ∧
       contents d =
         contents (mk (Minsize d) (Shrink d) (head d)
                     (tail_of (head d) (len d - 1) (Cap d))
                     (len d - 1) (dat d)) ++ [v] ∧
       wf (mk (Minsize d) (Shrink d) (head d)
             (tail_of (head d) (len d - 1) (Cap d)) (len d - 1) (dat d)) ∧
       Pop zero d =
         d' ← shrink zero
                (mk (Minsize d) (Shrink d) (head d)
                   (tail_of (head d) (len d - 1) (Cap d))
                   (len d - 1) (dat d));
         Some (d', (v, true)).
Proof.
  intros [Hc Hm Hl Hh Ht] Hpos.
  destruct d as [ms sh hd tl n l].
  unfold Cap, cap_of, contents in *; simpl in *.
  specialize (Hh ltac:(lia)); specialize (Ht ltac:(lia)).
  pose proof (tail_of_range hd n _ Hh ltac:(lia)) as Htl.
  pose proof (tail_of_pred hd n _ Hh ltac:(lia)) as Hpred.
  rewrite <- Ht in Htl, Hpred.
  assert (Hlt : (Z.to_nat tl < length l)%nat) by lia.
  destruct (lookup_lt_is_Some_2 l _ Hlt) as [v Hv].
  exists v. split; [done|]. split_and!.
  - assert (∃ h : nat, hd = Z.of_nat h) as [h ->] by (exists (Z.to_nat hd); lia).
    assert (∃ k : nat, n = Z.of_nat (S k)) as [k ->]
      by (exists (Z.to_nat (n - 1)); lia).
    replace (Z.of_nat (S k) - 1) with (Z.of_nat k) by lia.
    rewrite !Nat2Z.id. apply ring_unsnoc; [lia..|].
    rewrite <- Hv. f_equal. rewrite Ht.
    replace (Z.of_nat (S k)) with (Z.of_nat k + 1) by lia.
    symmetry. apply tail_of_phys; lia.
  - constructor; unfold Cap, cap_of; simpl; try lia.
  - unfold Pop, index, GoInt.sub, with_len, with_tail, Cap, cap_of.
    simpl. rewrite (proj2 (Z.ltb_lt 0 n)) by lia.
    rewrite (proj2 (Z.ltb_ge tl 0)) by lia. rewrite Hv.
    cbn [mbind option_bind].
    rewrite (wrap_small (n - 1)) by int_range.
    assert (Hrest :
              (if tl =? 0
               then mk ms sh hd (Z.of_nat (length l)) (n - 1) l
               else mk ms sh hd tl (n - 1) l)
              = mk ms sh hd (if tl =? 0 then Z.of_nat (length l) else tl)
                  (n - 1) l).
    { by destruct (tl =? 0). }
    rewrite Hrest. simpl.
    rewrite wrap_small by (destruct (Z.eqb_spec tl 0); int_range).
    by rewrite Hpred.
Qed.

Lemma Pop_spec d :
  wf d → 0 < len d →
  ∃ d' v, Pop zero d = Some (d', (v, true)) ∧ wf d' ∧
          contents d = contents d' ++ [v] ∧
          len d' = len d - 1 ∧
          Minsize d' = Minsize d ∧ Shrink d' = Shrink d ∧
          (Cap d' = Cap d ∨
           (Shrink d ≠ ShrinkNever ∧ len d - 1 <= Minsize d ∧
            Cap d ≠ Minsize d ∧ Cap d' = Minsize d)).
Proof.
  intros Hwf Hpos.
  destruct (Pop_unfold d Hwf Hpos) as (v & _ & Hcont & Hwf1 & HPop).
  destruct (shrink_spec _ Hwf1)
    as (d' & Hshrink & Hwf' & Hcont' & Hlen' & Hmin' & Hsh' & Hcap').
  exists d', v. rewrite HPop, Hshrink. cbn [mbind option_bind].
  split_and!; try done.
  - by rewrite Hcont, Hcont'.
  - destruct Hcap' as [->|(? & ? & ? & ? & ?)]; [by left|right].
    by split_and!.
Qed.

(** [Shift] up to its call of [shrink]. *)
Lemma Shift_unfold d :
  wf d → 0 < len d →
  ∃ v, dat d !! Z.to_nat (head d) = Some v ∧
       contents d =
         v :: contents (mk (Minsize d) (Shrink d)
                          (if head d + 1 =? Cap d then 0 else head d + 1)
                          (tail d) (len d - 1) (dat d)) ∧
       wf (mk (Minsize d) (Shrink d)
             (if head d + 1 =? Cap d then 0 else head d + 1)
             (tail d) (len d - 1) (dat d)) ∧
       Shift zero d =
         d' ← shrink zero
                (mk (Minsize d) (Shrink d)
                   (if head d + 1 =? Cap d then 0 else head d + 1)
                   (tail d) (len d - 1) (dat d));
         Some (d', (v, true)).
Proof.
  intros [Hc Hm Hl Hh Ht] Hpos.
  destruct d as [ms sh hd tl n l].
  unfold Cap, cap_of, contents in *; simpl in *.
  specialize (Hh ltac:(lia)); specialize (Ht ltac:(lia)).
  pose proof (tail_of_after hd n _ Hh ltac:(lia)) as Hafter.
  assert (Hlt : (Z.to_nat hd < length l)%nat) by lia.
  destruct (lookup_lt_is_Some_2 l _ Hlt) as [v Hv].
  exists v. split; [done|]. split_and!.
  - assert (∃ h : nat, hd = Z.of_nat h) as [h ->] by (exists (Z.to_nat hd); lia).
    assert (∃ k : nat, n = Z.of_nat (S k)) as [k ->]
      by (exists (Z.to_nat (n - 1)); lia).
    replace (Z.of_nat (S k) - 1) with (Z.of_nat k) by lia.
    rewrite after_of_nat by lia.
    rewrite !Nat2Z.id in *. apply ring_uncons; [lia..|done].
  - constructor; unfold Cap, cap_of; simpl; try lia.
    intros _. destruct (Z.eqb_spec (hd + 1) (Z.of_nat (length l))); lia.
  - unfold Shift, index, GoInt.sub, GoInt.add, with_len, with_head, Cap, cap_of.
    simpl. rewrite (proj2 (Z.ltb_lt 0 n)) by lia.
    rewrite (proj2 (Z.ltb_ge hd 0)) by lia. rewrite Hv.
    cbn [mbind option_bind].
    rewrite !wrap_small by int_range.
    assert (Hrest :
              (if hd + 1 =? Z.of_nat (length l)
               then mk ms sh 0 tl (n - 1) l
               else mk ms sh (hd + 1) tl (n - 1) l)
              = mk ms sh (if hd + 1 =? Z.of_nat (length l) then 0 else hd + 1)
                  tl (n - 1) l).
    { by destruct (hd + 1 =? Z.of_nat (length l)). }
    by rewrite Hrest.
Qed.

Lemma Shift_spec d :
  wf d → 0 < len d →
  ∃ d' v, Shift zero d = Some (d', (v, true)) ∧ wf d' ∧
          contents d = v :: contents d' ∧
          len d' = len d - 1 ∧
          Minsize d' = Minsize d ∧ Shrink d' = Shrink d ∧
          (Cap d' = Cap d ∨
           (Shrink d ≠ ShrinkNever ∧ len d - 1 <= Minsize d ∧
            Cap d ≠ Minsize d ∧ Cap d' = Minsize d)).
Proof.
  intros Hwf Hpos.
  destruct (Shift_unfold d Hwf Hpos) as (v & _ & Hcont & Hwf1 & HShift).
  destruct (shrink_spec _ Hwf1)
    as (d' & Hshrink & Hwf' & Hcont' & Hlen' & Hmin' & Hsh' & Hcap').
  exists d', v. rewrite HShift, Hshrink. cbn [mbind option_bind].
  split_and!; try done.
  - by rewrite Hcont, Hcont'.
  - destruct Hcap' as [->|(? & ? & ? & ? & ?)]; [by left|right].
    by split_and!.
Qed.

Lemma Pop_empty d : len d <= 0 → Pop zero d = Some (d, (zero, false)).
Proof. intros H. unfold Pop. by rewrite (proj2 (Z.ltb_ge 0 _)). Qed.

Lemma Shift_empty d : len d <= 0 → Shift zero d = Some (d, (zero, false)).
Proof. intros H. unfold Shift. by rewrite (proj2 (Z.ltb_ge 0 _)). Qed.

(** Draining from the head returns the content in order. *)
Lemma calls_Shift d (n : nat) :
  wf d → Z.of_nat n <= len d →
  ∃ d', calls (Shift zero) n d
          = Some (d', (λ v, (v, true)) <$> take n (contents d)) ∧
        wf d' ∧ contents d' = drop n (contents d) ∧
        len d' = len d - Z.of_nat n ∧
        Minsize d' = Minsize d ∧ Shrink d' = Shrink d.
Proof.
  revert d. induction n as [|n IH]; intros d Hwf Hn.
  - exists d. simpl. split_and!; try done. lia.
  - destruct (Shift_spec d Hwf ltac:(lia))
      as (d1 & v & HShift & Hwf1 & Hcont1 & Hlen1 & Hmin1 & Hsh1 & _).
    destruct (IH d1 Hwf1 ltac:(lia))
      as (d' & Hcalls & Hwf' & Hcont' & Hlen' & Hmin' & Hsh').
    exists d'. cbn [calls]. rewrite HShift. cbn [mbind option_bind].
    rewrite Hcalls. cbn [mbind option_bind].
    rewrite Hcont1. simpl. split_and!; try done; try congruence. lia.
Qed.

(** Draining from the tail returns the content in reverse order. *)
Lemma calls_Pop d (n : nat) :
  wf d → Z.of_nat n <= len d →
  ∃ d', calls (Pop zero) n d
          = Some (d', (λ v, (v, true)) <$> take n (reverse (contents d))) ∧
        wf d' ∧ reverse (contents d') = drop n (reverse (contents d)) ∧
        len d' = len d - Z.of_nat n ∧
        Minsize d' = Minsize d ∧ Shrink d' = Shrink d.
Proof.
  revert d. induction n as [|n IH]; intros d Hwf Hn.
  - exists d. simpl. split_and!; try done. lia.
  - destruct (Pop_spec d Hwf ltac:(lia))
      as (d1 & v & HPop & Hwf1 & Hcont1 & Hlen1 & Hmin1 & Hsh1 & _).
    destruct (IH d1 Hwf1 ltac:(lia))
      as (d' & Hcalls & Hwf' & Hcont' & Hlen' & Hmin' & Hsh').
    exists d'. cbn [calls]. rewrite HPop. cbn [mbind option_bind].
    rewrite Hcalls. cbn [mbind option_bind].
    rewrite Hcont1, reverse_snoc. simpl.
    split_and!; try done; try congruence. lia.
Qed.

(** *** Linearisation, peeking and adoption *)

Lemma slice_contents d :
  wf d → head d = 0 → slice (dat d) 0 (len d) = Some (contents d).
Proof.
  intros [Hc Hm Hl Hh Ht] Hhead.
  rewrite slice_Some by (unfold Cap in *; lia).
  unfold contents, ring. rewrite Hhead.
  change (Z.to_nat 0) with 0%nat. rewrite drop_0, take_0, app_nil_r.
  do 2 f_equal. lia.
Qed.

Lemma ToSlice_spec d :
  wf d →
  ∃ d', ToSlice zero d = Some (d', contents d) ∧ wf d' ∧
        contents d' = contents d ∧ len d' = len d ∧ Cap d' = Cap d ∧
        Minsize d' = Minsize d ∧ Shrink d' = Shrink d.
Proof.
  intros Hwf. unfold ToSlice.
  destruct (Z.eqb_spec (len d) 0) as [Hempty|Hsome].
  { exists d. unfold contents. rewrite Hempty. by split_and!. }
  destruct (Z.eqb_spec (head d) 0) as [Hhead|Hhead]; simpl.
  - exists d. rewrite slice_contents by done. by split_and!.
  - destruct (resize_wf d (Cap d) Hwf)
      as (d' & Hres & Hwf' & Hcont' & Hcap' & Hhead' & Hlen' & Hmin' & Hsh').
    { destruct Hwf. lia. }
    exists d'. rewrite Hres. cbn [mbind option_bind].
    rewrite slice_contents by done. cbn [mbind option_bind].
    rewrite Hcont'. by split_and!.
Qed.

Lemma Peek_empty d : len d <= 0 → Peek zero d = Some (d, (zero, false)).
Proof. intros H. unfold Peek. by rewrite (proj2 (Z.ltb_ge 0 _)). Qed.

Lemma PeekShift_empty d :
  len d <= 0 → PeekShift zero d = Some (d, (zero, false)).
Proof. intros H. unfold PeekShift. by rewrite (proj2 (Z.ltb_ge 0 _)). Qed.

Lemma Peek_spec d :
  wf d → 0 < len d →
  ∃ v, Peek zero d = Some (d, (v, true)) ∧ last (contents d) = Some v.
Proof.
  intros Hwf Hpos.
  destruct (Pop_unfold d Hwf Hpos) as (v & Hv & Hcont & _ & _).
  exists v. split; [|by rewrite Hcont, last_snoc].
  destruct Hwf as [Hc Hm Hl Hh Ht].
  specialize (Hh ltac:(lia)); specialize (Ht ltac:(lia)).
  pose proof (tail_of_range (head d) (len d) _ Hh ltac:(lia)) as Htl.
  rewrite <- Ht in Htl.
  unfold Peek, index. rewrite (proj2 (Z.ltb_lt 0 _)) by lia.
  rewrite (proj2 (Z.ltb_ge _ 0)) by lia. by rewrite Hv.
Qed.

Lemma PeekShift_spec d :
  wf d → 0 < len d →
  ∃ v, PeekShift zero d = Some (d, (v, true)) ∧
       hd_error (contents d) = Some v.
Proof.
  intros Hwf Hpos.
  destruct (Shift_unfold d Hwf Hpos) as (v & Hv & Hcont & _ & _).
  exists v. split; [|by rewrite Hcont].
  destruct Hwf as [Hc Hm Hl Hh Ht].
  specialize (Hh ltac:(lia)).
  unfold PeekShift, index. rewrite (proj2 (Z.ltb_lt 0 _)) by lia.
  rewrite (proj2 (Z.ltb_ge _ 0)) by lia. by rewrite Hv.
Qed.

Lemma WrapSlice_spec (s : Slice T) d :
  cap_of (visible s ++ spare s) <= GoInt.max_int →
  Minsize d <= GoInt.max_int →
  wf (WrapSlice s d) ∧ contents (WrapSlice s d) = visible s ∧
  Cap (WrapSlice s d) = cap_of (visible s ++ spare s) ∧
  len (WrapSlice s d) = Z.of_nat (length (visible s)) ∧
  Minsize (WrapSlice s d) = Minsize d ∧ Shrink (WrapSlice s d) = Shrink d.
Proof.
  intros Hcap Hmin. destruct s as [vis sp]. destruct d as [ms sh hd tl n l].
  unfold WrapSlice, with_dat, with_len, with_head, with_tail, Cap, cap_of,
    GoInt.sub in *. simpl in *.
  rewrite length_app in Hcap.
  destruct (Z.eqb_spec (Z.of_nat (length vis)) 0) as [Hnil|Hcons]; simpl.
  - rewrite wrap_small by (rewrite length_app; int_range).
    split_and!; try done.
    + constructor; unfold Cap, cap_of; simpl; rewrite ?length_app; try lia.
      intros Hpos. unfold tail_of. cbv zeta. zcases; lia.
    + destruct vis; [done|simpl in Hnil; lia].
  - rewrite wrap_small by int_range.
    split_and!; try done.
    + constructor; unfold Cap, cap_of; simpl; rewrite ?length_app; try lia.
      intros Hpos. unfold tail_of. cbv zeta. zcases; lia.
    + unfold contents. simpl. rewrite Nat2Z.id.
      change (Z.to_nat 0) with 0%nat. by apply ring_prefix.
Qed.

End DequeFacts.

(** ** Sequences of operations *)

Section RunFacts.

Import Deque.
Context {T : Type}.
Variable zero : T.
Implicit Types (d : Deque.t T) (o : op T) (os : list (op T)).

Lemma effective_minsize_pos m : 0 < effective_minsize m.
Proof. unfold effective_minsize, DefaultSize. zcases; lia. Qed.

Lemma effective_minsize_idem m :
  effective_minsize (effective_minsize m) = effective_minsize m.
Proof. unfold effective_minsize, DefaultSize. zcases; lia. Qed.

Lemma effective_minsize_id m : 0 < m → effective_minsize m = m.
Proof. unfold effective_minsize. zcases; lia. Qed.

(** What one operation does to the capacity and to [Minsize]: it
    keeps both, or grows by doubling, or shrinks to [Minsize], or
    adopts a buffer. *)
Lemma step_spec o d :
  wf d → len d + volume o <= 2 ^ 62 →
  ∃ d', step zero o d = Some d' ∧ wf d' ∧
        len d' <= len d + volume o ∧ Shrink d' = Shrink d ∧
        ((Cap d' = Cap d ∧ Minsize d' = Minsize d) ∨
         (Minsize d' = effective_minsize (Minsize d) ∧
          ∃ k : nat,
            Cap d' = (if Cap d =? 0 then Minsize d' else Cap d)
                     * 2 ^ Z.of_nat k) ∨
         (Minsize d' = Minsize d ∧ 0 <= Minsize d ∧ 0 < Cap d ∧
          Cap d' = Minsize d) ∨
         (∃ s, o = OpWrapSlice s ∧ Minsize d' = Minsize d ∧
               Cap d' = cap_of (visible s ++ spare s))).
Proof.
  intros Hwf Hvol. pose proof Hwf as [Hc Hm Hl Hh Ht].
  destruct o as [v|v| | | | | | | |s]; simpl in *.
  - destruct (Push_spec zero d v Hwf Hvol)
      as (d' & HPush & Hwf' & _ & Hlen' & Hsh' & Hcap').
    exists d'. split_and!; [done..|lia|done|].
    destruct Hcap' as [(? & ? & _)|(_ & ? & ?)]; [by left|by right; left].
  - destruct (Unshift_spec zero d v Hwf Hvol)
      as (d' & HPush & Hwf' & _ & Hlen' & Hsh' & Hcap').
    exists d'. split_and!; [done..|lia|done|].
    destruct Hcap' as [(? & ? & _)|(_ & ? & ?)]; [by left|by right; left].
  - destruct (decide (0 < len d)) as [Hpos|Hempty].
    + destruct (Pop_spec zero d Hwf Hpos)
        as (d' & v & HPop & Hwf' & _ & Hlen' & Hmin' & Hsh' & Hcap').
      exists d'. rewrite HPop. split_and!; [done..|lia|done|].
      destruct Hcap' as [?|(_ & ? & _ & ?)]; [by left|].
      right; right; left. split_and!; [done|lia|lia|done].
    + exists d. rewrite Pop_empty by lia. split_and!; [done..|lia|done|by left].
  - destruct (decide (0 < len d)) as [Hpos|Hempty].
    + destruct (Shift_spec zero d Hwf Hpos)
        as (d' & v & HShift & Hwf' & _ & Hlen' & Hmin' & Hsh' & Hcap').
      exists d'. rewrite HShift. split_and!; [done..|lia|done|].
      destruct Hcap' as [?|(_ & ? & _ & ?)]; [by left|].
      right; right; left. split_and!; [done|lia|lia|done].
    + exists d. rewrite Shift_empty by lia.
      split_and!; [done..|lia|done|by left].
  - exists d. destruct (decide (0 < len d)) as [Hpos|Hempty].
    + destruct (Peek_spec zero d Hwf Hpos) as (v & -> & _).
      split_and!; [done..|lia|done|by left].
    + rewrite Peek_empty by lia. split_and!; [done..|lia|done|by left].
  - exists d. destruct (decide (0 < len d)) as [Hpos|Hempty].
    + destruct (PeekShift_spec zero d Hwf Hpos) as (v & -> & _).
      split_and!; [done..|lia|done|by left].
    + rewrite PeekShift_empty by lia.
      split_and!; [done..|lia|done|by left].
  - exists d. split_and!; [done..|lia|done|by left].
  - exists d. split_and!; [done..|lia|done|by left].
  - destruct (ToSlice_spec zero d Hwf)
      as (d' & -> & Hwf' & _ & Hlen' & Hcap' & Hmin' & Hsh').
    exists d'. split_and!; [done..|lia|done|by left].
  - destruct (WrapSlice_spec s d) as (Hwf' & _ & Hcap' & Hlen' & Hmin' & Hsh');
      [unfold cap_of; int_range|done|].
    exists (WrapSlice s d). split_and!; [done..| |done|].
    + rewrite Hlen', length_app. lia.
    + right; right; right. by exists s.
Qed.

(** The capacity after a run is 0 or a base doubled some number of
    times, the bases being the effective [Minsize] and the capacities
    of the adopted buffers. *)
Lemma run_capacity (m : Z) (B : list Z) os d :
  effective_minsize m ∈ B → (∀ c, c ∈ adopted os → c ∈ B) →
  wf d → len d + total_volume os <= 2 ^ 62 →
  Minsize d = m ∨ Minsize d = effective_minsize m →
  Cap d = 0 ∨ (∃ b (k : nat), b ∈ B ∧ Cap d = b * 2 ^ Z.of_nat k) →
  ∃ d', run zero os d = Some d' ∧ wf d' ∧
        (Cap d' = 0 ∨ ∃ b (k : nat), b ∈ B ∧ Cap d' = b * 2 ^ Z.of_nat k).
Proof.
  intros HB. revert d.
  induction os as [|o os IH]; intros d Hadopt Hwf Hvol Hmin Hcap.
  { by exists d. }
  cbn [total_volume] in Hvol.
  assert (Hvols : 0 <= total_volume os).
  { clear. induction os as [|[] os IH]; simpl; lia. }
  destruct (step_spec o d Hwf ltac:(lia))
    as (d1 & Hstep & Hwf1 & Hlen1 & _ & Hcases).
  assert (Hadopt' : ∀ c, c ∈ adopted os → c ∈ B).
  { intros c Hc. apply Hadopt. destruct o; simpl; try done.
    apply elem_of_cons. by right. }
  assert (Hnext : (Minsize d1 = m ∨ Minsize d1 = effective_minsize m) ∧
                  (Cap d1 = 0 ∨
                   ∃ b (k : nat), b ∈ B ∧ Cap d1 = b * 2 ^ Z.of_nat k)).
  { destruct Hcases as [(Hc & Hm)|[(Hm & k & Hk)|[(Hm & Hpos & Hc0 & Hc)|
                        (s & -> & Hm & Hc)]]].
    - rewrite Hc, Hm. done.
    - assert (Hm' : Minsize d1 = effective_minsize m).
      { rewrite Hm. destruct Hmin as [-> | ->];
          [done|apply effective_minsize_idem]. }
      split; [by right|]. right.
      destruct (Z.eqb_spec (Cap d) 0) as [Hzero|Hnonzero].
      + exists (effective_minsize m), k. split; [done|]. by rewrite Hk, Hm'.
      + destruct Hcap as [?|(b & j & Hb & Hj)]; [done|].
        exists b, (j + k)%nat. split; [done|].
        rewrite Hk, Hj, Nat2Z.inj_add, Z.pow_add_r by lia. lia.
    - split; [by rewrite Hm|].
      destruct (decide (Minsize d = 0)) as [Hzero|Hnonzero]; [left; lia|].
      right. exists (effective_minsize m), 0%nat. split; [done|].
      change (2 ^ Z.of_nat 0) with 1. rewrite Hc.
      destruct Hmin as [Hm0|Hm0]; [|lia].
      rewrite effective_minsize_id by lia. lia.
    - split; [by rewrite Hm|]. right.
      exists (cap_of (visible s ++ spare s)), 0%nat. split.
      + apply Hadopt. simpl. apply elem_of_cons. by left.
      + change (2 ^ Z.of_nat 0) with 1. lia. }
  destruct Hnext as [Hmin1 Hcap1].
  destruct (IH d1 Hadopt' Hwf1 ltac:(lia) Hmin1 Hcap1)
    as (d' & Hrun & Hwf' & Hcap').
  exists d'. cbn [run]. rewrite Hstep. by cbn [mbind option_bind].
Qed.

(** Without adoption, an allocated deque has had its [Minsize] set by
    [grow], and its capacity is not below it. *)
Lemma run_minsize (m : Z) os d :
  adopted os = [] →
  wf d → len d + total_volume os <= 2 ^ 62 →
  Minsize d = m ∨ Minsize d = effective_minsize m →
  Cap d = 0 ∨ (Minsize d = effective_minsize m ∧ Minsize d <= Cap d) →
  ∃ d', run zero os d = Some d' ∧ wf d' ∧
        (Cap d' = 0 ∨
         (Minsize d' = effective_minsize m ∧ Minsize d' <= Cap d')).
Proof.
  revert d.
  induction os as [|o os IH]; intros d Hadopt Hwf Hvol Hmin Hcap.
  { by exists d. }
  cbn [total_volume] in Hvol.
  assert (Hvols : 0 <= total_volume os).
  { clear. induction os as [|[] os IH]; simpl; lia. }
  destruct (step_spec o d Hwf ltac:(lia))
    as (d1 & Hstep & Hwf1 & Hlen1 & _ & Hcases).
  assert (Hadopt' : adopted os = []) by (by destruct o).
  pose proof (effective_minsize_pos m) as Heff.
  assert (Hnext : (Minsize d1 = m ∨ Minsize d1 = effective_minsize m) ∧
                  (Cap d1 = 0 ∨
                   (Minsize d1 = effective_minsize m ∧
                    Minsize d1 <= Cap d1))).
  { destruct Hcases as [(Hc & Hm)|[(Hm & k & Hk)|[(Hm & Hpos & Hc0 & Hc)|
                        (s & -> & Hm & Hc)]]].
    - rewrite Hc, Hm. done.
    - assert (Hm' : Minsize d1 = effective_minsize m).
      { rewrite Hm. destruct Hmin as [-> | ->];
          [done|apply effective_minsize_idem]. }
      split; [by right|]. right. split; [done|].
      assert (Hpow : 1 <= 2 ^ Z.of_nat k)
        by (pose proof (Z.pow_pos_nonneg 2 (Z.of_nat k)); lia).
      destruct (Z.eqb_spec (Cap d) 0) as [Hzero|Hnonzero]; [nia|].
      destruct Hcap as [?|(Hset & Hle)]; [done|].
      assert (Minsize d1 = Minsize d) by congruence. nia.
    - destruct Hcap as [?|(Hset & Hle)]; [lia|].
      split; [by rewrite Hm|]. right. rewrite Hm, Hc. split; [done|lia].
    - done. }
  destruct Hnext as [Hmin1 Hcap1].
  destruct (IH d1 Hadopt' Hwf1 ltac:(lia) Hmin1 Hcap1)
    as (d' & Hrun & Hwf' & Hcap').
  exists d'. cbn [run]. rewrite Hstep. by cbn [mbind option_bind].
Qed.

End RunFacts.

(** ** The properties of the specification *)

Section Properties.

Import Deque.
Context {T : Type}.
Variable zero : T.
Implicit Types (d : Deque.t T) (v : T).

Lemma wf_new (m s : Z) : m <= GoInt.max_int → wf (new (T := T) m s).
Proof.
  intros Hm. constructor; unfold Cap, cap_of; simpl; try done; lia.
Qed.

(** C1: growing while the occupied run wraps keeps the order.  From
    the zero-valued deque with [Minsize = 4]: pushing four values,
    shifting two, pushing a fifth (the tail wraps before the head, the
    capacity stays 4) and three more (the capacity doubles to 8 from
    the wrapped state), then draining by [Shift] returns the six
    remaining values in head-to-tail order.  The same holds when the
    four later values are pushed one call at a time, where the grow
    happens on the seventh value, again from a wrapped state; and the
    values returned are the same under every shrink policy. *)
Theorem C1_wrapped_grow_keeps_order (v1 v2 v3 v4 v5 v6 v7 v8 : T) :
  (d1 ← Push zero [v1; v2; v3; v4] (new 4 ShrinkNever);
   '(d2, r2) ← calls (Shift zero) 2 d1;
   d3 ← Push zero [v5] d2;
   d4 ← Push zero [v6; v7; v8] d3;
   '(d5, r5) ← calls (Shift zero) 6 d4;
   Some (Cap d1, r2, (Cap d3, head d3, tail d3), Cap d4, r5, len d5))
  = Some (4, [(v1, true); (v2, true)], (4, 2, 0), 8,
          [(v3, true); (v4, true); (v5, true);
           (v6, true); (v7, true); (v8, true)], 0)
  ∧
  (d1 ← Push zero [v1; v2; v3; v4] (new 4 ShrinkNever);
   '(d2, r2) ← calls (Shift zero) 2 d1;
   d3 ← Push zero [v5] d2;
   d3 ← Push zero [v6] d3;
   d4 ← Push zero [v7] d3;
   d4 ← Push zero [v8] d4;
   '(d5, r5) ← calls (Shift zero) 6 d4;
   Some ((Cap d3, head d3, tail d3), Cap d4, r5, len d5))
  = Some ((4, 2, 1), 8,
          [(v3, true); (v4, true); (v5, true);
           (v6, true); (v7, true); (v8, true)], 0)
  ∧
  ∀ s : Z,
    ∃ d1 d2 d3 d4 d5,
      Push zero [v1; v2; v3; v4] (new 4 s) = Some d1 ∧
      calls (Shift zero) 2 d1 = Some (d2, [(v1, true); (v2, true)]) ∧
      Push zero [v5] d2 = Some d3 ∧
      Push zero [v6; v7; v8] d3 = Some d4 ∧
      calls (Shift zero) 6 d4
        = Some (d5, [(v3, true); (v4, true); (v5, true);
                     (v6, true); (v7, true); (v8, true)]) ∧
      len d5 = 0.
Proof.
  split_and!; [vm_compute; reflexivity..|].
  intros s.
  destruct (Push_spec zero (new 4 s) [v1; v2; v3; v4])
    as (d1 & H1 & Hwf1 & Hc1 & Hl1 & _); [by apply wf_new|simpl; lia|].
  destruct (calls_Shift zero d1 2 Hwf1)
    as (d2 & H2 & Hwf2 & Hc2 & Hl2 & _); [rewrite Hl1; simpl; lia|].
  destruct (Push_spec zero d2 [v5] Hwf2)
    as (d3 & H3 & Hwf3 & Hc3 & Hl3 & _); [rewrite Hl2, Hl1; simpl; lia|].
  destruct (Push_spec zero d3 [v6; v7; v8] Hwf3)
    as (d4 & H4 & Hwf4 & Hc4 & Hl4 & _);
    [rewrite Hl3, Hl2, Hl1; simpl; lia|].
  destruct (calls_Shift zero d4 6 Hwf4)
    as (d5 & H5 & _ & _ & Hl5 & _);
    [rewrite Hl4, Hl3, Hl2, Hl1; simpl; lia|].
  exists d1, d2, d3, d4, d5.
  change (contents (new 4 s)) with (@nil T) in Hc1.
  rewrite Hc1 in H2, Hc2. cbn [app take drop fmap list_fmap] in H2, Hc2.
  rewrite Hc2 in Hc3. cbn [app] in Hc3.
  rewrite Hc3 in Hc4. cbn [app] in Hc4.
  rewrite Hc4 in H5. cbn [take fmap list_fmap] in H5.
  split_and!; [exact H1|exact H2|exact H3|exact H4|exact H5|].
  rewrite Hl5, Hl4, Hl3, Hl2, Hl1. cbn [length new len]. lia.
Qed.

(** C2, as the code has it: first in, first out across the two ends,
    for a slice that keeps its values through the call.  On every
    empty well-formed deque (the zero-valued one with any [Minsize] and
    any shrink policy among them), let the slice passed hold the values
    [vs] (at most [2^62] of them, the most [grow] can double to within
    an [int]) in storage of its own, as values listed in the call are,
    or let it hold them anywhere when the call has to reallocate the
    buffer.  Then [Push] followed by as many [Shift] calls returns the
    values in the order given, each with [ok = true], and so does
    [Unshift] followed by as many [Pop] calls. *)
Theorem C2_fifo_across_ends d (v : variadic T) (vs : list T) :
  wf d → len d = 0 → Z.of_nat (length vs) <= 2 ^ 62 →
  v = values vs
  ∨ (held v d = Some vs ∧ reallocates (Z.of_nat (length vs)) d = true) →
  (∃ d1 d2, Push zero v d = Some d1 ∧
            calls (Shift zero) (length vs) d1
              = Some (d2, (λ x, (x, true)) <$> vs) ∧
            len d2 = 0) ∧
  (∃ d1 d2, Unshift zero v d = Some d1 ∧
            calls (Pop zero) (length vs) d1
              = Some (d2, (λ x, (x, true)) <$> vs) ∧
            len d2 = 0).
Proof.
  intros Hwf Hempty Hbound Hv.
  assert (Hnil : contents d = []) by (unfold contents; by rewrite Hempty).
  assert (Hkeeps : held v d = Some vs ∧ stable v d).
  { destruct Hv as [->|[Hheld Hmoved]].
    - split; [apply held_values|apply stable_values].
    - split; [done|]. left. by rewrite (held_length v d vs Hheld). }
  destruct Hkeeps as [Hheld Hstable].
  rewrite (Push_stable zero v vs d), (Unshift_stable zero v vs d)
    by (done || int_range).
  split.
  - destruct (Push_spec zero d vs Hwf ltac:(lia))
      as (d1 & HPush & Hwf1 & Hcont1 & Hlen1 & _).
    destruct (calls_Shift zero d1 (length vs) Hwf1 ltac:(lia))
      as (d2 & Hcalls & _ & _ & Hlen2 & _).
    exists d1, d2. split_and!; [done| |lia].
    rewrite Hcalls, Hcont1, Hnil. simpl.
    by rewrite firstn_all.
  - destruct (Unshift_spec zero d vs Hwf ltac:(lia))
      as (d1 & HUnshift & Hwf1 & Hcont1 & Hlen1 & _).
    destruct (calls_Pop zero d1 (length vs) Hwf1 ltac:(lia))
      as (d2 & Hcalls & _ & _ & Hlen2 & _).
    exists d1, d2. split_and!; [done| |lia].
    rewrite Hcalls, Hcont1, Hnil, app_nil_r, reverse_involutive.
    by rewrite firstn_all.
Qed.

(** Under [ShrinkNever] a removal leaves the buffer alone. *)
Lemma removal_never_shrinks d o :
  wf d → Shrink d = ShrinkNever → o = OpPop ∨ o = OpShift →
  ∃ d', step zero o d = Some d' ∧ wf d' ∧
        Shrink d' = ShrinkNever ∧ Cap d' = Cap d.
Proof.
  intros Hwf Hnever Ho.
  destruct (decide (0 < len d)) as [Hpos|Hempty].
  - destruct (Pop_spec zero d Hwf Hpos)
      as (d1 & v1 & HPop & Hwf1 & _ & _ & _ & Hsh1 & Hcap1).
    destruct (Shift_spec zero d Hwf Hpos)
      as (d2 & v2 & HShift & Hwf2 & _ & _ & _ & Hsh2 & Hcap2).
    destruct Ho as [-> | ->]; simpl.
    + rewrite HPop. exists d1. split_and!; [done..|congruence|].
      by destruct Hcap1 as [Hc|[Hc _]].
    + rewrite HShift. exists d2. split_and!; [done..|congruence|].
      by destruct Hcap2 as [Hc|[Hc _]].
  - exists d. destruct Ho as [-> | ->]; simpl.
    + rewrite Pop_empty by lia. by split_and!.
    + rewrite Shift_empty by lia. by split_and!.
Qed.

(** C3: growth doubles the capacity, and only on overflow.  With
    [Minsize = 2] and policy [ShrinkNever], pushing five values one
    call at a time onto the zero-valued deque gives the capacities
    2, 2, 4, 4, 8; and under [ShrinkNever] every sequence of [Pop]
    and [Shift] calls, on every well-formed deque, runs to its end
    and leaves the capacity as it was. *)
Theorem C3_doubling_and_never_shrinking (v1 v2 v3 v4 v5 : T) :
  (d1 ← Push zero [v1] (new 2 ShrinkNever);
   d2 ← Push zero [v2] d1;
   d3 ← Push zero [v3] d2;
   d4 ← Push zero [v4] d3;
   d5 ← Push zero [v5] d4;
   Some [Cap d1; Cap d2; Cap d3; Cap d4; Cap d5])
  = Some [2; 2; 4; 4; 8]
  ∧
  ∀ d (os : list (op T)),
    wf d → Shrink d = ShrinkNever →
    Forall (λ o, o = OpPop ∨ o = OpShift) os →
    ∃ d', run zero os d = Some d' ∧ Cap d' = Cap d.
Proof.
  split; [vm_compute; reflexivity|].
  intros d os. revert d.
  induction os as [|o os IH]; intros d Hwf Hnever Hos.
  - by exists d.
  - apply Forall_cons in Hos as [Ho Hos].
    destruct (removal_never_shrinks d o Hwf Hnever Ho)
      as (d1 & Hstep & Hwf1 & Hnever1 & Hcap1).
    destruct (IH d1 Hwf1 Hnever1 Hos) as (d' & Hrun & Hcap').
    exists d'. cbn [run]. rewrite Hstep. cbn [mbind option_bind].
    split; [done|congruence].
Qed.

(** C4: the trigger of [ShrinkAt20Pct].  Under that policy [shrink]
    reallocates to [Minsize] exactly when [len <= Minsize], the
    capacity differs from [Minsize] and [len * 5 <= cap], the last
    comparison being inclusive (for lengths whose fivefold fits an
    [int]).  With [Minsize = 2]: after growing to capacity 8 with five
    elements, the removals that leave 4, 3 and 2 elements keep the
    capacity 8 and the one that leaves 1 element shrinks it to 2, from
    either end; and with [Minsize = 5], capacity 10, the removal that
    leaves 2 elements meets [2 * 5 <= 10] with equality and shrinks. *)
Theorem C4_shrink_at_20_percent (v1 v2 v3 v4 v5 v6 : T) :
  (∀ d, Shrink d = ShrinkAt20Pct → 0 <= len d →
        len d * 5 <= GoInt.max_int →
        shrink zero d =
          if (len d <=? Minsize d) && negb (Cap d =? Minsize d)
             && (len d * 5 <=? Cap d)
          then resize zero (Minsize d) d else Some d)
  ∧
  (d ← Push zero [v1; v2] (new 2 ShrinkAt20Pct);
   d ← Push zero [v3; v4] d;
   d5 ← Push zero [v5] d;
   '(d4, _) ← Shift zero d5;
   '(d3, _) ← Shift zero d4;
   '(d2, _) ← Shift zero d3;
   '(d1, _) ← Shift zero d2;
   '(d0, r) ← Shift zero d1;
   Some ([(len d5, Cap d5); (len d4, Cap d4); (len d3, Cap d3);
          (len d2, Cap d2); (len d1, Cap d1)], r))
  = Some ([(5, 8); (4, 8); (3, 8); (2, 8); (1, 2)], (v5, true))
  ∧
  (d ← Push zero [v1; v2] (new 2 ShrinkAt20Pct);
   d ← Push zero [v3; v4] d;
   d5 ← Push zero [v5] d;
   '(d4, _) ← Pop zero d5;
   '(d3, _) ← Pop zero d4;
   '(d2, _) ← Pop zero d3;
   '(d1, _) ← Pop zero d2;
   '(d0, r) ← Pop zero d1;
   Some ([(len d5, Cap d5); (len d4, Cap d4); (len d3, Cap d3);
          (len d2, Cap d2); (len d1, Cap d1)], r))
  = Some ([(5, 8); (4, 8); (3, 8); (2, 8); (1, 2)], (v1, true))
  ∧
  (d6 ← Push zero [v1; v2; v3; v4; v5; v6] (new 5 ShrinkAt20Pct);
   '(d5, _) ← Shift zero d6;
   '(d4, _) ← Shift zero d5;
   '(d3, _) ← Shift zero d4;
   '(d2, _) ← Shift zero d3;
   Some [(len d6, Cap d6); (len d5, Cap d5); (len d4, Cap d4);
         (len d3, Cap d3); (len d2, Cap d2)])
  = Some [(6, 10); (5, 10); (4, 10); (3, 10); (2, 5)].
Proof.
  split_and!; [|vm_compute; reflexivity..].
  intros d Hpolicy Hlen Hfive. unfold shrink, GoInt.mul.
  rewrite Hpolicy, wrap_small by int_range.
  change (ShrinkAt20Pct =? ShrinkNever) with false.
  change (ShrinkAt20Pct =? ShrinkAt20Pct) with true.
  change (ShrinkAt20Pct =? ShrinkIfEmpty) with false.
  cbn [andb orb negb].
  destruct (Z.ltb_spec (Minsize d) (len d)),
    (Z.leb_spec (len d) (Minsize d)); try lia; cbn [andb orb negb]; [done|].
  destruct (Cap d =? Minsize d); cbn [andb orb negb]; [done|].
  destruct (Z.ltb_spec (Cap d) (len d * 5)),
    (Z.leb_spec (len d * 5) (Cap d)); try lia; done.
Qed.

(** C7: [ToSlice].  On a deque of length 0 it returns the empty
    sequence and leaves the deque as it is.  On every well-formed
    deque, wrapped or not, it returns the logical content from head to
    tail (as many values as the length), leaves the length, the
    capacity and the content unchanged, and draining the deque by
    [Shift] afterwards yields the sequence [ToSlice] reported, each
    value with [ok = true]. *)
Theorem C7_ToSlice_content d :
  (len d = 0 → ToSlice zero d = Some (d, [])) ∧
  (wf d →
   ∃ d' d'',
     ToSlice zero d = Some (d', contents d) ∧
     Z.of_nat (length (contents d)) = len d ∧
     len d' = len d ∧ Cap d' = Cap d ∧ contents d' = contents d ∧
     calls (Shift zero) (length (contents d)) d'
       = Some (d'', (λ v, (v, true)) <$> contents d) ∧
     len d'' = 0).
Proof.
  split.
  - intros Hempty. unfold ToSlice. by rewrite Hempty.
  - intros Hwf.
    destruct (ToSlice_spec zero d Hwf)
      as (d' & HToSlice & Hwf' & Hcont' & Hlen' & Hcap' & _).
    pose proof (contents_length d Hwf) as Hlength.
    destruct (calls_Shift zero d' (length (contents d)) Hwf' ltac:(lia))
      as (d'' & Hcalls & _ & _ & Hlen'' & _).
    exists d', d''. split_and!; try done; [|lia].
    rewrite Hcalls, Hcont'. by rewrite firstn_all.
Qed.

(** C8: removal from an empty deque.  On every deque of length 0,
    [Pop] and [Shift] return the zero value with [ok = false] and the
    deque unchanged: its length, capacity, cursors and storage are the
    same, and no shrink takes place. *)
Theorem C8_removal_from_empty d :
  len d = 0 →
  Pop zero d = Some (d, (zero, false)) ∧
  Shift zero d = Some (d, (zero, false)).
Proof.
  intros Hempty. split; [apply Pop_empty|apply Shift_empty]; lia.
Qed.

(** Repeating a call that returns the deque it was given. *)
Lemma calls_fixed (f : Deque.t T → option (Deque.t T * (T * bool))) d r n :
  f d = Some (d, r) → calls f n d = Some (d, replicate n r).
Proof.
  intros Hf. induction n as [|n IH]; [done|].
  cbn [calls]. rewrite Hf. cbn [mbind option_bind].
  rewrite IH. done.
Qed.

(** C9: [Peek] and [PeekShift] change nothing and repeat themselves.
    On every deque, a call that returns hands back the very state it
    was given, so that any number of repeated calls return the same
    (value, found) pair.  On a well-formed deque both calls do return:
    the zero value with [false] when the deque is empty, otherwise
    the last element of the content for [Peek] and the first one for
    [PeekShift], with [true]. *)
Theorem C9_peeks_are_pure d :
  (∀ d' r, Peek zero d = Some (d', r) →
           d' = d ∧ ∀ n, calls (Peek zero) n d = Some (d, replicate n r)) ∧
  (∀ d' r, PeekShift zero d = Some (d', r) →
           d' = d ∧
           ∀ n, calls (PeekShift zero) n d = Some (d, replicate n r)) ∧
  (wf d →
   (len d = 0 ∧ Peek zero d = Some (d, (zero, false)) ∧
    PeekShift zero d = Some (d, (zero, false))) ∨
   (∃ v w, Peek zero d = Some (d, (v, true)) ∧
           last (contents d) = Some v ∧
           PeekShift zero d = Some (d, (w, true)) ∧
           hd_error (contents d) = Some w)).
Proof.
  split_and!.
  - intros d' r HPeek.
    assert (d' = d) as ->.
    { unfold Peek in HPeek. destruct (0 <? len d); [|congruence].
      destruct (index (dat d) (tail d)); simpl in HPeek; congruence. }
    split; [done|]. intros n. by apply calls_fixed.
  - intros d' r HPeek.
    assert (d' = d) as ->.
    { unfold PeekShift in HPeek. destruct (0 <? len d); [|congruence].
      destruct (index (dat d) (head d)); simpl in HPeek; congruence. }
    split; [done|]. intros n. by apply calls_fixed.
  - intros Hwf. destruct (decide (0 < len d)) as [Hpos|Hempty].
    + right.
      destruct (Peek_spec zero d Hwf Hpos) as (v & HPeek & Hlast).
      destruct (PeekShift_spec zero d Hwf Hpos) as (w & HPeekShift & Hfirst).
      by exists v, w.
    + left. destruct Hwf as [_ _ Hlen _ _].
      split_and!; [lia|apply Peek_empty; lia|apply PeekShift_empty; lia].
Qed.

(** C5, as the code has it: a [Pop] or [Shift] that removes an
    element either keeps the capacity or, when [shrink] reallocates,
    sets it to exactly [Minsize]; the capacity does not increase
    whenever it was at least [Minsize] before the call.  That is the
    case in every state reached from a zero-valued deque by
    operations that adopt no buffer: there the capacity is 0 (and the
    deque empty) or at least [Minsize]. *)
Theorem C5_shrink_goes_to_Minsize :
  (∀ d, wf d → 0 < len d →
     (∃ d' v, Pop zero d = Some (d', (v, true)) ∧
              (Cap d' = Cap d ∨ (Cap d ≠ Minsize d ∧ Cap d' = Minsize d)) ∧
              (Minsize d <= Cap d → Cap d' <= Cap d)) ∧
     (∃ d' v, Shift zero d = Some (d', (v, true)) ∧
              (Cap d' = Cap d ∨ (Cap d ≠ Minsize d ∧ Cap d' = Minsize d)) ∧
              (Minsize d <= Cap d → Cap d' <= Cap d))) ∧
  (∀ (m s : Z) (os : list (op T)),
     m <= GoInt.max_int → adopted os = [] → total_volume os <= 2 ^ 62 →
     ∃ d, run zero os (new m s) = Some d ∧ wf d ∧
          (Cap d = 0 ∨ Minsize d <= Cap d)).
Proof.
  split.
  - intros d Hwf Hpos. split.
    + destruct (Pop_spec zero d Hwf Hpos)
        as (d' & v & HPop & _ & _ & _ & _ & _ & Hcap).
      exists d', v. split; [done|].
      destruct Hcap as [Hsame|(_ & _ & Hne & Hmin)].
      * split; [by left|lia].
      * split; [by right|lia].
    + destruct (Shift_spec zero d Hwf Hpos)
        as (d' & v & HShift & _ & _ & _ & _ & _ & Hcap).
      exists d', v. split; [done|].
      destruct Hcap as [Hsame|(_ & _ & Hne & Hmin)].
      * split; [by left|lia].
      * split; [by right|lia].
  - intros m s os Hm Hadopt Hvol.
    destruct (run_minsize zero m os (new m s) Hadopt (wf_new m s Hm))
      as (d & Hrun & Hwf & Hcap); [simpl; lia|by left|by left|].
    exists d. split_and!; [done..|].
    destruct Hcap as [?|[_ ?]]; [by left|by right].
Qed.

Lemma shrink_to_nothing d :
  wf d → len d = 0 → Minsize d = 0 → Cap d ≠ 0 →
  Shrink d = ShrinkIfEmpty ∨ Shrink d = ShrinkAt20Pct →
  shrink zero d = Some (mk 0 (Shrink d) 0 (-1) 0 []).
Proof.
  intros Hwf Hlen Hmin Hcap Hpolicy. unfold shrink, GoInt.mul.
  rewrite Hlen, Hmin. change (GoInt.wrap (0 * 5)) with 0.
  rewrite (proj2 (Z.eqb_neq (Cap d) 0)) by done.
  rewrite (proj2 (Z.ltb_ge (Cap d) 0)) by (destruct Hwf; lia).
  change (0 <? 0) with false. rewrite !andb_false_r. cbn [orb].
  replace (Shrink d =? ShrinkNever) with false
    by (by destruct Hpolicy as [-> | ->]).
  rewrite <- Hmin at 1. rewrite resize_spec by (rewrite ?Hlen, ?Hmin; done).
  rewrite Hlen, Hmin. unfold contents. rewrite Hlen. done.
Qed.

Lemma shrink_below_zero d :
  Minsize d < 0 → 0 <= len d → shrink zero d = Some d.
Proof.
  intros Hmin Hlen. unfold shrink.
  rewrite (proj2 (Z.ltb_lt (Minsize d) (len d))) by lia.
  by destruct (Shrink d =? ShrinkNever).
Qed.

(** C10, as the code has it: under [ShrinkIfEmpty] or [ShrinkAt20Pct],
    when [Minsize] is 0 (never set, and never defaulted by [grow]),
    the [Pop] or [Shift] that takes the last element of a deque resizes
    the backing store to capacity 0.  When [Minsize] is negative the
    guard [len > Minsize] of [shrink] returns first and the backing
    store is kept. *)
Theorem C10_shrink_with_unset_Minsize d :
  wf d → len d = 1 →
  Shrink d = ShrinkIfEmpty ∨ Shrink d = ShrinkAt20Pct →
  (Minsize d = 0 →
   ∃ v w,
     Pop zero d = Some (mk 0 (Shrink d) 0 (-1) 0 [], (v, true)) ∧
     Shift zero d = Some (mk 0 (Shrink d) 0 (-1) 0 [], (w, true)) ∧
     Cap (mk 0 (Shrink d) 0 (-1) 0 ([] : list T)) = 0) ∧
  (Minsize d < 0 →
   ∃ d1 d2 v w,
     Pop zero d = Some (d1, (v, true)) ∧ dat d1 = dat d ∧
     Shift zero d = Some (d2, (w, true)) ∧ dat d2 = dat d).
Proof.
  intros Hwf Hlen Hpolicy.
  destruct (Pop_unfold zero d Hwf ltac:(lia)) as (v & _ & _ & Hwf1 & HPop).
  destruct (Shift_unfold zero d Hwf ltac:(lia)) as (w & _ & _ & Hwf2 & HShift).
  assert (Hcap : Cap d ≠ 0) by (destruct Hwf; lia).
  split.
  - intros Hmin. exists v, w.
    rewrite HPop, HShift.
    rewrite !shrink_to_nothing; simpl; try done; lia.
  - intros Hmin.
    rewrite shrink_below_zero in HPop by (simpl; lia).
    rewrite shrink_below_zero in HShift by (simpl; lia).
    by eexists _, _, v, w.
Qed.

(** C6, as the code has it: after every sequence of public
    operations on a zero-valued deque (handling at most [2^62]
    elements in all) the run completes and the capacity is 0 or a
    base doubled some number of times, where the base is the
    effective [Minsize] (the configured one, or 32 when it is not
    positive) or the capacity of an adopted buffer.  It is therefore
    a power of two whenever every base is one. *)
Theorem C6_capacity_is_a_doubled_base (m s : Z) (os : list (op T)) :
  m <= GoInt.max_int → total_volume os <= 2 ^ 62 →
  ∃ d, run zero os (new m s) = Some d ∧
       (Cap d = 0 ∨
        ∃ b (k : nat),
          b ∈ effective_minsize m :: adopted os ∧
          Cap d = b * 2 ^ Z.of_nat k) ∧
       ((∀ b, b ∈ effective_minsize m :: adopted os →
              ∃ j : nat, b = 2 ^ Z.of_nat j) →
        Cap d = 0 ∨ ∃ k : nat, Cap d = 2 ^ Z.of_nat k).
Proof.
  intros Hm Hvol.
  destruct (run_capacity zero m (effective_minsize m :: adopted os) os
              (new m s))
    as (d & Hrun & _ & Hcap).
  - apply elem_of_cons. by left.
  - intros c Hc. apply elem_of_cons. by right.
  - by apply wf_new.
  - simpl. lia.
  - by left.
  - by left.
  - exists d. split_and!; [done..|].
    intros Hpow. destruct Hcap as [?|(b & k & Hb & Hk)]; [by left|right].
    destruct (Hpow b Hb) as [j ->].
    exists (j + k)%nat. rewrite Hk, Nat2Z.inj_add, Z.pow_add_r by lia. done.
Qed.

End Properties.

(** ** Concrete instances *)

Lemma wrapped_example_reached :
  (let d := Deque.WrapSlice (mkSlice [5; 6; 7; 8] []) (Deque.new 0 0) in
   '(d, _) ← Deque.Shift 0 d;
   '(d, _) ← Deque.Shift 0 d;
   Deque.Push 0 [9] d) = Some wrapped_example.
Proof. vm_compute. reflexivity. Qed.

Lemma wrapped_example_wf : Deque.wf wrapped_example.
Proof. wf_by_evaluation. Qed.

Lemma empty_example_wf : Deque.wf empty_example.
Proof. wf_by_evaluation. Qed.

Lemma single_example_wf (minsize : Z) :
  minsize <= GoInt.max_int → Deque.wf (single_example minsize).
Proof.
  intros H. unfold single_example.
  apply (WrapSlice_spec (mkSlice [7] []) (Deque.new minsize _)); [|done].
  vm_compute. discriminate.
Qed.

(** C2 as stated fails for a slice that shares the buffer.  After
    [buf := []int{1, 2, 3}; d.WrapSlice(buf[:0])], the call
    [d.Unshift(buf...)] writes 1 over [buf[2]] before the loop reads it,
    and three [Pop] calls return 1, 2, 1.  With [drained_example], the
    call [d.Push(s...)] of the slice that [ToSlice] returned writes 1
    over [s[1]] and then over [s[2]] before they are read, and three
    [Shift] calls return 1, 1, 1.  Neither call reallocates. *)
Lemma C2_counterexample :
  (Deque.wf adopted_example ∧ Deque.len adopted_example = 0 ∧
   Deque.held (window 0 3) adopted_example = Some [1; 2; 3] ∧
   (∃ d1 d2,
      Deque.Unshift 0 (window 0 3) adopted_example = Some d1 ∧
      Deque.calls (Deque.Pop 0) 3 d1
        = Some (d2, [(1, true); (2, true); (1, true)])) ∧
   ¬ (∃ d1 d2,
        Deque.Unshift 0 (window 0 3) adopted_example = Some d1 ∧
        Deque.calls (Deque.Pop 0) 3 d1
          = Some (d2, [(1, true); (2, true); (3, true)]))) ∧
  (Deque.run 0 [Deque.OpPush [1; 2; 3]; Deque.OpToSlice; Deque.OpShift;
                Deque.OpPop; Deque.OpPop] (Deque.new 4 Deque.ShrinkNever)
     = Some drained_example ∧
   Deque.wf drained_example ∧ Deque.len drained_example = 0 ∧
   Deque.held (window 0 3) drained_example = Some [1; 2; 3] ∧
   (∃ d1 d2,
      Deque.Push 0 (window 0 3) drained_example = Some d1 ∧
      Deque.calls (Deque.Shift 0) 3 d1
        = Some (d2, [(1, true); (1, true); (1, true)])) ∧
   ¬ (∃ d1 d2,
        Deque.Push 0 (window 0 3) drained_example = Some d1 ∧
        Deque.calls (Deque.Shift 0) 3 d1
          = Some (d2, [(1, true); (2, true); (3, true)]))).
Proof.
  split.
  - split_and!; [wf_by_evaluation|reflexivity|reflexivity| |].
    + eexists _, _. split; [vm_compute; reflexivity|].
      vm_compute. reflexivity.
    + intros (d1 & d2 & H1 & H2). vm_compute in H1.
      injection H1 as <-. vm_compute in H2. discriminate.
  - split_and!; [vm_compute; reflexivity|wf_by_evaluation|reflexivity
                 |reflexivity| |].
    + eexists _, _. split; [vm_compute; reflexivity|].
      vm_compute. reflexivity.
    + intros (d1 & d2 & H1 & H2). vm_compute in H1.
      injection H1 as <-. vm_compute in H2. discriminate.
Qed.

Lemma C2_witness :
  ((∃ d1 d2,
      Deque.Push 0 [1; 2; 3] (Deque.new 0 Deque.ShrinkNever) = Some d1 ∧
      Deque.calls (Deque.Shift 0) 3 d1
        = Some (d2, [(1, true); (2, true); (3, true)]) ∧
      Deque.len d2 = 0) ∧
   (∃ d1 d2,
      Deque.Unshift 0 [1; 2; 3] (Deque.new 0 Deque.ShrinkNever) = Some d1 ∧
      Deque.calls (Deque.Pop 0) 3 d1
        = Some (d2, [(1, true); (2, true); (3, true)]) ∧
      Deque.len d2 = 0)) ∧
  ((∃ d1 d2,
      Deque.Push 0 (Variadic [Within 0; Within 1; Apart 3])
        (Deque.WrapSlice (mkSlice [] [1; 2]) (Deque.new 0 Deque.ShrinkNever))
        = Some d1 ∧
      Deque.calls (Deque.Shift 0) 3 d1
        = Some (d2, [(1, true); (2, true); (3, true)]) ∧
      Deque.len d2 = 0) ∧
   (∃ d1 d2,
      Deque.Unshift 0 (Variadic [Within 0; Within 1; Apart 3])
        (Deque.WrapSlice (mkSlice [] [1; 2]) (Deque.new 0 Deque.ShrinkNever))
        = Some d1 ∧
      Deque.calls (Deque.Pop 0) 3 d1
        = Some (d2, [(1, true); (2, true); (3, true)]) ∧
      Deque.len d2 = 0)).
Proof.
  split.
  - apply (C2_fifo_across_ends 0 (Deque.new 0 Deque.ShrinkNever)
             (values [1; 2; 3]) [1; 2; 3]).
    + wf_by_evaluation.
    + reflexivity.
    + vm_compute. discriminate.
    + left. reflexivity.
  - apply (C2_fifo_across_ends 0
             (Deque.WrapSlice (mkSlice [] [1; 2])
                (Deque.new 0 Deque.ShrinkNever))
             (Variadic [Within 0; Within 1; Apart 3]) [1; 2; 3]).
    + wf_by_evaluation.
    + reflexivity.
    + vm_compute. discriminate.
    + right. split; reflexivity.
Defined.

Lemma C3_witness :
  ∃ d', Deque.run 0 [Deque.OpPop; Deque.OpShift; Deque.OpPop] wrapped_example
          = Some d' ∧
        Deque.Cap d' = Deque.Cap wrapped_example.
Proof.
  apply (proj2 (C3_doubling_and_never_shrinking 0 1 2 3 4 5)).
  - wf_by_evaluation.
  - reflexivity.
  - constructor; [by left|].
    constructor; [by right|].
    constructor; [by left|].
    constructor.
Defined.

Lemma C4_witness :
  Deque.shrink 0 (Deque.mk 2 Deque.ShrinkAt20Pct 4 4 1 [1; 2; 3; 4; 5; 0; 0; 0])
  = Deque.resize 0 2
      (Deque.mk 2 Deque.ShrinkAt20Pct 4 4 1 [1; 2; 3; 4; 5; 0; 0; 0]).
Proof.
  apply (proj1 (C4_shrink_at_20_percent 0 1 2 3 4 5 6)
           (Deque.mk 2 Deque.ShrinkAt20Pct 4 4 1 [1; 2; 3; 4; 5; 0; 0; 0])).
  - reflexivity.
  - simpl. lia.
  - unfold GoInt.max_int. simpl. lia.
Defined.

(** C5 at the input where the code departs from it.  [shrink] is
    written to shrink back to the minimum size, and leaves a buffer of
    exactly [Minsize] alone, but not a smaller one: the buffer of
    capacity 1 adopted through [WrapSlice] is below [Minsize = 8], and
    the [Pop] that empties the deque reallocates from capacity 1 to
    capacity 8. *)
Lemma C5_counterexample :
  Deque.wf (single_example 8) ∧
  Deque.Cap (single_example 8) = 1 ∧
  ∃ d', Deque.Pop 0 (single_example 8) = Some (d', (7, true)) ∧
        Deque.dat d' ≠ Deque.dat (single_example 8) ∧
        Deque.Cap d' = 8 ∧
        ¬ (Deque.Cap d' <= Deque.Cap (single_example 8)).
Proof.
  split; [apply single_example_wf; vm_compute; discriminate|].
  split; [reflexivity|].
  eexists. split; [vm_compute; reflexivity|].
  split; [discriminate|]. split; [reflexivity|].
  vm_compute. intros H. apply H. reflexivity.
Qed.

Lemma C5_witness :
  ((∃ d' v, Deque.Pop 0 sparse_example = Some (d', (v, true)) ∧
            (Deque.Cap d' = Deque.Cap sparse_example ∨
             (Deque.Cap sparse_example ≠ Deque.Minsize sparse_example ∧
              Deque.Cap d' = Deque.Minsize sparse_example)) ∧
            (Deque.Minsize sparse_example <= Deque.Cap sparse_example →
             Deque.Cap d' <= Deque.Cap sparse_example)) ∧
   (∃ d' v, Deque.Shift 0 sparse_example = Some (d', (v, true)) ∧
            (Deque.Cap d' = Deque.Cap sparse_example ∨
             (Deque.Cap sparse_example ≠ Deque.Minsize sparse_example ∧
              Deque.Cap d' = Deque.Minsize sparse_example)) ∧
            (Deque.Minsize sparse_example <= Deque.Cap sparse_example →
             Deque.Cap d' <= Deque.Cap sparse_example))) ∧
  (∃ d, Deque.run 0 [Deque.OpPush [1; 2; 3]; Deque.OpPop; Deque.OpShift;
                     Deque.OpPop] (Deque.new 2 Deque.ShrinkIfEmpty)
          = Some d ∧
        Deque.wf d ∧
        (Deque.Cap d = 0 ∨ Deque.Minsize d <= Deque.Cap d)) ∧
  (Deque.run 0 [Deque.OpPush [1; 2; 3; 4; 5]; Deque.OpPop; Deque.OpPop;
                Deque.OpPop] (Deque.new 2 Deque.ShrinkAt20Pct)
     = Some sparse_example ∧
   Deque.Cap sparse_example = 8 ∧
   (∃ d', Deque.Pop 0 sparse_example = Some (d', (2, true)) ∧
          Deque.dat d' = [1; 0] ∧ Deque.Cap d' = 2) ∧
   (∃ d', Deque.Shift 0 sparse_example = Some (d', (1, true)) ∧
          Deque.dat d' = [2; 0] ∧ Deque.Cap d' = 2) ∧
   (∃ d1 d2, Deque.run 0 [Deque.OpPush [1; 2; 3]; Deque.OpPop; Deque.OpShift]
               (Deque.new 2 Deque.ShrinkIfEmpty) = Some d1 ∧
             Deque.Cap d1 = 4 ∧
             Deque.run 0 [Deque.OpPop] d1 = Some d2 ∧ Deque.Cap d2 = 2)).
Proof.
  split_and!.
  - apply (proj1 (C5_shrink_goes_to_Minsize 0) sparse_example).
    + wf_by_evaluation.
    + reflexivity.
  - apply (proj1 (C5_shrink_goes_to_Minsize 0) sparse_example).
    + wf_by_evaluation.
    + reflexivity.
  - apply (proj2 (C5_shrink_goes_to_Minsize 0) 2 Deque.ShrinkIfEmpty
             [Deque.OpPush [1; 2; 3]; Deque.OpPop; Deque.OpShift;
              Deque.OpPop]).
    + vm_compute. discriminate.
    + reflexivity.
    + vm_compute. discriminate.
  - vm_compute. reflexivity.
  - reflexivity.
  - eexists. split; [vm_compute; reflexivity|]. split; reflexivity.
  - eexists. split; [vm_compute; reflexivity|]. split; reflexivity.
  - eexists _, _. split; [vm_compute; reflexivity|].
    split; [reflexivity|]. split; [vm_compute; reflexivity|reflexivity].
Defined.

Lemma not_power_of_two_6 (k : nat) : 6 ≠ 2 ^ Z.of_nat k.
Proof.
  destruct k as [|[|[|k]]]; [discriminate..|].
  replace (Z.of_nat (S (S (S k)))) with (3 + Z.of_nat k) by lia.
  rewrite Z.pow_add_r by lia.
  pose proof (Z.pow_pos_nonneg 2 (Z.of_nat k)). lia.
Qed.

(** A capacity that is neither a power of two nor [Minsize]: with
    [Minsize = 3], pushing four values doubles the capacity to 6. *)
Lemma C6_counterexample :
  ∃ d, Deque.run 0 [Deque.OpPush [1; 2; 3; 4]] (Deque.new 3 Deque.ShrinkNever)
         = Some d ∧
       Deque.Cap d = 6 ∧ Deque.Minsize d = 3 ∧
       ¬ ((∃ k : nat, Deque.Cap d = 2 ^ Z.of_nat k) ∨
          Deque.Cap d = Deque.Minsize d).
Proof.
  eexists. split; [vm_compute; reflexivity|].
  split; [reflexivity|]. split; [reflexivity|].
  change (Deque.Cap _) with 6. change (Deque.Minsize _) with 3.
  intros [[k Hk]|H]; [by apply (not_power_of_two_6 k)|discriminate].
Qed.

Lemma C6_witness :
  ∃ d, Deque.run 0 [Deque.OpPush [1; 2; 3; 4; 5]; Deque.OpShift]
         (Deque.new 4 Deque.ShrinkNever) = Some d ∧
       (Deque.Cap d = 0 ∨
        ∃ b (k : nat),
          b ∈ [Deque.effective_minsize 4] ∧ Deque.Cap d = b * 2 ^ Z.of_nat k) ∧
       (Deque.Cap d = 0 ∨ ∃ k : nat, Deque.Cap d = 2 ^ Z.of_nat k).
Proof.
  destruct (C6_capacity_is_a_doubled_base 0 4 Deque.ShrinkNever
              [Deque.OpPush [1; 2; 3; 4; 5]; Deque.OpShift])
    as (d & Hrun & Hbase & Hpow).
  - vm_compute. discriminate.
  - vm_compute. discriminate.
  - exists d. split; [exact Hrun|]. split; [exact Hbase|].
    apply Hpow. intros b Hb. apply list_elem_of_singleton in Hb as ->.
    exists 2%nat. reflexivity.
Defined.

Lemma C7_witness :
  Deque.ToSlice 0 empty_example = Some (empty_example, []) ∧
  ∃ d' d'',
    Deque.ToSlice 0 wrapped_example
      = Some (d', Deque.contents wrapped_example) ∧
    Z.of_nat (length (Deque.contents wrapped_example))
      = Deque.len wrapped_example ∧
    Deque.len d' = Deque.len wrapped_example ∧
    Deque.Cap d' = Deque.Cap wrapped_example ∧
    Deque.contents d' = Deque.contents wrapped_example ∧
    Deque.calls (Deque.Shift 0) (length (Deque.contents wrapped_example)) d'
      = Some (d'', (λ v, (v, true)) <$> Deque.contents wrapped_example) ∧
    Deque.len d'' = 0.
Proof.
  split.
  - apply (proj1 (C7_ToSlice_content 0 empty_example)). reflexivity.
  - apply (proj2 (C7_ToSlice_content 0 wrapped_example)).
    apply wrapped_example_wf.
Defined.

Lemma C8_witness :
  Deque.Pop 0 empty_example = Some (empty_example, (0, false)) ∧
  Deque.Shift 0 empty_example = Some (empty_example, (0, false)).
Proof. apply (C8_removal_from_empty 0 empty_example). reflexivity. Defined.

Lemma C9_witness :
  (wrapped_example = wrapped_example ∧
   ∀ n, Deque.calls (Deque.Peek 0) n wrapped_example
        = Some (wrapped_example, replicate n (9, true))) ∧
  (wrapped_example = wrapped_example ∧
   ∀ n, Deque.calls (Deque.PeekShift 0) n wrapped_example
        = Some (wrapped_example, replicate n (7, true))) ∧
  ((Deque.len wrapped_example = 0 ∧
    Deque.Peek 0 wrapped_example = Some (wrapped_example, (0, false)) ∧
    Deque.PeekShift 0 wrapped_example = Some (wrapped_example, (0, false))) ∨
   (∃ v w, Deque.Peek 0 wrapped_example = Some (wrapped_example, (v, true)) ∧
           last (Deque.contents wrapped_example) = Some v ∧
           Deque.PeekShift 0 wrapped_example
             = Some (wrapped_example, (w, true)) ∧
           hd_error (Deque.contents wrapped_example) = Some w)).
Proof.
  split; [|split].
  - apply (proj1 (C9_peeks_are_pure 0 wrapped_example)
             wrapped_example (9, true)).
    reflexivity.
  - apply (proj1 (proj2 (C9_peeks_are_pure 0 wrapped_example))
             wrapped_example (7, true)).
    reflexivity.
  - apply (proj2 (proj2 (C9_peeks_are_pure 0 wrapped_example))).
    apply wrapped_example_wf.
Defined.

(** With a negative [Minsize] the deque keeps its buffer: the [Pop]
    that empties it leaves the capacity at 1. *)
Lemma C10_counterexample :
  Deque.Shrink (single_example (-1)) = Deque.ShrinkIfEmpty ∧
  Deque.Minsize (single_example (-1)) <= 0 ∧
  Deque.len (single_example (-1)) = 1 ∧
  Deque.Cap (single_example (-1)) ≠ 0 ∧
  ∃ d', Deque.Pop 0 (single_example (-1)) = Some (d', (7, true)) ∧
        Deque.len d' = 0 ∧
        Deque.dat d' = Deque.dat (single_example (-1)) ∧
        Deque.Cap d' ≠ 0.
Proof.
  split; [reflexivity|]. split; [vm_compute; discriminate|].
  split; [reflexivity|]. split; [discriminate|].
  eexists. split; [vm_compute; reflexivity|].
  split; [reflexivity|]. split; [reflexivity|]. discriminate.
Qed.

Lemma C10_witness :
  (∃ v w,
     Deque.Pop 0 (single_example 0)
       = Some (Deque.mk 0 (Deque.Shrink (single_example 0)) 0 (-1) 0 [],
               (v, true)) ∧
     Deque.Shift 0 (single_example 0)
       = Some (Deque.mk 0 (Deque.Shrink (single_example 0)) 0 (-1) 0 [],
               (w, true)) ∧
     Deque.Cap (Deque.mk 0 (Deque.Shrink (single_example 0)) 0 (-1) 0
                  ([] : list Z)) = 0) ∧
  (∃ d1 d2 v w,
     Deque.Pop 0 (single_example (-1)) = Some (d1, (v, true)) ∧
     Deque.dat d1 = Deque.dat (single_example (-1)) ∧
     Deque.Shift 0 (single_example (-1)) = Some (d2, (w, true)) ∧
     Deque.dat d2 = Deque.dat (single_example (-1))).
Proof.
  split.
  - apply (C10_shrink_with_unset_Minsize 0 (single_example 0)).
    + apply single_example_wf. vm_compute. discriminate.
    + reflexivity.
    + left. reflexivity.
    + reflexivity.
  - apply (C10_shrink_with_unset_Minsize 0 (single_example (-1))).
    + apply single_example_wf. vm_compute. discriminate.
    + reflexivity.
    + left. reflexivity.
    + reflexivity.
Defined.

(** ** Further properties of the operations *)

Section MoreProperties.

Import Deque.
Context {T : Type}.
Variable zero : T.
Implicit Types (d : Deque.t T) (v : T).

(** X1: last in, first out at each end.  On every well-formed deque,
    let the slice passed hold the values [vs] when the call is made
    and be stable: each of its elements is stored apart from the
    deque's buffer or is an element the deque holds, or the call has to
    reallocate.  Then [Push] followed by as many [Pop] calls returns
    the values in reverse order, each with [ok = true], and leaves the
    content the deque had before; and so does [Unshift] followed by as
    many [Shift] calls.  Values listed in the call are such a slice. *)
Theorem X1_lifo_at_one_end d (v : variadic T) (vs : list T) :
  wf d → len d + Z.of_nat (length vs) <= 2 ^ 62 →
  held v d = Some vs → stable v d →
  (∃ d1 d2, Push zero v d = Some d1 ∧
            calls (Pop zero) (length vs) d1
              = Some (d2, (λ x, (x, true)) <$> reverse vs) ∧
            contents d2 = contents d) ∧
  (∃ d1 d2, Unshift zero v d = Some d1 ∧
            calls (Shift zero) (length vs) d1
              = Some (d2, (λ x, (x, true)) <$> reverse vs) ∧
            contents d2 = contents d).
Proof.
  intros Hwf Hbound Hheld Hstable.
  rewrite (Push_stable zero v vs d), (Unshift_stable zero v vs d)
    by (done || int_range).
  split.
  - destruct (Push_spec zero d vs Hwf Hbound)
      as (d1 & HPush & Hwf1 & Hcont1 & Hlen1 & _).
    destruct (calls_Pop zero d1 (length vs) Hwf1 ltac:(destruct Hwf; lia))
      as (d2 & Hcalls & _ & Hcont2 & _).
    exists d1, d2. rewrite Hcont1, reverse_app in Hcalls, Hcont2.
    rewrite <- (length_reverse vs) in Hcalls at 2.
    rewrite <- (length_reverse vs) in Hcont2.
    rewrite take_app_length in Hcalls. rewrite drop_app_length in Hcont2.
    split_and!; [done..|]. by apply (inj reverse).
  - destruct (Unshift_spec zero d vs Hwf Hbound)
      as (d1 & HUnshift & Hwf1 & Hcont1 & Hlen1 & _).
    destruct (calls_Shift zero d1 (length vs) Hwf1 ltac:(destruct Hwf; lia))
      as (d2 & Hcalls & _ & Hcont2 & _).
    exists d1, d2. rewrite Hcont1 in Hcalls, Hcont2.
    rewrite <- (length_reverse vs) in Hcalls at 2.
    rewrite <- (length_reverse vs) in Hcont2.
    rewrite take_app_length in Hcalls. rewrite drop_app_length in Hcont2.
    by split_and!.
Qed.

(** The two ways [shrink] can end. *)
Lemma shrink_cases d :
  shrink zero d = Some d ∨
  (shrink zero d = resize zero (Minsize d) d ∧
   Shrink d ≠ ShrinkNever ∧ len d <= Minsize d ∧ Cap d ≠ Minsize d).
Proof.
  unfold shrink.
  destruct (Z.eqb_spec (Shrink d) ShrinkNever); [by left|].
  destruct (Z.ltb_spec (Minsize d) (len d)); [by left|].
  destruct (Z.eqb_spec (Cap d) (Minsize d)); [by left|]. cbn [orb].
  destruct (_ && _); [by left|]. destruct (_ && _); [by left|].
  right. by split_and!.
Qed.

(** [shrink] under the policies that do not look at the occupancy. *)
Lemma shrink_eval d :
  Shrink d ≠ ShrinkAt20Pct →
  shrink zero d =
    if negb (Shrink d =? ShrinkNever) && (len d <=? Minsize d)
       && negb (Cap d =? Minsize d)
       && negb ((Shrink d =? ShrinkIfEmpty) && (0 <? len d))
    then resize zero (Minsize d) d else Some d.
Proof.
  intros Hpolicy. unfold shrink.
  rewrite (proj2 (Z.eqb_neq (Shrink d) ShrinkAt20Pct)) by done.
  destruct (Shrink d =? ShrinkNever); [done|].
  destruct (Z.ltb_spec (Minsize d) (len d)), (Z.leb_spec (len d) (Minsize d));
    try lia; cbn [andb orb negb]; [done|].
  destruct (Cap d =? Minsize d); cbn [andb orb negb]; [done|].
  by destruct (_ && _).
Qed.

Lemma shrink_capacity d :
  wf d → Shrink d ≠ ShrinkAt20Pct →
  ∃ d', shrink zero d = Some d' ∧ contents d' = contents d ∧
        Cap d' =
          if negb (Shrink d =? ShrinkNever) && (len d <=? Minsize d)
             && negb (Cap d =? Minsize d)
             && negb ((Shrink d =? ShrinkIfEmpty) && (0 <? len d))
          then Minsize d else Cap d.
Proof.
  intros Hwf Hpolicy. rewrite shrink_eval by done.
  destruct (negb (Shrink d =? ShrinkNever)); cbn [andb]; [|by exists d].
  destruct (Z.leb_spec (len d) (Minsize d)); cbn [andb]; [|by exists d].
  destruct (negb (Cap d =? Minsize d)); cbn [andb]; [|by exists d].
  destruct (negb _); [|by exists d].
  destruct (resize_wf zero d (Minsize d) Hwf)
    as (d' & Hres & _ & Hcont & Hcap & _); [destruct Hwf; lia|].
  by exists d'.
Qed.

(** X5: the trigger of [ShrinkIfEmpty].  Under that policy a [Pop] or
    [Shift] that removes an element changes the capacity only when it
    takes the last element, [Minsize] is not negative and the capacity
    differs from [Minsize]; the capacity is then [Minsize].  While
    elements remain the capacity stays as it is. *)
Theorem X5_shrink_if_empty d :
  wf d → Shrink d = ShrinkIfEmpty → 0 < len d →
  (∃ d' v, Pop zero d = Some (d', (v, true)) ∧
           Cap d' =
             if (len d =? 1) && (0 <=? Minsize d)
                && negb (Cap d =? Minsize d)
             then Minsize d else Cap d) ∧
  (∃ d' v, Shift zero d = Some (d', (v, true)) ∧
           Cap d' =
             if (len d =? 1) && (0 <=? Minsize d)
                && negb (Cap d =? Minsize d)
             then Minsize d else Cap d).
Proof.
  intros Hwf Hpolicy Hpos.
  destruct (Pop_unfold zero d Hwf Hpos) as (v & _ & _ & Hwf1 & HPop).
  destruct (Shift_unfold zero d Hwf Hpos) as (w & _ & _ & Hwf2 & HShift).
  destruct (shrink_capacity _ Hwf1) as (d1 & Hs1 & _ & Hcap1);
    [simpl; by rewrite Hpolicy|].
  destruct (shrink_capacity _ Hwf2) as (d2 & Hs2 & _ & Hcap2);
    [simpl; by rewrite Hpolicy|].
  rewrite Hs1 in HPop. rewrite Hs2 in HShift.
  cbn [mbind option_bind] in HPop, HShift.
  assert (Hcond : ∀ c : Z,
    (if negb (ShrinkIfEmpty =? ShrinkNever) && (len d - 1 <=? Minsize d)
        && negb (c =? Minsize d)
        && negb ((ShrinkIfEmpty =? ShrinkIfEmpty) && (0 <? len d - 1))
     then Minsize d else c)
    = (if (len d =? 1) && (0 <=? Minsize d) && negb (c =? Minsize d)
       then Minsize d else c)).
  { intros c. change (ShrinkIfEmpty =? ShrinkNever) with false.
    change (ShrinkIfEmpty =? ShrinkIfEmpty) with true. cbn [negb andb].
    destruct (Z.eqb_spec c (Minsize d)); zcases; cbn [negb andb]; lia. }
  unfold Cap in Hcap1, Hcap2. simpl in Hcap1, Hcap2.
  rewrite Hpolicy in Hcap1, Hcap2.
  pose proof (Hcond (cap_of (dat d))) as Hc. unfold Cap.
  split; [exists d1, v|exists d2, w]; (split; [done|]).
  - by rewrite <- Hc.
  - by rewrite <- Hc.
Qed.

(** X6: a [Shrink] field holding none of the three constants.  The
    code compares the field with the constants only, so any other
    value shrinks at every chance: a [Pop] or [Shift] that removes an
    element resizes to [Minsize] as soon as the remaining elements fit
    in [Minsize] and the capacity differs from it. *)
Theorem X6_unknown_policy_shrinks_eagerly d :
  wf d → 0 < len d →
  Shrink d ≠ ShrinkNever → Shrink d ≠ ShrinkIfEmpty →
  Shrink d ≠ ShrinkAt20Pct →
  (∃ d' v, Pop zero d = Some (d', (v, true)) ∧
           Cap d' =
             if (len d - 1 <=? Minsize d) && negb (Cap d =? Minsize d)
             then Minsize d else Cap d) ∧
  (∃ d' v, Shift zero d = Some (d', (v, true)) ∧
           Cap d' =
             if (len d - 1 <=? Minsize d) && negb (Cap d =? Minsize d)
             then Minsize d else Cap d).
Proof.
  intros Hwf Hpos Hnever Hempty H20.
  destruct (Pop_unfold zero d Hwf Hpos) as (v & _ & _ & Hwf1 & HPop).
  destruct (Shift_unfold zero d Hwf Hpos) as (w & _ & _ & Hwf2 & HShift).
  destruct (shrink_capacity _ Hwf1) as (d1 & Hs1 & _ & Hcap1); [done|].
  destruct (shrink_capacity _ Hwf2) as (d2 & Hs2 & _ & Hcap2); [done|].
  rewrite Hs1 in HPop. rewrite Hs2 in HShift.
  cbn [mbind option_bind] in HPop, HShift.
  unfold Cap in Hcap1, Hcap2. simpl in Hcap1, Hcap2.
  rewrite (proj2 (Z.eqb_neq (Shrink d) ShrinkNever)) in Hcap1, Hcap2 by done.
  rewrite (proj2 (Z.eqb_neq (Shrink d) ShrinkIfEmpty)) in Hcap1, Hcap2
    by done.
  cbn [negb andb] in Hcap1, Hcap2. rewrite andb_true_r in Hcap1, Hcap2.
  unfold Cap. split; [by exists d1, v|by exists d2, w].
Qed.

(** X7: what [resize] leaves behind.  Given a size that holds the
    content, [resize] returns a deque whose head is 0, whose tail is
    the index of the last element (or the last slot when the deque is
    empty), and whose buffer is the content in order followed by zero
    values up to the size; length, [Minsize] and policy are kept. *)
Theorem X7_resize_relocates d (size : Z) :
  wf d → len d <= size <= GoInt.max_int →
  ∃ d', resize zero size d = Some d' ∧
        head d' = 0 ∧
        tail d' = (if len d =? 0 then size - 1 else len d - 1) ∧
        dat d' = contents d ++ replicate (Z.to_nat (size - len d)) zero ∧
        Cap d' = size ∧ len d' = len d ∧
        Minsize d' = Minsize d ∧ Shrink d' = Shrink d.
Proof.
  intros Hwf Hsize. eexists. split; [by apply resize_spec|].
  pose proof (contents_length d Hwf) as Hlen.
  destruct Hwf as [_ _ Hl _ _].
  split_and!; simpl; try done.
  - unfold tail_of. cbv zeta. zcases; lia.
  - unfold Cap, cap_of. simpl. rewrite length_app, length_replicate. lia.
Qed.

(** X8: a removal never writes to the buffer.  After a [Pop] or
    [Shift] that removes an element, either the buffer is the one the
    deque had, with the removed value still in its slot, or [shrink]
    has reallocated and the buffer is the remaining content from index
    0 followed by zero values. *)
Theorem X8_removal_leaves_the_slot d :
  wf d → 0 < len d →
  (∃ d' v, Pop zero d = Some (d', (v, true)) ∧
           ((dat d' = dat d ∧ head d' = head d ∧
             dat d' !! Z.to_nat (tail d) = Some v) ∨
            (Cap d ≠ Minsize d ∧ head d' = 0 ∧
             dat d' = contents d'
                      ++ replicate (Z.to_nat (Minsize d - len d')) zero))) ∧
  (∃ d' v, Shift zero d = Some (d', (v, true)) ∧
           ((dat d' = dat d ∧ tail d' = tail d ∧
             dat d' !! Z.to_nat (head d) = Some v) ∨
            (Cap d ≠ Minsize d ∧ head d' = 0 ∧
             dat d' = contents d'
                      ++ replicate (Z.to_nat (Minsize d - len d')) zero))).
Proof.
  intros Hwf Hpos.
  destruct (Pop_unfold zero d Hwf Hpos) as (v & Hv & _ & Hwf1 & HPop).
  destruct (Shift_unfold zero d Hwf Hpos) as (w & Hw & _ & Hwf2 & HShift).
  split.
  - destruct (shrink_cases (mk (Minsize d) (Shrink d) (head d)
                 (tail_of (head d) (len d - 1) (Cap d)) (len d - 1) (dat d)))
      as [Hsame|(Hresize & _ & Hfit & Hne)].
    + rewrite Hsame in HPop. eexists _, v. split; [exact HPop|]. by left.
    + rewrite Hresize in HPop. simpl in Hfit, Hne.
      pose proof (contents_length _ Hwf1) as Hl. simpl in Hl.
      rewrite resize_spec in HPop by (simpl; destruct Hwf; done || lia).
      eexists _, v. split; [exact HPop|]. right.
      simpl. split_and!; [done..|].
      unfold contents at 2. simpl. rewrite ring_prefix; [done|]. lia.
  - destruct (shrink_cases (mk (Minsize d) (Shrink d)
                 (if head d + 1 =? Cap d then 0 else head d + 1)
                 (tail d) (len d - 1) (dat d)))
      as [Hsame|(Hresize & _ & Hfit & Hne)].
    + rewrite Hsame in HShift. eexists _, w. split; [exact HShift|]. by left.
    + rewrite Hresize in HShift. simpl in Hfit, Hne.
      pose proof (contents_length _ Hwf2) as Hl. simpl in Hl.
      rewrite resize_spec in HShift by (simpl; destruct Hwf; done || lia).
      eexists _, w. split; [exact HShift|]. right.
      simpl. split_and!; [done..|].
      unfold contents at 2. simpl. rewrite ring_prefix; [done|]. lia.
Qed.

(** [grow] when room is missing: the capacity becomes the least
    doubling of the base that holds the elements. *)
Lemma grow_least d add :
  wf d → 0 <= add → len d + add <= 2 ^ 62 → Cap d < len d + add →
  ∃ d' (k : nat),
    grow zero add d = Some d' ∧ wf d' ∧
    contents d' = contents d ∧ len d' = len d ∧ Shrink d' = Shrink d ∧
    Minsize d' = effective_minsize (Minsize d) ∧
    Cap d' = (if Cap d =? 0 then effective_minsize (Minsize d) else Cap d)
             * 2 ^ Z.of_nat k ∧
    len d + add <= Cap d' ∧
    (k = 0%nat ∨ Cap d' < 2 * (len d + add)).
Proof.
  intros Hwf Hadd Hneed Hgrow. unfold grow, GoInt.add.
  pose proof Hwf as [Hc Hm Hl Hh Ht].
  rewrite wrap_small by int_range.
  rewrite (proj2 (Z.ltb_lt _ _)) by done.
  set (d1 := if Minsize d <=? 0 then with_Minsize DefaultSize d else d).
  assert (Hd1 : wf d1 ∧ contents d1 = contents d ∧ Cap d1 = Cap d ∧
                len d1 = len d ∧ Shrink d1 = Shrink d ∧
                Minsize d1 = effective_minsize (Minsize d) ∧
                0 < Minsize d1).
  { unfold d1, effective_minsize.
    destruct (Z.leb_spec (Minsize d) 0); [|by split_and!; try lia].
    split_and!; done. }
  destruct Hd1 as (Hwf1 & Hcont1 & Hcap1 & Hlen1 & Hsh1 & Hmin1 & Hpos1).
  cbv zeta. rewrite Hlen1, Hcap1, Hmin1.
  rewrite wrap_small by int_range.
  set (size := if Cap d =? 0 then effective_minsize (Minsize d) else Cap d).
  assert (Hsize : 0 < size <= GoInt.max_int).
  { unfold size. destruct Hwf1.
    destruct (Z.eqb_spec (Cap d) 0); lia. }
  destruct (grow_loop_spec size (len d + add)) as (k & Hk & Hle & Hminimal);
    [lia|done|].
  rewrite Hk. cbn [mbind option_bind].
  destruct (resize_wf zero d1 (size * 2 ^ Z.of_nat k)) as
    (d' & Hres & Hwf' & Hcont' & Hcap' & Hhead' & Hlen' & Hmin' & Hsh');
    [done| |].
  { rewrite Hlen1. split; [lia|].
    destruct Hminimal as [->|Hlt];
      [change (2 ^ Z.of_nat 0) with 1|]; unfold GoInt.max_int in *; lia. }
  exists d', k. split_and!; try congruence; lia.
Qed.

(** The capacity after an insertion of [n] elements by [f]. *)
Lemma insert_capacity (f : T → Deque.t T → option (Deque.t T)) d (vs : list T) :
  (∀ d0, wf d0 → len d0 + Z.of_nat (length vs) <= Cap d0 →
         ∃ d', for_range f (Apart <$> vs) d0 = Some d' ∧ wf d' ∧
               len d' = len d0 + Z.of_nat (length vs) ∧ Cap d' = Cap d0 ∧
               Minsize d' = Minsize d0) →
  wf d → len d + Z.of_nat (length vs) <= 2 ^ 62 →
  ∃ d', (d1 ← grow zero (Z.of_nat (length vs)) d;
         for_range f (Apart <$> vs) d1) = Some d' ∧
        wf d' ∧ len d' = len d + Z.of_nat (length vs) ∧
        ((len d + Z.of_nat (length vs) <= Cap d ∧
          Cap d' = Cap d ∧ Minsize d' = Minsize d) ∨
         (Cap d < len d + Z.of_nat (length vs) ∧
          Minsize d' = effective_minsize (Minsize d) ∧
          ∃ k : nat,
            Cap d' = (if Cap d =? 0 then effective_minsize (Minsize d)
                      else Cap d) * 2 ^ Z.of_nat k ∧
            len d' <= Cap d' ∧ (k = 0%nat ∨ Cap d' < 2 * len d'))).
Proof.
  intros Hloop Hwf Hbound.
  destruct (decide (len d + Z.of_nat (length vs) <= Cap d)) as [Hfits|Hgrow].
  - rewrite grow_fits by (done || lia). cbn [mbind option_bind].
    destruct (Hloop d Hwf Hfits) as (d' & Hrun & Hwf' & Hlen' & Hcap' & Hmin').
    exists d'. split_and!; [done..|]. left. by split_and!.
  - destruct (grow_least d (Z.of_nat (length vs)) Hwf ltac:(lia) Hbound
                ltac:(lia))
      as (d1 & k & Hg & Hwf1 & _ & Hlen1 & _ & Hmin1 & Hcap1 & Hroom & Hk).
    rewrite Hg. cbn [mbind option_bind].
    destruct (Hloop d1 Hwf1 ltac:(lia))
      as (d' & Hrun & Hwf' & Hlen' & Hcap' & Hmin').
    exists d'. split_and!; [done..|lia|]. right.
    split_and!; [lia|congruence|]. exists k.
    rewrite Hcap', Hlen', Hlen1. by split_and!.
Qed.

Lemma Push_capacity d (vs : list T) :
  wf d → len d + Z.of_nat (length vs) <= 2 ^ 62 →
  ∃ d', Push zero vs d = Some d' ∧
        wf d' ∧ len d' = len d + Z.of_nat (length vs) ∧
        ((len d + Z.of_nat (length vs) <= Cap d ∧
          Cap d' = Cap d ∧ Minsize d' = Minsize d) ∨
         (Cap d < len d + Z.of_nat (length vs) ∧
          Minsize d' = effective_minsize (Minsize d) ∧
          ∃ k : nat,
            Cap d' = (if Cap d =? 0 then effective_minsize (Minsize d)
                      else Cap d) * 2 ^ Z.of_nat k ∧
            len d' <= Cap d' ∧ (k = 0%nat ∨ Cap d' < 2 * len d'))).
Proof.
  intros Hwf Hbound. rewrite Push_values. apply insert_capacity; [|done..].
  intros d0 Hwf0 Hroom.
  destruct (for_range_push vs d0 Hwf0 Hroom)
    as (d' & Hrun & Hwf' & _ & Hlen' & Hcap' & Hmin' & _).
  by exists d'.
Qed.

Lemma Unshift_capacity d (vs : list T) :
  wf d → len d + Z.of_nat (length vs) <= 2 ^ 62 →
  ∃ d', Unshift zero vs d = Some d' ∧
        wf d' ∧ len d' = len d + Z.of_nat (length vs) ∧
        ((len d + Z.of_nat (length vs) <= Cap d ∧
          Cap d' = Cap d ∧ Minsize d' = Minsize d) ∨
         (Cap d < len d + Z.of_nat (length vs) ∧
          Minsize d' = effective_minsize (Minsize d) ∧
          ∃ k : nat,
            Cap d' = (if Cap d =? 0 then effective_minsize (Minsize d)
                      else Cap d) * 2 ^ Z.of_nat k ∧
            len d' <= Cap d' ∧ (k = 0%nat ∨ Cap d' < 2 * len d'))).
Proof.
  intros Hwf Hbound. rewrite Unshift_values. apply insert_capacity; [|done..].
  intros d0 Hwf0 Hroom.
  destruct (for_range_unshift vs d0 Hwf0 Hroom)
    as (d' & Hrun & Hwf' & _ & Hlen' & Hcap' & Hmin' & _).
  by exists d'.
Qed.

(** X12: growth stays within a factor of two.  After a [Push] or an
    [Unshift] the capacity holds the elements, and it is the capacity
    the deque had, or the effective [Minsize] (on first allocation), or
    less than twice the new length. *)
Theorem X12_growth_within_factor_two d (vs : list T) :
  wf d → len d + Z.of_nat (length vs) <= 2 ^ 62 →
  (∃ d', Push zero vs d = Some d' ∧ len d' <= Cap d' ∧
         (Cap d' = Cap d ∨ Cap d' = effective_minsize (Minsize d) ∨
          Cap d' < 2 * len d')) ∧
  (∃ d', Unshift zero vs d = Some d' ∧ len d' <= Cap d' ∧
         (Cap d' = Cap d ∨ Cap d' = effective_minsize (Minsize d) ∨
          Cap d' < 2 * len d')).
Proof.
  intros Hwf Hbound.
  assert (Hcases : ∀ d',
    wf d' →
    (len d + Z.of_nat (length vs) <= Cap d ∧
       Cap d' = Cap d ∧ Minsize d' = Minsize d) ∨
      (Cap d < len d + Z.of_nat (length vs) ∧
       Minsize d' = effective_minsize (Minsize d) ∧
       ∃ k : nat,
         Cap d' = (if Cap d =? 0 then effective_minsize (Minsize d)
                   else Cap d) * 2 ^ Z.of_nat k ∧
         len d' <= Cap d' ∧ (k = 0%nat ∨ Cap d' < 2 * len d')) →
    len d' <= Cap d' ∧
    (Cap d' = Cap d ∨ Cap d' = effective_minsize (Minsize d) ∨
     Cap d' < 2 * len d')).
  { intros d' Hwf' [(_ & Hc & _)|(Hlt & _ & k & Hc & Hle & Hk)].
    - split; [destruct Hwf'; lia|by left].
    - split; [done|]. destruct Hk as [->|Hk]; [|by right; right].
      change (2 ^ Z.of_nat 0) with 1 in Hc.
      destruct (Z.eqb_spec (Cap d) 0); [right; left; lia|left; lia]. }
  split.
  - destruct (Push_capacity d vs Hwf Hbound) as (d' & HPush & Hwf' & _ & Hc).
    exists d'. split; [done|]. by apply Hcases.
  - destruct (Unshift_capacity d vs Hwf Hbound)
      as (d' & HUnshift & Hwf' & _ & Hc).
    exists d'. split; [done|]. by apply Hcases.
Qed.

(** There is one least doubling of a base that reaches a need. *)
Lemma least_doubling_unique (base need : Z) (j k : nat) :
  0 < base →
  need <= base * 2 ^ Z.of_nat j →
  (j = 0%nat ∨ base * 2 ^ Z.of_nat j < 2 * need) →
  need <= base * 2 ^ Z.of_nat k →
  (k = 0%nat ∨ base * 2 ^ Z.of_nat k < 2 * need) →
  base * 2 ^ Z.of_nat j = base * 2 ^ Z.of_nat k.
Proof.
  assert (Hstep : ∀ i l : nat, (i < l)%nat →
            2 * 2 ^ Z.of_nat i <= 2 ^ Z.of_nat l).
  { intros i l Hil. rewrite <- Z.pow_succ_r by lia.
    apply Z.pow_le_mono_r; lia. }
  intros Hbase Hj Hjmin Hk Hkmin.
  destruct (lt_eq_lt_dec j k) as [[Hlt | ->] | Hgt]; [|done|].
  - pose proof (Hstep j k Hlt). destruct Hkmin as [->|Hkmin]; [lia|nia].
  - pose proof (Hstep k j Hgt). destruct Hjmin as [->|Hjmin]; [lia|nia].
Qed.

(** Two insertions in a row reach the capacity of one insertion of
    both batches: the arithmetic of the three calls of [grow]. *)
Lemma batch_capacity (c0 m n a b c1 m1 c2 m2 c12 m12 : Z) :
  0 <= c0 → 0 <= n → 0 <= a → 0 <= b →
  ((n + a <= c0 ∧ c1 = c0 ∧ m1 = m) ∨
   (c0 < n + a ∧ m1 = effective_minsize m ∧
    ∃ k : nat, c1 = (if c0 =? 0 then effective_minsize m else c0)
                    * 2 ^ Z.of_nat k ∧
               n + a <= c1 ∧ (k = 0%nat ∨ c1 < 2 * (n + a)))) →
  ((n + a + b <= c1 ∧ c2 = c1 ∧ m2 = m1) ∨
   (c1 < n + a + b ∧ m2 = effective_minsize m1 ∧
    ∃ k : nat, c2 = (if c1 =? 0 then effective_minsize m1 else c1)
                    * 2 ^ Z.of_nat k ∧
               n + a + b <= c2 ∧ (k = 0%nat ∨ c2 < 2 * (n + a + b)))) →
  ((n + a + b <= c0 ∧ c12 = c0 ∧ m12 = m) ∨
   (c0 < n + a + b ∧ m12 = effective_minsize m ∧
    ∃ k : nat, c12 = (if c0 =? 0 then effective_minsize m else c0)
                     * 2 ^ Z.of_nat k ∧
               n + a + b <= c12 ∧ (k = 0%nat ∨ c12 < 2 * (n + a + b)))) →
  c12 = c2 ∧ m12 = m2.
Proof.
  intros Hc0 Hn Ha Hb Hfirst Hsecond Hboth.
  pose proof (effective_minsize_pos m) as Heff.
  set (base := if c0 =? 0 then effective_minsize m else c0) in *.
  assert (Hbase : 0 < base) by (unfold base; destruct (Z.eqb_spec c0 0); lia).
  destruct Hfirst as [(Hf1 & -> & ->)|(Hg1 & -> & k1 & Hc1 & Hle1 & Hk1)].
  - destruct Hsecond as [(Hf2 & -> & ->)|(Hg2 & -> & k2 & Hc2 & Hle2 & Hk2)].
    + destruct Hboth as [(_ & -> & ->)|(Hg & _)]; [done|lia].
    + destruct Hboth as [(Hf & _)|(_ & -> & k & Hc & Hle & Hk)]; [lia|].
      split; [|done]. rewrite Hc, Hc2. fold base.
      rewrite Hc in Hle, Hk. rewrite Hc2 in Hle2, Hk2. fold base in Hle2, Hk2.
      by apply (least_doubling_unique base (n + a + b)).
  - destruct Hboth as [(Hf & _)|(_ & -> & k & Hc & Hle & Hk)]; [lia|].
    rewrite Hc in Hle, Hk.
    destruct Hsecond as [(Hf2 & -> & ->)|(Hg2 & -> & k2 & Hc2 & Hle2 & Hk2)].
    + split; [|done]. rewrite Hc, Hc1. rewrite Hc1 in Hle1, Hk1, Hf2.
      apply (least_doubling_unique base (n + a + b)); [done|done|done|done|].
      destruct Hk1 as [?|?]; [by left|right; lia].
    + split; [|by rewrite effective_minsize_idem].
      assert (Hc1pos : c1 ≠ 0) by lia.
      rewrite (proj2 (Z.eqb_neq c1 0)) in Hc2 by done.
      assert (Hk2' : k2 ≠ 0%nat).
      { intros ->. change (2 ^ Z.of_nat 0) with 1 in Hc2. lia. }
      destruct Hk2 as [?|Hk2]; [done|].
      assert (Hc2' : c2 = base * 2 ^ Z.of_nat (k1 + k2)).
      { rewrite Hc2, Hc1, Nat2Z.inj_add, Z.pow_add_r by lia. lia. }
      rewrite Hc, Hc2'. rewrite Hc2' in Hle2, Hk2.
      apply (least_doubling_unique base (n + a + b)); [done|done|done|done|].
      by right.
Qed.

(** Two calls with listed values against one call with all of them. *)
Lemma batches_of_values d (vs ws : list T) :
  wf d → len d + Z.of_nat (length vs) + Z.of_nat (length ws) <= 2 ^ 62 →
  (∃ d1 d2 d12,
     Push zero vs d = Some d1 ∧ Push zero ws d1 = Some d2 ∧
     Push zero (vs ++ ws) d = Some d12 ∧
     contents d2 = contents d ++ vs ++ ws ∧ contents d12 = contents d2 ∧
     len d12 = len d2 ∧ Cap d12 = Cap d2 ∧ Minsize d12 = Minsize d2) ∧
  (∃ d1 d2 d12,
     Unshift zero vs d = Some d1 ∧ Unshift zero ws d1 = Some d2 ∧
     Unshift zero (vs ++ ws) d = Some d12 ∧
     contents d2 = reverse ws ++ reverse vs ++ contents d ∧
     contents d12 = contents d2 ∧
     len d12 = len d2 ∧ Cap d12 = Cap d2 ∧ Minsize d12 = Minsize d2).
Proof.
  intros Hwf Hbound. pose proof Hwf as [_ _ Hl _ _].
  assert (Hlen12 : Z.of_nat (length (vs ++ ws))
                   = Z.of_nat (length vs) + Z.of_nat (length ws))
    by (rewrite length_app; lia).
  split.
  - destruct (Push_spec zero d vs Hwf ltac:(lia))
      as (d1 & H1 & Hwf1 & Hc1 & Hl1 & _).
    destruct (Push_spec zero d1 ws Hwf1 ltac:(lia))
      as (d2 & H2 & Hwf2 & Hc2 & Hl2 & _).
    destruct (Push_spec zero d (vs ++ ws) Hwf ltac:(lia))
      as (d12 & H12 & Hwf12 & Hc12 & Hl12 & _).
    destruct (Push_capacity d vs Hwf ltac:(lia)) as (? & E1 & _ & _ & K1).
    destruct (Push_capacity d1 ws Hwf1 ltac:(lia)) as (? & E2 & _ & _ & K2).
    destruct (Push_capacity d (vs ++ ws) Hwf ltac:(lia))
      as (? & E12 & _ & _ & K12).
    rewrite H1 in E1. rewrite H2 in E2. rewrite H12 in E12.
    injection E1 as <-. injection E2 as <-. injection E12 as <-.
    rewrite Hl1 in K2. rewrite Hl2, Hl1 in K2. rewrite Hl12, Hlen12 in K12.
    rewrite Hl1 in K1. rewrite ?Z.add_assoc in K12.
    destruct (batch_capacity (Cap d) (Minsize d) (len d)
                (Z.of_nat (length vs)) (Z.of_nat (length ws))
                (Cap d1) (Minsize d1) (Cap d2) (Minsize d2)
                (Cap d12) (Minsize d12)) as [Hcap Hmin];
      [destruct Hwf; lia|lia|lia|lia|done..|].
    exists d1, d2, d12. split_and!; [done..| | |lia|done|done].
    + by rewrite Hc2, Hc1, <- app_assoc.
    + by rewrite Hc12, Hc2, Hc1, <- !app_assoc.
  - destruct (Unshift_spec zero d vs Hwf ltac:(lia))
      as (d1 & H1 & Hwf1 & Hc1 & Hl1 & _).
    destruct (Unshift_spec zero d1 ws Hwf1 ltac:(lia))
      as (d2 & H2 & Hwf2 & Hc2 & Hl2 & _).
    destruct (Unshift_spec zero d (vs ++ ws) Hwf ltac:(lia))
      as (d12 & H12 & Hwf12 & Hc12 & Hl12 & _).
    destruct (Unshift_capacity d vs Hwf ltac:(lia)) as (? & E1 & _ & _ & K1).
    destruct (Unshift_capacity d1 ws Hwf1 ltac:(lia))
      as (? & E2 & _ & _ & K2).
    destruct (Unshift_capacity d (vs ++ ws) Hwf ltac:(lia))
      as (? & E12 & _ & _ & K12).
    rewrite H1 in E1. rewrite H2 in E2. rewrite H12 in E12.
    injection E1 as <-. injection E2 as <-. injection E12 as <-.
    rewrite Hl1 in K2. rewrite Hl2, Hl1 in K2. rewrite Hl12, Hlen12 in K12.
    rewrite Hl1 in K1. rewrite ?Z.add_assoc in K12.
    destruct (batch_capacity (Cap d) (Minsize d) (len d)
                (Z.of_nat (length vs)) (Z.of_nat (length ws))
                (Cap d1) (Minsize d1) (Cap d2) (Minsize d2)
                (Cap d12) (Minsize d12)) as [Hcap Hmin];
      [destruct Hwf; lia|lia|lia|lia|done..|].
    exists d1, d2, d12. split_and!; [done..| | |lia|done|done].
    + by rewrite Hc2, Hc1.
    + by rewrite Hc12, Hc2, Hc1, reverse_app, <- app_assoc.
Qed.

(** X2: batches compose.  On every well-formed deque, two calls of
    [Push], each with a stable slice (one whose elements are stored
    apart from the buffer or are elements the deque holds at that call,
    or a call that has to reallocate), give the content, the length,
    the capacity and the [Minsize] that one [Push] of all the values
    gives: the content is the earlier content followed by the values
    [vs] of the first slice and [ws] of the second.  The same holds for
    [Unshift], where the content is the values of [ws] in reverse, then
    those of [vs] in reverse, then the earlier content. *)
Theorem X2_batches_compose d (v : variadic T) (vs : list T) :
  wf d → len d + Z.of_nat (length vs) <= 2 ^ 62 →
  held v d = Some vs → stable v d →
  (∃ d1, Push zero v d = Some d1 ∧
     ∀ (w : variadic T) (ws : list T),
       len d1 + Z.of_nat (length ws) <= 2 ^ 62 →
       held w d1 = Some ws → stable w d1 →
       ∃ d2 d12,
         Push zero w d1 = Some d2 ∧
         Push zero (values (vs ++ ws)) d = Some d12 ∧
         contents d2 = contents d ++ vs ++ ws ∧ contents d12 = contents d2 ∧
         len d12 = len d2 ∧ Cap d12 = Cap d2 ∧ Minsize d12 = Minsize d2) ∧
  (∃ d1, Unshift zero v d = Some d1 ∧
     ∀ (w : variadic T) (ws : list T),
       len d1 + Z.of_nat (length ws) <= 2 ^ 62 →
       held w d1 = Some ws → stable w d1 →
       ∃ d2 d12,
         Unshift zero w d1 = Some d2 ∧
         Unshift zero (values (vs ++ ws)) d = Some d12 ∧
         contents d2 = reverse ws ++ reverse vs ++ contents d ∧
         contents d12 = contents d2 ∧
         len d12 = len d2 ∧ Cap d12 = Cap d2 ∧ Minsize d12 = Minsize d2).
Proof.
  intros Hwf Hbound Hheld Hstable.
  rewrite (Push_stable zero v vs d), (Unshift_stable zero v vs d)
    by (done || int_range).
  split.
  - destruct (Push_spec zero d vs Hwf Hbound)
      as (d1 & H1 & Hwf1 & _ & Hl1 & _).
    exists d1. split; [done|]. intros w ws Hbound' Hheld' Hstable'.
    rewrite (Push_stable zero w ws d1) by (done || int_range).
    destruct (batches_of_values d vs ws Hwf ltac:(lia))
      as [(d1' & d2 & d12 & E1 & Hrest) _].
    rewrite H1 in E1. injection E1 as <-. by exists d2, d12.
  - destruct (Unshift_spec zero d vs Hwf Hbound)
      as (d1 & H1 & Hwf1 & _ & Hl1 & _).
    exists d1. split; [done|]. intros w ws Hbound' Hheld' Hstable'.
    rewrite (Unshift_stable zero w ws d1) by (done || int_range).
    destruct (batches_of_values d vs ws Hwf ltac:(lia))
      as [_ (d1' & d2 & d12 & E1 & Hrest)].
    rewrite H1 in E1. injection E1 as <-. by exists d2, d12.
Qed.

(** X10: a peek shows what the removal at the same end takes.  On a
    non-empty well-formed deque [Peek] returns the value [Pop] removes
    and [PeekShift] the value [Shift] removes, all with [ok = true]. *)
Theorem X10_peek_shows_what_removal_takes d :
  wf d → 0 < len d →
  ∃ v w d1 d2,
    Peek zero d = Some (d, (v, true)) ∧ Pop zero d = Some (d1, (v, true)) ∧
    PeekShift zero d = Some (d, (w, true)) ∧
    Shift zero d = Some (d2, (w, true)).
Proof.
  intros Hwf Hpos.
  destruct (Peek_spec zero d Hwf Hpos) as (v & HPeek & Hlast).
  destruct (PeekShift_spec zero d Hwf Hpos) as (w & HPeekShift & Hfirst).
  destruct (Pop_spec zero d Hwf Hpos) as (d1 & v' & HPop & _ & Hc1 & _).
  destruct (Shift_spec zero d Hwf Hpos) as (d2 & w' & HShift & _ & Hc2 & _).
  rewrite Hc1, last_snoc in Hlast. injection Hlast as ->.
  rewrite Hc2 in Hfirst. injection Hfirst as ->.
  by exists v, w, d1, d2.
Qed.

(** [ToSlice] on a deque whose head is at index 0. *)
Lemma ToSlice_in_place d :
  wf d → head d = 0 → ToSlice zero d = Some (d, contents d).
Proof.
  intros Hwf Hhead. unfold ToSlice.
  destruct (Z.eqb_spec (len d) 0) as [Hempty|Hsome].
  { unfold contents. by rewrite Hempty. }
  rewrite (proj2 (Z.eqb_eq _ _) Hhead). cbn [negb mbind option_bind].
  by rewrite slice_contents.
Qed.

(** X13: [ToSlice] relocates at most once.  On every well-formed deque
    [ToSlice] returns; the deque is left as it was when it is empty or
    its head is at index 0; and a second [ToSlice] returns the same
    sequence and leaves the state the first one produced. *)
Theorem X13_ToSlice_settles d :
  wf d →
  ∃ d' l, ToSlice zero d = Some (d', l) ∧
          ToSlice zero d' = Some (d', l) ∧
          (len d = 0 ∨ head d = 0 → d' = d).
Proof.
  intros Hwf.
  destruct (Z.eqb_spec (len d) 0) as [Hempty|Hsome].
  { exists d, []. unfold ToSlice. rewrite Hempty. by split_and!. }
  destruct (Z.eqb_spec (head d) 0) as [Hhead|Hhead].
  { exists d, (contents d). rewrite ToSlice_in_place by done. by split_and!. }
  destruct (resize_wf zero d (Cap d) Hwf)
    as (d' & Hres & Hwf' & Hcont' & _ & Hhead' & Hlen' & _);
    [destruct Hwf; lia|].
  exists d', (contents d'). split_and!.
  - unfold ToSlice.
    rewrite (proj2 (Z.eqb_neq _ _) Hsome), (proj2 (Z.eqb_neq _ _) Hhead).
    cbn [negb]. rewrite Hres. cbn [mbind option_bind].
    by rewrite slice_contents.
  - by apply ToSlice_in_place.
  - intros [?|?]; lia.
Qed.

(** X15: the first allocation.  On the zero-valued deque a [Push] or
    an [Unshift] of no value allocates nothing and leaves the deque as
    it is; the first insertion of values that fit the effective
    [Minsize] (the configured one, or [DefaultSize] when it is not
    positive) allocates exactly that many slots and records it in
    [Minsize]. *)
Theorem X15_first_allocation (m s : Z) (vs : list T) :
  m <= GoInt.max_int →
  (Push zero [] (new m s) = Some (new m s) ∧
   Unshift zero [] (new m s) = Some (new m s)) ∧
  (0 < Z.of_nat (length vs) <= effective_minsize m →
   Z.of_nat (length vs) <= 2 ^ 62 →
   (∃ d', Push zero vs (new m s) = Some d' ∧
          Cap d' = effective_minsize m ∧
          Minsize d' = effective_minsize m ∧ contents d' = vs) ∧
   (∃ d', Unshift zero vs (new m s) = Some d' ∧
          Cap d' = effective_minsize m ∧
          Minsize d' = effective_minsize m ∧ contents d' = reverse vs)).
Proof.
  intros Hm. pose proof (wf_new (T := T) m s Hm) as Hwf. split.
  - unfold Push, Unshift. rewrite grow_fits by (done || simpl; lia). done.
  - intros Hfit Hbound.
    assert (Hcap : ∀ d' : Deque.t T,
      (0 + Z.of_nat (length vs) <= 0 ∧ Cap d' = 0 ∧ Minsize d' = m) ∨
      (0 < 0 + Z.of_nat (length vs) ∧
       Minsize d' = effective_minsize m ∧
       ∃ k : nat,
         Cap d' = effective_minsize m * 2 ^ Z.of_nat k ∧
         len d' <= Cap d' ∧ (k = 0%nat ∨ Cap d' < 2 * len d')) →
      len d' = 0 + Z.of_nat (length vs) →
      Cap d' = effective_minsize m ∧ Minsize d' = effective_minsize m).
    { intros d' [(? & _)|(_ & Hmin & k & Hc & Hle & Hk)] Hlen; [lia|].
      split; [|done]. destruct Hk as [->|Hk].
      - change (2 ^ Z.of_nat 0) with 1 in Hc. lia.
      - destruct k as [|k]; [change (2 ^ Z.of_nat 0) with 1 in Hc; lia|].
        rewrite Nat2Z.inj_succ, Z.pow_succ_r in Hc by lia.
        pose proof (Z.pow_pos_nonneg 2 (Z.of_nat k)). nia. }
    split.
    + destruct (Push_spec zero (new m s) vs Hwf ltac:(simpl; lia))
        as (d' & HPush & _ & Hcont & Hlen & _).
      destruct (Push_capacity (new m s) vs Hwf ltac:(simpl; lia))
        as (? & E & _ & _ & K).
      rewrite HPush in E. injection E as <-.
      destruct (Hcap d' K Hlen) as [? ?]. by exists d'.
    + destruct (Unshift_spec zero (new m s) vs Hwf ltac:(simpl; lia))
        as (d' & HUnshift & _ & Hcont & Hlen & _).
      destruct (Unshift_capacity (new m s) vs Hwf ltac:(simpl; lia))
        as (? & E & _ & _ & K).
      rewrite HUnshift in E. injection E as <-.
      destruct (Hcap d' K Hlen) as [? ?]. exists d'.
      split_and!; [done..|]. rewrite Hcont. apply app_nil_r.
Qed.

(** Under [ShrinkNever], draining from the head keeps the buffer size. *)
Lemma calls_Shift_never d (n : nat) :
  wf d → Shrink d = ShrinkNever → Z.of_nat n <= len d →
  ∃ d' rs, calls (Shift zero) n d = Some (d', rs) ∧
           wf d' ∧ contents d' = drop n (contents d) ∧
           len d' = len d - Z.of_nat n ∧ Cap d' = Cap d ∧
           Minsize d' = Minsize d ∧ Shrink d' = ShrinkNever.
Proof.
  revert d. induction n as [|n IH]; intros d Hwf Hnever Hn.
  - exists d, []. simpl. split_and!; try done. lia.
  - destruct (Shift_spec zero d Hwf ltac:(lia))
      as (d1 & v & HShift & Hwf1 & Hcont1 & Hlen1 & Hmin1 & Hsh1 & Hcap1).
    assert (Hcap : Cap d1 = Cap d) by (by destruct Hcap1 as [?|[? _]]).
    destruct (IH d1 Hwf1 ltac:(congruence) ltac:(lia))
      as (d' & rs & Hcalls & Hwf' & Hcont' & Hlen' & Hcap' & Hmin' & Hsh').
    exists d', ((v, true) :: rs). cbn [calls]. rewrite HShift.
    cbn [mbind option_bind]. rewrite Hcalls. cbn [mbind option_bind].
    rewrite Hcont1. simpl. split_and!; try done; try congruence. lia.
Qed.

(** X14: a steady state allocates nothing.  Under [ShrinkNever], on
    every well-formed deque, shifting [n] elements off the head and
    pushing [n] values at the tail leaves the capacity, the length and
    [Minsize] as they were: the freed slots are reused, wrapping at
    the end of the buffer, and the content is the remaining elements
    followed by the new values.  The slice pushed is one that is
    stable after the shifts: none of its elements lies in a slot of
    the buffer that holds no element then, a freed one among them. *)
Theorem X14_steady_state_reuses_slots d (n : nat) :
  wf d → Shrink d = ShrinkNever → Z.of_nat n <= len d →
  ∃ d1 rs,
    calls (Shift zero) n d = Some (d1, rs) ∧
    ∀ (v : variadic T) (vs : list T),
      length vs = n → held v d1 = Some vs → stable v d1 →
      ∃ d2, Push zero v d1 = Some d2 ∧
            Cap d2 = Cap d ∧ len d2 = len d ∧ Minsize d2 = Minsize d ∧
            contents d2 = drop n (contents d) ++ vs.
Proof.
  intros Hwf Hnever Hn. pose proof Hwf as [Hc _ Hl _ _].
  destruct (calls_Shift_never d n Hwf Hnever Hn)
    as (d1 & rs & Hcalls & Hwf1 & Hcont1 & Hlen1 & Hcap1 & Hmin1 & _).
  exists d1, rs. split; [done|]. intros v vs <- Hheld Hstable.
  assert (Hfits : len d1 + Z.of_nat (length vs) <= Cap d1) by lia.
  rewrite (Push_stable zero v vs d1) by (done || int_range).
  destruct (for_range_push vs d1 Hwf1 Hfits)
    as (d2 & Hloop & _ & Hcont2 & Hlen2 & Hcap2 & Hmin2 & _).
  exists d2. split_and!; [|congruence|lia|congruence|].
  - rewrite Push_values. rewrite grow_fits by (done || lia). exact Hloop.
  - by rewrite Hcont2, Hcont1.
Qed.

(** Pushing onto a deque whose head is at index 0 fills the buffer
    in place, after the elements it holds. *)
Lemma for_range_push_in_place (vs : list T) d :
  wf d → head d = 0 → len d + Z.of_nat (length vs) <= Cap d →
  ∃ d', for_range push (Apart <$> vs) d = Some d' ∧ wf d' ∧ head d' = 0 ∧
        len d' = len d + Z.of_nat (length vs) ∧
        dat d' = take (Z.to_nat (len d)) (dat d) ++ vs
                 ++ drop (Z.to_nat (len d) + length vs) (dat d).
Proof.
  revert d. induction vs as [|v vs IH]; intros d Hwf Hhead Hroom.
  - exists d. simpl. split_and!; [done..|lia|].
    by rewrite Nat.add_0_r, take_drop.
  - simpl length in Hroom. pose proof Hwf as [Hc Hm Hl Hh Ht].
    destruct (push_spec d v Hwf ltac:(lia)) as (d1 & Hpush & Hwf1 & _).
    pose proof Hpush as Hpush'.
    rewrite push_writes in Hpush' by (done || lia).
    injection Hpush' as Hd1.
    assert (Htail : tail_of (head d) (len d + 1) (Cap d) = len d).
    { rewrite Hhead. unfold tail_of. cbv zeta. zcases; lia. }
    rewrite Htail in Hd1.
    assert (Hhead1 : head d1 = 0) by (by rewrite <- Hd1).
    assert (Hlen1 : len d1 = len d + 1) by (by rewrite <- Hd1).
    assert (Hdat1 : dat d1 = <[Z.to_nat (len d) := v]> (dat d))
      by (by rewrite <- Hd1).
    assert (Hcap1 : Cap d1 = Cap d).
    { unfold Cap, cap_of. by rewrite Hdat1, length_insert. }
    destruct (IH d1 Hwf1 Hhead1 ltac:(lia))
      as (d' & Hloop & Hwf' & Hhead' & Hlen' & Hdat').
    exists d'. rewrite for_range_values, Hpush. cbn [mbind option_bind].
    split_and!; [done..|simpl length; lia|].
    rewrite Hdat', Hdat1, Hlen1.
    unfold Cap, cap_of in *.
    replace (Z.to_nat (len d + 1)) with (S (Z.to_nat (len d))) by lia.
    rewrite (take_S_r _ _ v) by (apply list_lookup_insert_eq; lia).
    rewrite take_insert_ge by lia.
    rewrite drop_insert_lt by lia.
    rewrite <- app_assoc. simpl. by rewrite Nat.add_succ_r.
Qed.

(** X9: an adopted buffer is used in place.  [WrapSlice] takes the
    whole backing array of the slice as the buffer, its length as the
    length and its visible elements as the content, whatever the deque
    held before.  A [Push] that fits the spare capacity writes its
    values into the adopted array right after the visible elements,
    and allocates nothing.  The slice pushed is a stable one: its
    elements are stored apart from the adopted array, or are visible
    elements of it, not elements of the spare capacity. *)
Theorem X9_adopted_buffer_used_in_place (s : Slice T) d
    (v : variadic T) (vs : list T) :
  cap_of (visible s ++ spare s) <= GoInt.max_int →
  Minsize d <= GoInt.max_int →
  (length vs ≤ length (spare s))%nat →
  held v (WrapSlice s d) = Some vs → stable v (WrapSlice s d) →
  Len (WrapSlice s d) = Z.of_nat (length (visible s)) ∧
  Cap (WrapSlice s d) = Z.of_nat (length (visible s) + length (spare s)) ∧
  dat (WrapSlice s d) = visible s ++ spare s ∧
  contents (WrapSlice s d) = visible s ∧
  ∃ d', Push zero v (WrapSlice s d) = Some d' ∧
        dat d' = visible s ++ vs ++ drop (length vs) (spare s) ∧
        contents d' = visible s ++ vs ∧
        Cap d' = Cap (WrapSlice s d).
Proof.
  intros Hcap Hmin Hfits Hheld Hstable.
  destruct (WrapSlice_spec s d Hcap Hmin)
    as (Hwf & Hcont & Hcap' & Hlen & _).
  assert (Hdat : dat (WrapSlice s d) = visible s ++ spare s).
  { unfold WrapSlice. cbv zeta. simpl. by destruct (_ =? _). }
  assert (Hhead : head (WrapSlice s d) = 0).
  { unfold WrapSlice. cbv zeta. simpl. by destruct (_ =? _). }
  unfold cap_of in Hcap'. rewrite length_app in Hcap'.
  assert (Hroom : len (WrapSlice s d) + Z.of_nat (length vs)
                  <= Cap (WrapSlice s d)) by lia.
  destruct (for_range_push vs _ Hwf Hroom)
    as (d' & Hloop & _ & Hcont' & _ & Hcap'' & _).
  destruct (for_range_push_in_place vs _ Hwf Hhead Hroom)
    as (d'' & Hloop' & _ & _ & _ & Hdat').
  rewrite Hloop in Hloop'. injection Hloop' as <-.
  split_and!; [done..|].
  exists d'. split_and!; [|  |by rewrite Hcont', Hcont|done].
  - rewrite (Push_stable zero v vs (WrapSlice s d));
      [|done|unfold cap_of in Hcap; rewrite length_app in Hcap; lia|done..].
    rewrite Push_values. rewrite grow_fits by (done || lia). exact Hloop.
  - rewrite Hdat', Hdat, Hlen, Nat2Z.id.
    rewrite take_app_length. rewrite drop_app_add. done.
Qed.

(** X11: the doubling loop overflows past [2^62].  When more than
    [2^62] slots are needed, the loop of [grow] started from a power
    of two never leaves, however long it runs: the size doubles up to
    [2^62], wraps to [-2^63] and then to 0, and 0 doubled stays below
    the need.  So [grow] on the zero-valued deque, whose effective
    [Minsize] is such a power (32 by default), does not return. *)
Theorem X11_doubling_overflows (i : nat) (need : Z) :
  (i ≤ 62)%nat → 2 ^ 62 < need →
  (∀ fuel : nat, grow_loop fuel (2 ^ Z.of_nat i) need = None) ∧
  (need <= GoInt.max_int →
   ∀ m s : Z, effective_minsize m = 2 ^ Z.of_nat i →
              grow zero need (new (T := T) m s) = None).
Proof.
  intros Hi Hneed.
  assert (Hloop : ∀ fuel : nat, grow_loop fuel (2 ^ Z.of_nat i) need = None).
  { intros fuel. revert i Hi.
    induction fuel as [|fuel IH]; intros i Hi; [done|].
    cbn [grow_loop].
    assert (Hle : 2 ^ Z.of_nat i <= 2 ^ 62)
      by (apply Z.pow_le_mono_r; lia).
    rewrite (proj2 (Z.ltb_lt _ _)) by lia.
    destruct (decide (i = 62%nat)) as [->|Hlt].
    - change (GoInt.mul (2 ^ Z.of_nat 62) 2) with (- 2 ^ 63).
      destruct fuel as [|fuel]; [done|]. cbn [grow_loop].
      rewrite (proj2 (Z.ltb_lt _ _)) by lia.
      change (GoInt.mul (- 2 ^ 63) 2) with 0.
      apply grow_loop_stuck. lia.
    - unfold GoInt.mul.
      replace (2 ^ Z.of_nat i * 2) with (2 ^ Z.of_nat (S i))
        by (rewrite Nat2Z.inj_succ, Z.pow_succ_r by lia; lia).
      assert (2 ^ Z.of_nat (S i) <= 2 ^ 62)
        by (apply Z.pow_le_mono_r; lia).
      pose proof (Z.pow_pos_nonneg 2 (Z.of_nat (S i))).
      rewrite wrap_small by int_range.
      apply IH. lia. }
  split; [exact Hloop|].
  intros Hmax m s Heff. set (d0 := new (T := T) m s).
  unfold grow, GoInt.add. cbv zeta.
  change (len d0) with 0. change (Cap d0) with 0.
  rewrite wrap_small by int_range.
  rewrite (proj2 (Z.ltb_lt _ _)) by lia.
  set (d1 := if Minsize d0 <=? 0 then with_Minsize DefaultSize d0 else d0).
  assert (Hsize : Minsize d1 = 2 ^ Z.of_nat i).
  { rewrite <- Heff. unfold d1, effective_minsize.
    change (Minsize d0) with m. by destruct (m <=? 0). }
  assert (Hcap : Cap d1 = 0) by (unfold d1; by destruct (_ <=? 0)).
  assert (Hlen : len d1 = 0) by (unfold d1; by destruct (_ <=? 0)).
  rewrite Hcap, Hlen, Hsize. change (0 =? 0) with true. cbv iota.
  rewrite wrap_small by int_range.
  change (0 + need) with need. by rewrite Hloop.
Qed.

(** Every sequence of operations within the volume runs to its end
    and keeps the deque well formed. *)
Lemma run_safe (os : list (op T)) d :
  wf d → len d + total_volume os <= 2 ^ 62 →
  ∃ d', run zero os d = Some d' ∧ wf d'.
Proof.
  revert d. induction os as [|o os IH]; intros d Hwf Hvol; [by exists d|].
  cbn [total_volume] in Hvol.
  assert (Hvols : 0 <= total_volume os).
  { clear. induction os as [|[] os IH]; simpl; lia. }
  destruct (step_spec zero o d Hwf ltac:(lia))
    as (d1 & Hstep & Hwf1 & Hlen1 & _).
  destruct (IH d1 Hwf1 ltac:(lia)) as (d' & Hrun & Hwf').
  exists d'. cbn [run]. rewrite Hstep. by cbn [mbind option_bind].
Qed.

(** The tail cursor, in modular terms. *)
Lemma tail_of_mod (h n c : Z) :
  0 <= h < c → 0 <= n <= c → tail_of h n c = (h + n - 1) mod c.
Proof.
  intros Hh Hn. unfold tail_of. cbv zeta.
  destruct (Z.ltb_spec (h + n - 1) 0).
  - apply (Z.mod_unique _ _ (-1)); lia.
  - destruct (Z.ltb_spec (h + n - 1) c).
    + symmetry. apply Z.mod_small. lia.
    + apply (Z.mod_unique _ _ 1); lia.
Qed.

(** X3: no sequence of public operations panics or breaks the
    cursors.  From the zero-valued deque, every sequence of public
    operations (handling at most [2^62] elements in all) runs to its
    end without an index or a slice out of range, and then the length
    is between 0 and the capacity, [Len] counts the content, and on an
    allocated buffer head and tail are indices into it with the tail
    [len - 1] slots after the head modulo the capacity. *)
Theorem X3_operations_keep_the_cursors_in_range (m s : Z)
    (os : list (op T)) :
  m <= GoInt.max_int → total_volume os <= 2 ^ 62 →
  ∃ d, run zero os (new m s) = Some d ∧
       0 <= len d <= Cap d ∧
       Len d = Z.of_nat (length (contents d)) ∧
       (0 < Cap d →
        0 <= head d < Cap d ∧ 0 <= tail d < Cap d ∧
        tail d = (head d + len d - 1) mod Cap d).
Proof.
  intros Hm Hvol.
  destruct (run_safe os (new m s) (wf_new m s Hm)) as (d & Hrun & Hwf);
    [simpl; lia|].
  exists d. pose proof (contents_length d Hwf) as Hlen.
  destruct Hwf as [Hc _ Hl Hh Ht].
  split_and!; [done|lia|lia|by rewrite Hlen|].
  intros Hpos. specialize (Hh Hpos). specialize (Ht Hpos).
  pose proof (tail_of_range (head d) (len d) (Cap d) Hh Hl) as Hrange.
  rewrite <- Ht in Hrange.
  split_and!; [lia..|]. rewrite Ht. by apply tail_of_mod.
Qed.

Lemma contents_empty d : len d <= 0 → contents d = [].
Proof.
  intros Hlen. unfold contents.
  by replace (Z.to_nat (len d)) with 0%nat by lia.
Qed.

(** Each operation does to the content what the reference model does
    to a list, and returns what the model returns. *)
Lemma exec_refines (o : op T) d :
  wf d → len d + volume o <= 2 ^ 62 →
  ∃ d' r, exec zero o d = Some (d', r) ∧ wf d' ∧
          len d' <= len d + volume o ∧
          contents d' = (model_exec zero o (contents d)).1 ∧
          agrees r (model_exec zero o (contents d)).2.
Proof.
  intros Hwf Hvol. pose proof Hwf as [Hc Hm Hl Hh Ht].
  destruct o as [v|v| | | | | | | |s]; simpl in *.
  - destruct (Push_spec zero d v Hwf Hvol)
      as (d' & -> & Hwf' & Hcont & Hlen & _).
    exists d', RNone. split_and!; [done..|lia|done|done].
  - destruct (Unshift_spec zero d v Hwf Hvol)
      as (d' & -> & Hwf' & Hcont & Hlen & _).
    exists d', RNone. split_and!; [done..|lia|done|done].
  - destruct (decide (0 < len d)) as [Hpos|Hempty].
    + destruct (Pop_spec zero d Hwf Hpos)
        as (d' & v & -> & Hwf' & Hcont & Hlen & _).
      exists d', (RValue v true). split_and!; [done..|lia| |].
      * rewrite Hcont, length_app. simpl.
        by rewrite Nat.add_sub, take_app_length.
      * by rewrite Hcont, last_snoc.
    + rewrite Pop_empty, contents_empty by lia.
      exists d, (RValue zero false). simpl.
      split_and!; [done..|lia| |done]. apply contents_empty. lia.
  - destruct (decide (0 < len d)) as [Hpos|Hempty].
    + destruct (Shift_spec zero d Hwf Hpos)
        as (d' & v & -> & Hwf' & Hcont & Hlen & _).
      exists d', (RValue v true). split_and!; [done..|lia| |].
      * by rewrite Hcont.
      * by rewrite Hcont.
    + rewrite Shift_empty, contents_empty by lia.
      exists d, (RValue zero false). simpl.
      split_and!; [done..|lia| |done]. apply contents_empty. lia.
  - destruct (decide (0 < len d)) as [Hpos|Hempty].
    + destruct (Peek_spec zero d Hwf Hpos) as (v & -> & ->).
      exists d, (RValue v true). split_and!; [done..|lia|done|done].
    + rewrite Peek_empty, contents_empty by lia.
      exists d, (RValue zero false). simpl.
      split_and!; [done..|lia| |done]. apply contents_empty. lia.
  - destruct (decide (0 < len d)) as [Hpos|Hempty].
    + destruct (PeekShift_spec zero d Hwf Hpos) as (v & -> & ->).
      exists d, (RValue v true). split_and!; [done..|lia|done|done].
    + rewrite PeekShift_empty, contents_empty by lia.
      exists d, (RValue zero false). simpl.
      split_and!; [done..|lia| |done]. apply contents_empty. lia.
  - exists d, (RInt (Len d)). split_and!; [done..|lia|done|].
    unfold Len. by rewrite contents_length.
  - exists d, (RInt (Cap d)). split_and!; [done..|lia|done|done].
  - destruct (ToSlice_spec zero d Hwf)
      as (d' & -> & Hwf' & Hcont & Hlen & _).
    exists d', (RSlice (contents d)). split_and!; [done..|lia|done|done].
  - destruct (WrapSlice_spec s d) as (Hwf' & Hcont & _ & Hlen & _);
      [unfold cap_of; int_range|done|].
    exists (WrapSlice s d), RNone. split_and!; [done..| |done|done].
    rewrite Hlen, length_app. lia.
Qed.

Lemma trace_refines (os : list (op T)) d :
  wf d → len d + total_volume os <= 2 ^ 62 →
  ∃ d' rs, trace zero os d = Some (d', rs) ∧
           contents d' = (model_trace zero os (contents d)).1 ∧
           Forall2 agrees rs (model_trace zero os (contents d)).2.
Proof.
  revert d. induction os as [|o os IH]; intros d Hwf Hvol.
  { exists d, []. by split_and!. }
  cbn [total_volume] in Hvol.
  assert (Hvols : 0 <= total_volume os).
  { clear. induction os as [|[] os IH]; simpl; lia. }
  destruct (exec_refines o d Hwf ltac:(lia))
    as (d1 & r & Hexec & Hwf1 & Hlen1 & Hcont1 & Hr).
  destruct (IH d1 Hwf1 ltac:(lia)) as (d' & rs & Htrace & Hcont' & Hrs).
  exists d', (r :: rs). cbn [trace model_trace].
  rewrite Hexec. cbn [mbind option_bind]. rewrite Htrace.
  cbn [mbind option_bind].
  destruct (model_exec zero o (contents d)) as [l1 m1] eqn:Hm.
  simpl in Hcont1, Hr. rewrite Hcont1 in Hcont', Hrs.
  destruct (model_trace zero os l1) as [l' ms] eqn:Hms.
  simpl in *. split_and!; [done..|]. by constructor.
Qed.

(** X4: the deque behaves as a list, for calls that pass their values
    in storage of their own.  From the zero-valued deque, every
    sequence of public operations in which [Push] and [Unshift] get
    listed values or a slice that shares no array with the deque
    (the calls [OpPush] and [OpUnshift] stand for, through [values]),
    handling at most [2^62] elements in all, runs to its end; the
    values the calls return are those the reference model returns on a
    plain list ([Cap] apart, which the model does not have), and the
    content at the end is the model's list.  [ToSlice] and [WrapSlice]
    are among the operations, but no slice they share with the caller
    is passed back. *)
Theorem X4_deque_refines_list (m s : Z) (os : list (op T)) :
  m <= GoInt.max_int → total_volume os <= 2 ^ 62 →
  ∃ d rs, trace zero os (new m s) = Some (d, rs) ∧
          contents d = (model_trace zero os []).1 ∧
          Forall2 agrees rs (model_trace zero os []).2.
Proof.
  intros Hm Hvol.
  apply (trace_refines os (new m s) (wf_new m s Hm)). simpl. lia.
Qed.

(** X16: adopting and linearising are inverse.  [ToSlice] right after
    [WrapSlice] returns the visible elements of the adopted slice and
    leaves the deque as it is, without reallocating.  Conversely, on a
    non-empty well-formed deque, adopting the slice [ToSlice] returns
    (its elements, with the rest of the buffer as spare capacity)
    gives back the state [ToSlice] left. *)
Theorem X16_adopt_and_linearise (s : Slice T) d :
  (cap_of (visible s ++ spare s) <= GoInt.max_int →
   Minsize d <= GoInt.max_int →
   ToSlice zero (WrapSlice s d) = Some (WrapSlice s d, visible s)) ∧
  (wf d → 0 < len d →
   ∃ d' l, ToSlice zero d = Some (d', l) ∧
           WrapSlice (mkSlice l (drop (length l) (dat d'))) d' = d').
Proof.
  split.
  - intros Hcap Hmin.
    destruct (WrapSlice_spec s d Hcap Hmin) as (Hwf & Hcont & _).
    rewrite ToSlice_in_place, Hcont; [done..|].
    unfold WrapSlice. cbv zeta. simpl. by destruct (_ =? _).
  - intros Hwf Hpos.
    assert (Hre : ∀ d', wf d' → head d' = 0 → 0 < len d' →
              WrapSlice (mkSlice (contents d')
                           (drop (length (contents d')) (dat d'))) d' = d').
    { intros d' Hwf' Hhead Hpos'.
      pose proof (contents_length d' Hwf') as Hlen.
      destruct Hwf' as [Hc Hm Hl Hh Ht].
      specialize (Ht ltac:(lia)).
      assert (Hdat : contents d' ++ drop (length (contents d')) (dat d')
                     = dat d').
      { unfold contents, ring at 1. rewrite Hhead.
        change (Z.to_nat 0) with 0%nat. rewrite drop_0, take_0, app_nil_r.
        replace (length (ring 0 (Z.to_nat (len d')) (dat d')))
          with (Z.to_nat (len d')); [apply take_drop|].
        fold (contents d') in *. unfold contents in Hlen.
        rewrite Hhead in Hlen. change (Z.to_nat 0) with 0%nat in Hlen. lia. }
      unfold WrapSlice. cbv zeta.
      unfold with_dat, with_len, with_head, with_tail, Cap, GoInt.sub.
      simpl. rewrite Hdat, Hlen.
      rewrite (proj2 (Z.eqb_neq (len d') 0)) by lia. simpl.
      rewrite wrap_small by (unfold Cap, cap_of in *; int_range).
      destruct d' as [ms sh hd tl n l']. simpl in *. subst hd.
      f_equal. rewrite Ht. unfold tail_of. cbv zeta.
      unfold Cap, cap_of in *. simpl in *. zcases; lia. }
    destruct (Z.eqb_spec (head d) 0) as [Hhead|Hhead].
    + exists d, (contents d). split; [by apply ToSlice_in_place|].
      by apply Hre.
    + destruct (resize_wf zero d (Cap d) Hwf)
        as (d' & Hres & Hwf' & Hcont' & _ & Hhead' & Hlen' & _);
        [destruct Hwf; lia|].
      exists d', (contents d'). split.
      * unfold ToSlice.
        rewrite (proj2 (Z.eqb_neq (len d) 0)) by lia.
        rewrite (proj2 (Z.eqb_neq _ _) Hhead).
        cbn [negb]. rewrite Hres. cbn [mbind option_bind].
        by rewrite slice_contents.
      * apply Hre; [done..|lia].
Qed.

(** [shrink] under [ShrinkAt20Pct], within the range of [len * 5]. *)
Lemma shrink_at_20_percent_eval d :
  Shrink d = ShrinkAt20Pct → 0 <= len d → len d * 5 <= GoInt.max_int →
  shrink zero d =
    if (len d <=? Minsize d) && negb (Cap d =? Minsize d)
       && (len d * 5 <=? Cap d)
    then resize zero (Minsize d) d else Some d.
Proof.
  intros Hpolicy Hlen Hfive. unfold shrink, GoInt.mul.
  rewrite Hpolicy, wrap_small by int_range.
  change (ShrinkAt20Pct =? ShrinkNever) with false.
  change (ShrinkAt20Pct =? ShrinkAt20Pct) with true.
  change (ShrinkAt20Pct =? ShrinkIfEmpty) with false.
  cbn [andb orb negb].
  destruct (Z.ltb_spec (Minsize d) (len d)),
    (Z.leb_spec (len d) (Minsize d)); try lia; cbn [andb orb negb]; [done|].
  destruct (Cap d =? Minsize d); cbn [andb orb negb]; [done|].
  destruct (Z.ltb_spec (Cap d) (len d * 5)),
    (Z.leb_spec (len d * 5) (Cap d)); try lia; done.
Qed.

(** X17: growing and shrinking do not alternate.  Under
    [ShrinkAt20Pct], when a [Push] had to grow the buffer, the [Pop]
    or [Shift] that follows it keeps the capacity the [Push] reached:
    a buffer that has just doubled is more than 20 percent full. *)
Theorem X17_no_shrink_right_after_growth d (vs : list T) :
  wf d → Shrink d = ShrinkAt20Pct →
  len d + Z.of_nat (length vs) <= 2 ^ 60 →
  Cap d < len d + Z.of_nat (length vs) →
  ∃ d1 d2 d3 v w,
    Push zero vs d = Some d1 ∧ Cap d < Cap d1 ∧
    Pop zero d1 = Some (d2, (v, true)) ∧ Cap d2 = Cap d1 ∧
    Shift zero d1 = Some (d3, (w, true)) ∧ Cap d3 = Cap d1.
Proof.
  intros Hwf Hpolicy Hbound Hgrow. pose proof Hwf as [Hc _ Hl _ _].
  destruct (Push_spec zero d vs Hwf ltac:(lia))
    as (d1 & HPush & Hwf1 & _ & Hlen1 & Hsh1 & _).
  destruct (Push_capacity d vs Hwf ltac:(lia)) as (? & E & _ & _ & K).
  rewrite HPush in E. injection E as <-.
  destruct K as [(? & _)|(_ & Hmin1 & k & Hcap1 & Hle1 & Hk)]; [lia|].
  pose proof (effective_minsize_pos (Minsize d)) as Heff.
  assert (Hpow : 1 <= 2 ^ Z.of_nat k)
    by (pose proof (Z.pow_pos_nonneg 2 (Z.of_nat k)); lia).
  assert (Hkeep : ¬ ((len d1 - 1 <= Minsize d1 ∧ Cap d1 ≠ Minsize d1)
                     ∧ (len d1 - 1) * 5 <= Cap d1)).
  { intros [[_ Hne] Hfive].
    assert (Hbase : Cap d1 = (if Cap d =? 0
                              then effective_minsize (Minsize d)
                              else Cap d) → False).
    { destruct (Z.eqb_spec (Cap d) 0); lia. }
    destruct Hk as [->|Hk].
    - change (2 ^ Z.of_nat 0) with 1 in Hcap1. apply Hbase. lia.
    - assert (len d1 = 1) by lia. assert (Cap d1 = 1) by lia.
      apply Hbase. destruct (Z.eqb_spec (Cap d) 0); nia. }
  destruct (Pop_unfold zero d1 Hwf1 ltac:(lia)) as (v & _ & _ & Hwfp & HPop).
  destruct (Shift_unfold zero d1 Hwf1 ltac:(lia))
    as (w & _ & _ & Hwfs & HShift).
  rewrite shrink_at_20_percent_eval in HPop
    by (simpl; (congruence || (unfold GoInt.max_int; lia))).
  rewrite shrink_at_20_percent_eval in HShift
    by (simpl; (congruence || (unfold GoInt.max_int; lia))).
  simpl in HPop, HShift.
  assert (Hcond : (len d1 - 1 <=? Minsize d1)
                  && negb (Cap d1 =? Minsize d1)
                  && ((len d1 - 1) * 5 <=? Cap d1) = false).
  { apply not_true_is_false. intros Htrue.
    apply andb_prop in Htrue as [Htrue H5].
    apply andb_prop in Htrue as [Hfit Hne].
    apply Hkeep. split_and!.
    - by apply Z.leb_le.
    - intros Heq. apply Z.eqb_eq in Heq. by rewrite Heq in Hne.
    - by apply Z.leb_le. }
  unfold Cap in HPop, HShift, Hcond. simpl in HPop, HShift.
  rewrite Hcond in HPop, HShift.
  cbn [mbind option_bind] in HPop, HShift.
  eexists d1, _, _, v, w. split_and!; [done|lia|exact HPop|done|exact HShift|done].
Qed.

(** [ToSlice], for the elements it returns. *)
Lemma ToSlice_linear d :
  wf d →
  ∃ d', ToSlice zero d = Some (d', contents d) ∧ wf d' ∧
        contents d' = contents d ∧ len d' = len d ∧
        (0 < len d → head d' = 0).
Proof.
  intros Hwf.
  destruct (Z.eqb_spec (head d) 0) as [Hhead|Hhead].
  { exists d. rewrite ToSlice_in_place by done. by split_and!. }
  destruct (Z.eqb_spec (len d) 0) as [Hempty|Hsome].
  { exists d. unfold ToSlice, contents. rewrite Hempty.
    split_and!; [done..|lia]. }
  destruct (resize_wf zero d (Cap d) Hwf)
    as (d' & Hres & Hwf' & Hcont' & _ & Hhead' & Hlen' & _);
    [destruct Hwf; lia|].
  exists d'. split_and!; [|done..].
  unfold ToSlice.
  rewrite (proj2 (Z.eqb_neq _ _) Hsome), (proj2 (Z.eqb_neq _ _) Hhead).
  cbn [negb]. rewrite Hres. cbn [mbind option_bind].
  by rewrite slice_contents, Hcont'.
Qed.

(** A window of a buffer whose head is at index 0, inside the
    elements the deque holds. *)
Lemma window_held d (lo n : nat) :
  wf d → head d = 0 → Z.of_nat (lo + n) <= len d →
  held (window lo n) d = Some (take n (drop lo (contents d))) ∧
  forallb (kept d) (places (window lo n)) = true.
Proof.
  intros Hwf Hhead Hin. pose proof Hwf as [Hc Hm Hl Hh Ht].
  assert (Hcont : contents d = take (Z.to_nat (len d)) (dat d)).
  { unfold contents. rewrite Hhead. change (Z.to_nat 0) with 0%nat.
    rewrite ring_flat by (unfold Cap, cap_of in *; lia).
    by rewrite drop_0. }
  unfold Cap, cap_of in *.
  split.
  - unfold held, window. cbn [places]. apply mapM_Some.
    apply Forall2_same_length_lookup. split.
    + rewrite length_fmap, length_seq, length_take, length_drop.
      rewrite Hcont, length_take. lia.
    + intros i p y Hp Hy.
      rewrite list_lookup_fmap in Hp.
      destruct (seq lo n !! i) as [k|] eqn:Hk; [|done].
      apply lookup_seq in Hk as [-> Hi]. injection Hp as <-.
      cbn [fetch]. rewrite lookup_take_lt in Hy by lia.
      rewrite lookup_drop, Hcont in Hy.
      by rewrite lookup_take_lt in Hy by lia.
  - unfold window. cbn [places]. apply forallb_forall.
    intros p Hp. apply in_map_iff in Hp as (k & <- & Hk).
    apply in_seq in Hk. cbn [kept]. unfold occupied. cbv zeta.
    rewrite Hhead. unfold Cap, cap_of.
    rewrite (proj2 (Z.leb_le (0 + len d) _)) by lia.
    rewrite !andb_true_iff, Z.leb_le, !Z.ltb_lt. lia.
Qed.

(** X18: a slice of elements the deque holds can be handed back to
    it.  [ToSlice] returns a slice [s] of the deque's own buffer; a
    [Push] or an [Unshift] of [s[lo : lo+n]] right after it inserts
    the values of that part of the content, whether the call has room
    or reallocates: the slots it reads are not the ones it writes.
    With [lo = 0] and [n = len] the deque is appended to itself. *)
Theorem X18_live_elements_can_be_passed_back d (lo n : nat) :
  wf d → Z.of_nat (lo + n) <= len d → len d + Z.of_nat n <= 2 ^ 62 →
  ∃ d1 l,
    ToSlice zero d = Some (d1, l) ∧
    held (window lo n) d1 = Some (take n (drop lo l)) ∧
    (∃ d2, Push zero (window lo n) d1 = Some d2 ∧
           contents d2 = l ++ take n (drop lo l)) ∧
    (∃ d2, Unshift zero (window lo n) d1 = Some d2 ∧
           contents d2 = reverse (take n (drop lo l)) ++ l).
Proof.
  intros Hwf Hin Hbound.
  destruct (ToSlice_linear d Hwf) as (d1 & HTo & Hwf1 & Hcont1 & Hlen1 & Hhead1).
  exists d1, (contents d). split; [done|].
  assert (Hlen : Z.of_nat (length (take n (drop lo (contents d))))
                 = Z.of_nat n).
  { pose proof (contents_length d Hwf).
    rewrite length_take, length_drop. lia. }
  assert (Hw : held (window lo n) d1 = Some (take n (drop lo (contents d)))
               ∧ stable (window lo n) d1).
  { destruct (decide (n = 0%nat)) as [->|Hn].
    - split; [by rewrite take_0|by right].
    - destruct (window_held d1 lo n Hwf1) as [Hheld Hkept];
        [apply Hhead1; lia|lia|].
      rewrite Hcont1 in Hheld. split; [done|by right]. }
  destruct Hw as [Hheld Hstable]. split; [done|].
  rewrite (Push_stable zero (window lo n) (take n (drop lo (contents d))) d1),
    (Unshift_stable zero (window lo n) (take n (drop lo (contents d))) d1)
    by (done || int_range).
  split.
  - destruct (Push_spec zero d1 (take n (drop lo (contents d))) Hwf1
                ltac:(lia)) as (d2 & HPush & _ & Hcont2 & _).
    exists d2. by rewrite Hcont2, Hcont1.
  - destruct (Unshift_spec zero d1 (take n (drop lo (contents d))) Hwf1
                ltac:(lia)) as (d2 & HUnshift & _ & Hcont2 & _).
    exists d2. by rewrite Hcont2, Hcont1.
Qed.

(** The loop of [Push] over a window that starts at the tail slot. *)
Lemma for_range_push_smear (n : nat) d x :
  wf d → len d + Z.of_nat n <= Cap d → tail d + Z.of_nat n < Cap d →
  dat d !! Z.to_nat (tail d) = Some x →
  ∃ d', for_range push (Within <$> seq (Z.to_nat (tail d)) n) d = Some d' ∧
        contents d' = contents d ++ replicate n x.
Proof.
  revert d. induction n as [|n IH]; intros d Hwf Hroom Hflat Hx.
  { exists d. by rewrite app_nil_r. }
  pose proof Hwf as [Hc Hm Hl Hh Ht].
  assert (Hcap : 0 < Cap d).
  { apply lookup_lt_Some in Hx. unfold Cap, cap_of. lia. }
  specialize (Hh Hcap). specialize (Ht Hcap).
  pose proof (tail_of_range (head d) (len d) _ Hh ltac:(lia)) as Htl.
  pose proof (tail_of_succ (head d) (len d) _ Hh ltac:(lia)) as Hsucc.
  rewrite <- Ht in Htl, Hsucc.
  rewrite (proj2 (Z.eqb_neq _ _)) in Hsucc by lia.
  destruct (push_spec d x Hwf ltac:(lia))
    as (d1 & Hpush & Hwf1 & Hcont1 & Hlen1 & Hcap1 & _).
  pose proof Hpush as Hpush'.
  rewrite push_writes in Hpush' by (done || lia).
  injection Hpush' as Hd1. rewrite <- Hsucc in Hd1.
  assert (Htail1 : tail d1 = tail d + 1) by (by rewrite <- Hd1).
  assert (Hdat1 : dat d1 = <[Z.to_nat (tail d + 1) := x]> (dat d))
    by (by rewrite <- Hd1).
  destruct (IH d1 Hwf1) as (d' & Hloop & Hcont'); [lia|lia| |].
  { rewrite Htail1, Hdat1. apply list_lookup_insert_eq.
    unfold Cap, cap_of in *. lia. }
  exists d'. cbn [seq fmap list_fmap for_range fetch].
  rewrite Hx. cbn [mbind option_bind]. rewrite Hpush.
  cbn [mbind option_bind].
  replace (S (Z.to_nat (tail d))) with (Z.to_nat (tail d1))
    by (rewrite Htail1; lia).
  split; [exact Hloop|].
  rewrite Hcont', Hcont1, <- app_assoc. done.
Qed.

(** X19: a slice that starts at the tail slot is smeared.  When [Push]
    has room and is handed the slice [d.dat[t : t+n]] whose first
    element is in the tail slot [t] (the last element of a non-empty
    deque), each turn of the loop writes the slot the next turn reads:
    the value [x] of the tail slot is inserted [n] times, whatever the
    slice held after it. *)
Theorem X19_slice_from_the_tail_slot_is_smeared d (n : nat) x :
  wf d → len d + Z.of_nat n <= Cap d → tail d + Z.of_nat n < Cap d →
  dat d !! Z.to_nat (tail d) = Some x →
  held (window (Z.to_nat (tail d)) n) d
    = Some (take n (drop (Z.to_nat (tail d)) (dat d))) ∧
  ∃ d', Push zero (window (Z.to_nat (tail d)) n) d = Some d' ∧
        contents d' = contents d ++ replicate n x.
Proof.
  intros Hwf Hroom Hflat Hx. pose proof Hwf as [Hc Hm Hl Hh Ht].
  assert (Hcap : 0 < Cap d).
  { apply lookup_lt_Some in Hx. unfold Cap, cap_of. lia. }
  specialize (Hh Hcap). specialize (Ht Hcap).
  pose proof (tail_of_range (head d) (len d) _ Hh ltac:(lia)) as Htl.
  rewrite <- Ht in Htl. split.
  - unfold held, window. cbn [places]. apply mapM_Some.
    apply Forall2_same_length_lookup. unfold Cap, cap_of in *. split.
    + rewrite length_fmap, length_seq, length_take, length_drop. lia.
    + intros i p y Hp Hy.
      rewrite list_lookup_fmap in Hp.
      destruct (seq _ n !! i) as [k|] eqn:Hk; [|done].
      apply lookup_seq in Hk as [-> Hi]. injection Hp as <-.
      cbn [fetch]. rewrite lookup_take_lt in Hy by lia.
      by rewrite lookup_drop in Hy.
  - destruct (for_range_push_smear n d x Hwf Hroom Hflat Hx)
      as (d' & Hloop & Hcont').
    exists d'. split; [|done].
    unfold Push, window. cbn [places]. cbv zeta.
    rewrite length_fmap, length_seq.
    rewrite grow_fits by (done || lia). cbn [mbind option_bind].
    assert (Hstay : reallocates (Z.of_nat n) d = false).
    { unfold reallocates, GoInt.add. rewrite wrap_small by int_range.
      apply Z.ltb_ge. lia. }
    rewrite Hstay. cbn [mbind option_bind]. exact Hloop.
Qed.

(** The loops over any slice whose elements can be read: the cursors
    and the capacity end up where the values alone would put them. *)
Lemma readable_step d d' (v : list (place T)) :
  Cap d' = Cap d →
  Forall (λ p, is_Some (fetch (dat d) p)) v →
  Forall (λ p, is_Some (fetch (dat d') p)) v.
Proof.
  intros Hcap Hread. eapply Forall_impl; [exact Hread|].
  intros [x|i]; [done|]. cbn [fetch].
  rewrite !lookup_lt_is_Some. unfold Cap, cap_of in Hcap. lia.
Qed.

Lemma for_range_push_shape (v : list (place T)) d :
  wf d → len d + Z.of_nat (length v) <= Cap d →
  Forall (λ p, is_Some (fetch (dat d) p)) v →
  ∃ d' ws, for_range push v d = Some d' ∧ wf d' ∧
           contents d' = contents d ++ ws ∧ length ws = length v ∧
           hd_error ws = (p ← hd_error v; fetch (dat d) p) ∧
           len d' = len d + Z.of_nat (length v) ∧ Cap d' = Cap d ∧
           Minsize d' = Minsize d ∧ Shrink d' = Shrink d.
Proof.
  revert d. induction v as [|p v IH]; intros d Hwf Hroom Hread.
  - exists d, []. rewrite app_nil_r. split_and!; try done. simpl. lia.
  - apply Forall_cons in Hread as [[x Hx] Hread]. cbn [length] in Hroom.
    destruct (push_spec d x Hwf ltac:(lia))
      as (d1 & Hpush & Hwf1 & Hcont1 & Hlen1 & Hcap1 & Hmin1 & Hsh1).
    destruct (IH d1 Hwf1 ltac:(lia) (readable_step d d1 v Hcap1 Hread))
      as (d' & ws & Hloop & Hwf' & Hcont' & Hlen & _ & Hlen' & Hcap' & Hmin'
          & Hsh').
    exists d', (x :: ws). cbn [for_range]. rewrite Hx.
    cbn [mbind option_bind]. rewrite Hpush. cbn [mbind option_bind].
    split_and!; try done; try congruence.
    + by rewrite Hcont', Hcont1, <- app_assoc.
    + simpl. by rewrite Hlen.
    + cbn [length]. lia.
Qed.

Lemma for_range_unshift_shape (v : list (place T)) d :
  wf d → len d + Z.of_nat (length v) <= Cap d →
  Forall (λ p, is_Some (fetch (dat d) p)) v →
  ∃ d' ws, for_range unshift v d = Some d' ∧ wf d' ∧
           contents d' = reverse ws ++ contents d ∧ length ws = length v ∧
           hd_error ws = (p ← hd_error v; fetch (dat d) p) ∧
           len d' = len d + Z.of_nat (length v) ∧ Cap d' = Cap d ∧
           Minsize d' = Minsize d ∧ Shrink d' = Shrink d.
Proof.
  revert d. induction v as [|p v IH]; intros d Hwf Hroom Hread.
  - exists d, []. split_and!; try done. simpl. lia.
  - apply Forall_cons in Hread as [[x Hx] Hread]. cbn [length] in Hroom.
    destruct (unshift_spec d x Hwf ltac:(lia))
      as (d1 & Hpush & Hwf1 & Hcont1 & Hlen1 & Hcap1 & Hmin1 & Hsh1).
    destruct (IH d1 Hwf1 ltac:(lia) (readable_step d d1 v Hcap1 Hread))
      as (d' & ws & Hloop & Hwf' & Hcont' & Hlen & _ & Hlen' & Hcap' & Hmin'
          & Hsh').
    exists d', (x :: ws). cbn [for_range]. rewrite Hx.
    cbn [mbind option_bind]. rewrite Hpush. cbn [mbind option_bind].
    split_and!; try done; try congruence.
    + by rewrite Hcont', Hcont1, reverse_cons, <- app_assoc.
    + simpl. by rewrite Hlen.
    + cbn [length]. lia.
Qed.

Lemma held_readable (v : variadic T) vs d :
  held v d = Some vs →
  Forall (λ p, is_Some (fetch (dat d) p)) (places v) ∧
  (p ← hd_error (places v); fetch (dat d) p) = hd_error vs.
Proof.
  unfold held. intros Hheld. apply mapM_Some in Hheld. split.
  - induction Hheld; constructor; [by eexists|done].
  - destruct Hheld as [|p x ps xs Hp _]; [done|]. exact Hp.
Qed.

(** X20: a shared slice can spoil values, never the structure.  For
    every slice whose elements can be read when the call is made,
    wherever they are stored, [Push] and [Unshift] complete and leave
    a well-formed deque with the length, the capacity, [Minsize] and
    the policy that the call with the slice's values listed leaves.
    The elements the deque held are still there, in order, next to as
    many inserted values as the slice has elements; the first value
    inserted is the first the slice held, since the loop reads it
    before it writes anything. *)
Theorem X20_sharing_changes_inserted_values_only d (v : variadic T)
    (vs : list T) :
  wf d → len d + Z.of_nat (length vs) <= 2 ^ 62 → held v d = Some vs →
  (∃ d' d'' ws,
     Push zero v d = Some d' ∧ Push zero vs d = Some d'' ∧ wf d' ∧
     contents d' = contents d ++ ws ∧ length ws = length vs ∧
     hd_error ws = hd_error vs ∧
     len d' = len d'' ∧ Cap d' = Cap d'' ∧ Minsize d' = Minsize d'' ∧
     Shrink d' = Shrink d'') ∧
  (∃ d' d'' ws,
     Unshift zero v d = Some d' ∧ Unshift zero vs d = Some d'' ∧ wf d' ∧
     contents d' = reverse ws ++ contents d ∧ length ws = length vs ∧
     hd_error ws = hd_error vs ∧
     len d' = len d'' ∧ Cap d' = Cap d'' ∧ Minsize d' = Minsize d'' ∧
     Shrink d' = Shrink d'').
Proof.
  intros Hwf Hbound Hheld. pose proof Hwf as [Hc Hm Hl Hh Ht].
  pose proof (held_length v d vs Hheld) as Hlen.
  destruct (held_readable v vs d Hheld) as [Hread Hfirst].
  destruct (Push_spec zero d vs Hwf Hbound)
    as (dp & HPush & Hwfp & Hcontp & Hlenp & Hshp & Hcapp).
  destruct (Unshift_spec zero d vs Hwf Hbound)
    as (du & HUnshift & Hwfu & Hcontu & Hlenu & Hshu & Hcapu).
  destruct (reallocates (Z.of_nat (length (places v))) d) eqn:Hmoved.
  - rewrite (Push_stable zero v vs d), (Unshift_stable zero v vs d)
      by (done || int_range || by left).
    split.
    + by exists dp, dp, vs.
    + by exists du, du, vs.
  - assert (Hroom : len d + Z.of_nat (length (places v)) <= Cap d).
    { unfold reallocates, GoInt.add in Hmoved.
      rewrite wrap_small in Hmoved by int_range.
      apply Z.ltb_ge in Hmoved. lia. }
    split.
    + destruct (for_range_push_shape (places v) d Hwf Hroom Hread)
        as (d' & ws & Hloop & Hwf' & Hcont' & Hlen' & Hhd & Hl' & Hc' & Hm'
            & Hs').
      exists d', dp, ws. split_and!; try done; try congruence.
      * unfold Push. cbv zeta. rewrite grow_fits by (done || lia).
        cbn [mbind option_bind]. rewrite Hmoved. exact Hloop.
      * destruct Hcapp as [(? & ? & ?)|(? & _)]; [congruence|lia].
      * destruct Hcapp as [(? & ? & ?)|(? & _)]; [congruence|lia].
    + destruct (for_range_unshift_shape (places v) d Hwf Hroom Hread)
        as (d' & ws & Hloop & Hwf' & Hcont' & Hlen' & Hhd & Hl' & Hc' & Hm'
            & Hs').
      exists d', du, ws. split_and!; try done; try congruence.
      * unfold Unshift. cbv zeta. rewrite grow_fits by (done || lia).
        cbn [mbind option_bind]. rewrite Hmoved. exact Hloop.
      * destruct Hcapu as [(? & ? & ?)|(? & _)]; [congruence|lia].
      * destruct Hcapu as [(? & ? & ?)|(? & _)]; [congruence|lia].
Qed.

End MoreProperties.

(** ** Instances of the further properties *)

Lemma X1_witness :
  (∃ d1 d2, Deque.Push 0 (window 3 1) wrapped_example = Some d1 ∧
            Deque.calls (Deque.Pop 0) (length [8]) d1
              = Some (d2, (λ x, (x, true)) <$> reverse [8]) ∧
            Deque.contents d2 = Deque.contents wrapped_example) ∧
  (∃ d1 d2, Deque.Unshift 0 (window 3 1) wrapped_example = Some d1 ∧
            Deque.calls (Deque.Shift 0) (length [8]) d1
              = Some (d2, (λ x, (x, true)) <$> reverse [8]) ∧
            Deque.contents d2 = Deque.contents wrapped_example).
Proof.
  apply (X1_lifo_at_one_end 0 wrapped_example (window 3 1) [8]).
  - apply wrapped_example_wf.
  - vm_compute. discriminate.
  - reflexivity.
  - right. reflexivity.
Defined.

Lemma X2_witness :
  ∃ d1 d2 d12,
    Deque.Push 0 (window 3 1) wrapped_example = Some d1 ∧
    Deque.Push 0 (window 2 2) d1 = Some d2 ∧
    Deque.Push 0 [8; 7; 8] wrapped_example = Some d12 ∧
    Deque.contents d2 = Deque.contents wrapped_example ++ [8] ++ [7; 8] ∧
    Deque.contents d12 = Deque.contents d2 ∧
    Deque.len d12 = Deque.len d2 ∧ Deque.Cap d12 = Deque.Cap d2 ∧
    Deque.Minsize d12 = Deque.Minsize d2.
Proof.
  destruct (X2_batches_compose 0 wrapped_example (window 3 1) [8])
    as [(d1 & H1 & Hnext) _].
  - apply wrapped_example_wf.
  - vm_compute. discriminate.
  - reflexivity.
  - right. reflexivity.
  - pose proof H1 as H1'. vm_compute in H1'. injection H1' as <-.
    destruct (Hnext (window 2 2) [7; 8]) as (d2 & d12 & Hrest).
    + vm_compute. discriminate.
    + reflexivity.
    + left. reflexivity.
    + eexists _, d2, d12. split; [exact H1|exact Hrest].
Defined.

Lemma X3_witness :
  ∃ d, Deque.run 0 [Deque.OpUnshift [1; 2; 3]; Deque.OpPop;
                    Deque.OpWrapSlice (mkSlice [5; 6] [0]); Deque.OpShift]
         (Deque.new 2 Deque.ShrinkIfEmpty) = Some d ∧
       0 <= Deque.len d <= Deque.Cap d ∧
       Deque.Len d = Z.of_nat (length (Deque.contents d)) ∧
       (0 < Deque.Cap d →
        0 <= Deque.head d < Deque.Cap d ∧ 0 <= Deque.tail d < Deque.Cap d ∧
        Deque.tail d
          = (Deque.head d + Deque.len d - 1) mod Deque.Cap d).
Proof.
  apply (X3_operations_keep_the_cursors_in_range 0 2 Deque.ShrinkIfEmpty).
  - vm_compute. discriminate.
  - vm_compute. discriminate.
Defined.

Lemma X4_witness :
  ∃ d rs,
    Deque.trace 0 [Deque.OpPush [1; 2; 3]; Deque.OpShift; Deque.OpUnshift [4];
                   Deque.OpPeek; Deque.OpLen; Deque.OpToSlice; Deque.OpPop]
      (Deque.new 2 Deque.ShrinkAt20Pct) = Some (d, rs) ∧
    Deque.contents d
      = (Deque.model_trace 0
           [Deque.OpPush [1; 2; 3]; Deque.OpShift; Deque.OpUnshift [4];
            Deque.OpPeek; Deque.OpLen; Deque.OpToSlice; Deque.OpPop] []).1 ∧
    Forall2 Deque.agrees rs
      (Deque.model_trace 0
         [Deque.OpPush [1; 2; 3]; Deque.OpShift; Deque.OpUnshift [4];
          Deque.OpPeek; Deque.OpLen; Deque.OpToSlice; Deque.OpPop] []).2.
Proof.
  apply (X4_deque_refines_list 0 2 Deque.ShrinkAt20Pct).
  - vm_compute. discriminate.
  - vm_compute. discriminate.
Defined.

Lemma X5_witness :
  (∃ d' v, Deque.Pop 0 (single_example 4) = Some (d', (v, true)) ∧
           Deque.Cap d' =
             if (Deque.len (single_example 4) =? 1)
                && (0 <=? Deque.Minsize (single_example 4))
                && negb (Deque.Cap (single_example 4)
                         =? Deque.Minsize (single_example 4))
             then Deque.Minsize (single_example 4)
             else Deque.Cap (single_example 4)) ∧
  (∃ d' v, Deque.Shift 0 (single_example 4) = Some (d', (v, true)) ∧
           Deque.Cap d' =
             if (Deque.len (single_example 4) =? 1)
                && (0 <=? Deque.Minsize (single_example 4))
                && negb (Deque.Cap (single_example 4)
                         =? Deque.Minsize (single_example 4))
             then Deque.Minsize (single_example 4)
             else Deque.Cap (single_example 4)).
Proof.
  apply (X5_shrink_if_empty 0 (single_example 4)).
  - apply single_example_wf. vm_compute. discriminate.
  - reflexivity.
  - reflexivity.
Defined.

Lemma X6_witness :
  (∃ d' v, Deque.Pop 0 (Deque.mk 2 7 0 2 3 [1; 2; 3; 0])
             = Some (d', (v, true)) ∧
           Deque.Cap d' = 2) ∧
  (∃ d' v, Deque.Shift 0 (Deque.mk 2 7 0 2 3 [1; 2; 3; 0])
             = Some (d', (v, true)) ∧
           Deque.Cap d' = 2).
Proof.
  apply (X6_unknown_policy_shrinks_eagerly 0
           (Deque.mk 2 7 0 2 3 [1; 2; 3; 0])).
  - wf_by_evaluation.
  - reflexivity.
  - discriminate.
  - discriminate.
  - discriminate.
Defined.

Lemma X7_witness :
  ∃ d', Deque.resize 0 8 wrapped_example = Some d' ∧
        Deque.head d' = 0 ∧
        Deque.tail d' = (if Deque.len wrapped_example =? 0 then 8 - 1
                         else Deque.len wrapped_example - 1) ∧
        Deque.dat d'
          = Deque.contents wrapped_example
            ++ replicate (Z.to_nat (8 - Deque.len wrapped_example)) 0 ∧
        Deque.Cap d' = 8 ∧ Deque.len d' = Deque.len wrapped_example ∧
        Deque.Minsize d' = Deque.Minsize wrapped_example ∧
        Deque.Shrink d' = Deque.Shrink wrapped_example.
Proof.
  apply (X7_resize_relocates 0 wrapped_example 8).
  - apply wrapped_example_wf.
  - vm_compute. split; discriminate.
Defined.

Lemma X8_witness :
  (∃ d' v, Deque.Pop 0 wrapped_example = Some (d', (v, true)) ∧
           ((Deque.dat d' = Deque.dat wrapped_example ∧
             Deque.head d' = Deque.head wrapped_example ∧
             Deque.dat d' !! Z.to_nat (Deque.tail wrapped_example) = Some v) ∨
            (Deque.Cap wrapped_example ≠ Deque.Minsize wrapped_example ∧
             Deque.head d' = 0 ∧
             Deque.dat d'
               = Deque.contents d'
                 ++ replicate (Z.to_nat (Deque.Minsize wrapped_example
                                         - Deque.len d')) 0))) ∧
  (∃ d' v, Deque.Shift 0 wrapped_example = Some (d', (v, true)) ∧
           ((Deque.dat d' = Deque.dat wrapped_example ∧
             Deque.tail d' = Deque.tail wrapped_example ∧
             Deque.dat d' !! Z.to_nat (Deque.head wrapped_example) = Some v) ∨
            (Deque.Cap wrapped_example ≠ Deque.Minsize wrapped_example ∧
             Deque.head d' = 0 ∧
             Deque.dat d'
               = Deque.contents d'
                 ++ replicate (Z.to_nat (Deque.Minsize wrapped_example
                                         - Deque.len d')) 0))).
Proof.
  apply (X8_removal_leaves_the_slot 0 wrapped_example).
  - apply wrapped_example_wf.
  - reflexivity.
Defined.

Lemma X9_witness :
  Deque.Len (Deque.WrapSlice (mkSlice [5; 6] [7; 8; 9]) wrapped_example) = 2 ∧
  Deque.Cap (Deque.WrapSlice (mkSlice [5; 6] [7; 8; 9]) wrapped_example) = 5 ∧
  Deque.dat (Deque.WrapSlice (mkSlice [5; 6] [7; 8; 9]) wrapped_example)
    = [5; 6; 7; 8; 9] ∧
  Deque.contents (Deque.WrapSlice (mkSlice [5; 6] [7; 8; 9]) wrapped_example)
    = [5; 6] ∧
  ∃ d', Deque.Push 0 (window 0 2)
          (Deque.WrapSlice (mkSlice [5; 6] [7; 8; 9]) wrapped_example)
          = Some d' ∧
        Deque.dat d' = [5; 6; 5; 6; 9] ∧
        Deque.contents d' = [5; 6; 5; 6] ∧
        Deque.Cap d'
          = Deque.Cap (Deque.WrapSlice (mkSlice [5; 6] [7; 8; 9])
                         wrapped_example).
Proof.
  apply (X9_adopted_buffer_used_in_place 0 (mkSlice [5; 6] [7; 8; 9])
           wrapped_example (window 0 2) [5; 6]).
  - vm_compute. discriminate.
  - vm_compute. discriminate.
  - simpl. lia.
  - reflexivity.
  - right. reflexivity.
Defined.

Lemma X10_witness :
  ∃ v w d1 d2,
    Deque.Peek 0 wrapped_example = Some (wrapped_example, (v, true)) ∧
    Deque.Pop 0 wrapped_example = Some (d1, (v, true)) ∧
    Deque.PeekShift 0 wrapped_example = Some (wrapped_example, (w, true)) ∧
    Deque.Shift 0 wrapped_example = Some (d2, (w, true)).
Proof.
  apply (X10_peek_shows_what_removal_takes 0 wrapped_example).
  - apply wrapped_example_wf.
  - reflexivity.
Defined.

Lemma X11_witness :
  (∀ fuel : nat, Deque.grow_loop fuel (2 ^ Z.of_nat 5) (2 ^ 62 + 1) = None) ∧
  Deque.grow 0 (2 ^ 62 + 1) (Deque.new (T := Z) 0 Deque.ShrinkNever) = None.
Proof.
  destruct (X11_doubling_overflows 0 5 (2 ^ 62 + 1)) as [Hloop Hgrow].
  - lia.
  - reflexivity.
  - split; [exact Hloop |].
    apply Hgrow; [vm_compute; discriminate | reflexivity].
Defined.

Lemma X12_witness :
  (∃ d', Deque.Push 0 [1; 2; 3] wrapped_example = Some d' ∧
         Deque.len d' <= Deque.Cap d' ∧
         (Deque.Cap d' = Deque.Cap wrapped_example ∨
          Deque.Cap d'
            = Deque.effective_minsize (Deque.Minsize wrapped_example) ∨
          Deque.Cap d' < 2 * Deque.len d')) ∧
  (∃ d', Deque.Unshift 0 [1; 2; 3] wrapped_example = Some d' ∧
         Deque.len d' <= Deque.Cap d' ∧
         (Deque.Cap d' = Deque.Cap wrapped_example ∨
          Deque.Cap d'
            = Deque.effective_minsize (Deque.Minsize wrapped_example) ∨
          Deque.Cap d' < 2 * Deque.len d')).
Proof.
  apply (X12_growth_within_factor_two 0 wrapped_example [1; 2; 3]).
  - apply wrapped_example_wf.
  - vm_compute. discriminate.
Defined.

Lemma X13_witness :
  ∃ d' l, Deque.ToSlice 0 wrapped_example = Some (d', l) ∧
          Deque.ToSlice 0 d' = Some (d', l) ∧
          (Deque.len wrapped_example = 0 ∨ Deque.head wrapped_example = 0 →
           d' = wrapped_example).
Proof.
  apply (X13_ToSlice_settles 0 wrapped_example).
  apply wrapped_example_wf.
Defined.

Lemma X14_witness :
  ∃ d1 rs d2,
    Deque.calls (Deque.Shift 0) 2 wrapped_example = Some (d1, rs) ∧
    Deque.Push 0 (Variadic [Apart 4; Within 0]) d1 = Some d2 ∧
    Deque.Cap d2 = Deque.Cap wrapped_example ∧
    Deque.len d2 = Deque.len wrapped_example ∧
    Deque.Minsize d2 = Deque.Minsize wrapped_example ∧
    Deque.contents d2 = drop 2 (Deque.contents wrapped_example) ++ [4; 9].
Proof.
  destruct (X14_steady_state_reuses_slots 0 wrapped_example 2)
    as (d1 & rs & Hcalls & Hnext).
  - apply wrapped_example_wf.
  - reflexivity.
  - vm_compute. discriminate.
  - pose proof Hcalls as Hcalls'. vm_compute in Hcalls'.
    injection Hcalls' as <- <-.
    destruct (Hnext (Variadic [Apart 4; Within 0]) [4; 9]) as (d2 & Hrest).
    + reflexivity.
    + reflexivity.
    + right. reflexivity.
    + eexists _, _, d2. split; [exact Hcalls|exact Hrest].
Defined.

Lemma X15_witness :
  (∃ d', Deque.Push 0 [1; 2; 3] (Deque.new 0 Deque.ShrinkNever) = Some d' ∧
         Deque.Cap d' = Deque.effective_minsize 0 ∧
         Deque.Minsize d' = Deque.effective_minsize 0 ∧
         Deque.contents d' = [1; 2; 3]) ∧
  (∃ d', Deque.Unshift 0 [1; 2; 3] (Deque.new 0 Deque.ShrinkNever)
           = Some d' ∧
         Deque.Cap d' = Deque.effective_minsize 0 ∧
         Deque.Minsize d' = Deque.effective_minsize 0 ∧
         Deque.contents d' = reverse [1; 2; 3]).
Proof.
  apply (X15_first_allocation 0 0 Deque.ShrinkNever [1; 2; 3]).
  - vm_compute. discriminate.
  - vm_compute. split; [reflexivity | discriminate].
  - vm_compute. discriminate.
Defined.

Lemma X16_witness :
  Deque.ToSlice 0 (Deque.WrapSlice (mkSlice [5; 6] [7]) wrapped_example)
    = Some (Deque.WrapSlice (mkSlice [5; 6] [7]) wrapped_example, [5; 6]) ∧
  ∃ d' l, Deque.ToSlice 0 wrapped_example = Some (d', l) ∧
          Deque.WrapSlice (mkSlice l (drop (length l) (Deque.dat d'))) d'
            = d'.
Proof.
  split.
  - apply (proj1 (X16_adopt_and_linearise 0 (mkSlice [5; 6] [7])
                    wrapped_example)).
    + vm_compute. discriminate.
    + vm_compute. discriminate.
  - apply (proj2 (X16_adopt_and_linearise 0 (mkSlice [] []) wrapped_example)).
    + apply wrapped_example_wf.
    + reflexivity.
Defined.

Lemma X17_witness :
  ∃ d1 d2 d3 v w,
    Deque.Push 0 [1; 2; 3] (Deque.new 2 Deque.ShrinkAt20Pct) = Some d1 ∧
    Deque.Cap (Deque.new (T := Z) 2 Deque.ShrinkAt20Pct) < Deque.Cap d1 ∧
    Deque.Pop 0 d1 = Some (d2, (v, true)) ∧ Deque.Cap d2 = Deque.Cap d1 ∧
    Deque.Shift 0 d1 = Some (d3, (w, true)) ∧ Deque.Cap d3 = Deque.Cap d1.
Proof.
  apply (X17_no_shrink_right_after_growth 0
           (Deque.new 2 Deque.ShrinkAt20Pct) [1; 2; 3]).
  - wf_by_evaluation.
  - reflexivity.
  - vm_compute. discriminate.
  - reflexivity.
Defined.

Lemma X18_witness :
  ∃ d1 l,
    Deque.ToSlice 0 wrapped_example = Some (d1, l) ∧
    Deque.held (window 0 1) d1 = Some (take 1 (drop 0 l)) ∧
    (∃ d2, Deque.Push 0 (window 0 1) d1 = Some d2 ∧
           Deque.contents d2 = l ++ take 1 (drop 0 l)) ∧
    (∃ d2, Deque.Unshift 0 (window 0 1) d1 = Some d2 ∧
           Deque.contents d2 = reverse (take 1 (drop 0 l)) ++ l).
Proof.
  apply (X18_live_elements_can_be_passed_back 0 wrapped_example 0 1).
  - apply wrapped_example_wf.
  - vm_compute. discriminate.
  - vm_compute. discriminate.
Defined.

Lemma X19_witness :
  Deque.held (window 1 2)
    (Deque.WrapSlice (mkSlice [5; 6] [7; 8; 9]) wrapped_example)
    = Some [6; 7] ∧
  ∃ d', Deque.Push 0 (window 1 2)
          (Deque.WrapSlice (mkSlice [5; 6] [7; 8; 9]) wrapped_example)
          = Some d' ∧
        Deque.contents d' = [5; 6; 6; 6].
Proof.
  apply (X19_slice_from_the_tail_slot_is_smeared 0
           (Deque.WrapSlice (mkSlice [5; 6] [7; 8; 9]) wrapped_example) 2 6).
  - wf_by_evaluation.
  - vm_compute. discriminate.
  - reflexivity.
  - reflexivity.
Defined.

Lemma X20_witness :
  (∃ d' d'' ws,
     Deque.Push 0 (window 1 2)
       (Deque.WrapSlice (mkSlice [5; 6] [7; 8; 9]) wrapped_example)
       = Some d' ∧
     Deque.Push 0 [6; 7]
       (Deque.WrapSlice (mkSlice [5; 6] [7; 8; 9]) wrapped_example)
       = Some d'' ∧
     Deque.wf d' ∧
     Deque.contents d'
       = Deque.contents
           (Deque.WrapSlice (mkSlice [5; 6] [7; 8; 9]) wrapped_example)
         ++ ws ∧
     length ws = length [6; 7] ∧ hd_error ws = hd_error [6; 7] ∧
     Deque.len d' = Deque.len d'' ∧ Deque.Cap d' = Deque.Cap d'' ∧
     Deque.Minsize d' = Deque.Minsize d'' ∧
     Deque.Shrink d' = Deque.Shrink d'') ∧
  (∃ d' d'' ws,
     Deque.Unshift 0 (window 1 2)
       (Deque.WrapSlice (mkSlice [5; 6] [7; 8; 9]) wrapped_example)
       = Some d' ∧
     Deque.Unshift 0 [6; 7]
       (Deque.WrapSlice (mkSlice [5; 6] [7; 8; 9]) wrapped_example)
       = Some d'' ∧
     Deque.wf d' ∧
     Deque.contents d'
       = reverse ws
         ++ Deque.contents
              (Deque.WrapSlice (mkSlice [5; 6] [7; 8; 9]) wrapped_example) ∧
     length ws = length [6; 7] ∧ hd_error ws = hd_error [6; 7] ∧
     Deque.len d' = Deque.len d'' ∧ Deque.Cap d' = Deque.Cap d'' ∧
     Deque.Minsize d' = Deque.Minsize d'' ∧
     Deque.Shrink d' = Deque.Shrink d'').
Proof.
  apply (X20_sharing_changes_inserted_values_only 0
           (Deque.WrapSlice (mkSlice [5; 6] [7; 8; 9]) wrapped_example)
           (window 1 2) [6; 7]).
  - wf_by_evaluation.
  - vm_compute. discriminate.
  - reflexivity.
Defined.
